(** * Constrained random program generation ([profile.py])

    A shallow embedding of the generator core of
    [experiment/tools/deap/profile.py]: the size arithmetic
    ([get_max_size]), the stack-driven builder ([generate_program_] with
    the [terminal_condition] of [generate_grow]) and the per-bin
    bookkeeping of the module-level sampling loop.

    Python integers are [Z].  The two places where the script divides
    integers with [/] are modelled with the binary64 rounding that
    Python's integer true division performs. *)

From Stdlib Require Import String ZArith List Bool Lia QArith.

Import ListNotations.

Local Open Scope Z_scope.

(** ** Python exceptions and results *)

Inductive exn : Type :=
| OverflowError
| ZeroDivisionError
| ValueError
| IndexError.

Inductive result (A : Type) : Type :=
| Ok (a : A)
| Raise (e : exn).

Arguments Ok {A} a.
Arguments Raise {A} e.

Definition bind {A B : Type} (r : result A) (k : A -> result B) : result B :=
  match r with
  | Ok a => k a
  | Raise e => Raise e
  end.

Notation "x <- r ;; k" := (bind r (fun x => k))
  (at level 61, r at next level, right associativity).

(** ** Integer true division ([a / b] on Python integers)

    CPython computes the quotient of two integers correctly rounded to
    binary64 (round to nearest, ties to even) and raises [OverflowError]
    when the rounded value does not fit.  A finite binary64 value is kept
    as [mant * 2 ^ expo] with its sign. *)

Module Float.

Record t : Type := mk { neg : bool; mant : Z; expo : Z }.

Definition two53 : Z := 2 ^ 53.

Definition two52 : Z := 2 ^ 52.

Definition two1024 : Z := 2 ^ 1024.

(** [A / (B * 2^e)] as a fraction of integers. *)
Definition scaled (A B e : Z) : Z * Z :=
  if 0 <=? e then (A, B * 2 ^ e) else (A * 2 ^ (- e), B).

(** The exponent that puts the integer part of [A / (B * 2^e)] in
    [[2^52, 2^53)]. *)
Definition normal_expo (A B : Z) : Z :=
  let e0 := Z.log2 A - Z.log2 B - 52 in
  let '(n0, d0) := scaled A B e0 in
  if n0 / d0 <? two52 then e0 - 1 else e0.

(** Round the positive rational [A / B] to the nearest binary64 value,
    ties to even: 53 significant bits, and a spacing of [2^-1074] in the
    subnormal range. *)
Definition round_pos (A B : Z) : Z * Z :=
  let e := Z.max (normal_expo A B) (-1074) in
  let '(n, d) := scaled A B e in
  let q := n / d in
  let r := n mod d in
  let up := (d <? 2 * r) || ((d =? 2 * r) && Z.odd q) in
  ((if up then q + 1 else q), e).

Definition overflows (m e : Z) : bool :=
  (0 <=? e) && (two1024 <=? m * 2 ^ e).

(** [a / b] for integers [a] and [b]. *)
Definition truediv (a b : Z) : result t :=
  if b =? 0 then Raise ZeroDivisionError
  else if a =? 0 then Ok (mk (b <? 0) 0 0)
  else
    let '(m, e) := round_pos (Z.abs a) (Z.abs b) in
    if overflows m e then Raise OverflowError
    else Ok (mk (negb (Bool.eqb (a <? 0) (b <? 0))) m e).

(** [float(n)] for an integer [n]. *)
Definition of_int (n : Z) : result t := truediv n 1.

(** [int(x)]: truncation toward zero. *)
Definition to_int (x : t) : Z :=
  let v := if 0 <=? expo x then mant x * 2 ^ expo x
           else mant x / 2 ^ (- expo x) in
  if neg x then - v else v.

(** [math.ceil(x)]. *)
Definition ceil (x : t) : Z :=
  if 0 <=? expo x then (if neg x then - (mant x * 2 ^ expo x)
                        else mant x * 2 ^ expo x)
  else
    let p := 2 ^ (- expo x) in
    if neg x then - (mant x / p)
    else - ((- mant x) / p).

End Float.

(** ** [get_max_size]

    [m ** (d+1)] is an integer when [d+1 >= 0].  For a negative exponent
    Python converts both operands to floats and computes a float power
    (a zero base raises [ZeroDivisionError]); the quotient
    [(1 - m**(d+1)) / (1 - m)] then has magnitude at most [1], and [int]
    of it is [0] except in two cases: [m = 2] with [d+1 <= -54], where
    [1 - 2**(d+1)] rounds to [1.0] and the quotient is [-1.0]; and
    [m = -1] with an odd exponent, where the quotient is [2.0/2]. *)

Definition get_max_size (m d : Z) : result Z :=
  if m =? 1 then Ok (d + 1)
  else if 0 <=? d + 1 then
    x <- Float.truediv (1 - m ^ (d + 1)) (1 - m) ;;
    Ok (Float.to_int x)
  else
    _ <- Float.of_int m ;;
    y <- Float.of_int (d + 1) ;;
    if m =? 0 then Raise ZeroDivisionError
    else
      _ <- Float.of_int (1 - m) ;;
      if (m =? 2) && (d + 1 <=? -54) then Ok (-1)
      else if (m =? -1) && Z.odd (Float.to_int y) then Ok 1
      else Ok 0.

(** The node count of a complete [m]-ary tree of depth [d]:
    [1 + m + ... + m^d]. *)
Fixpoint complete_size (m : Z) (d : nat) : Z :=
  match d with
  | O => 1
  | S d' => 1 + m * complete_size m d'
  end.

(** ** The pseudo-random source

    The module-level [random] generator is one stream of raw draws read
    at an advancing position.  Every call of [random.randint],
    [random.choice] and [random.random] consumes exactly one raw draw. *)

Record rng : Type := mkRng { stream : nat -> N; pos : nat }.

Definition draw (g : rng) : Z * rng :=
  (Z.of_N (stream g (pos g)), mkRng (stream g) (S (pos g))).

(** Computations that read the generator and may raise. *)
Definition M (A : Type) : Type := rng -> result (A * rng).

Definition ret_M {A : Type} (a : A) : M A := fun g => Ok (a, g).

Definition raise_M {A : Type} (e : exn) : M A := fun _ => Raise e.

Definition bind_M {A B : Type} (c : M A) (k : A -> M B) : M B :=
  fun g => match c g with
           | Ok (a, g') => k a g'
           | Raise e => Raise e
           end.

Definition lift {A : Type} (r : result A) : M A :=
  fun g => match r with Ok a => Ok (a, g) | Raise e => Raise e end.

Notation "x <~ c ;; k" := (bind_M c (fun x => k))
  (at level 61, c at next level, right associativity).

(** [random.randint(a, b)]: raises [ValueError] on an empty range, before
    anything is drawn. *)
Definition randint (a b : Z) : M Z :=
  fun g => if b <? a then Raise ValueError
           else let '(r, g') := draw g in Ok (a + r mod (b - a + 1), g').

(** [random.choice(seq)]. *)
Definition choice {A : Type} (l : list A) : M A :=
  fun g => match l with
           | [] => Raise IndexError
           | x :: _ =>
               let '(r, g') := draw g in
               Ok (nth (Z.to_nat (r mod Z.of_nat (List.length l))) l x, g')
           end.

(** [random.random() < ratio]: the draw is [k / 2^53] with
    [0 <= k < 2^53]. *)
Definition random_lt (ratio : Q) : M bool :=
  fun g => let '(r, g') := draw g in
           Ok (negb (Qle_bool ratio (Qmake (r mod Float.two53) (2 ^ 53))), g').

(** ** The primitive set (the part of DEAP's [PrimitiveSet] the builder reads) *)

Definition pytype : Type := nat.

(** A function symbol.  Its arity is a positive integer: the sets of
    this script are built with [PrimitiveSet.addPrimitive], which asserts
    [arity > 0]. *)
Record Primitive : Type := mkPrimitive { pname : string; arity : positive }.

(** A terminal of the set is either a terminal object (a variable) or an
    ephemeral-constant class; instantiating the class runs the closure
    of [generate_primitive_set], which indexes the fixed constant list
    with [random.randint(0, num_constants-1)]. *)
Inductive Terminal : Type :=
| TerminalObj (name : string)
| EphemeralClass (name : string) (ephemeral_constants : list Q).

Inductive node : Type :=
| NPrimitive (f : Primitive)
| NTerminal (name : string)
| NConstant (value : Q).

Record PrimitiveSet : Type := mkPrimitiveSet {
  ret : pytype;
  terminals : pytype -> list Terminal;
  primitives : pytype -> list Primitive;
  terminalRatio : Q
}.

(** [desired_trait] is a string compared with ['depth'] and ['size']. *)
Inductive trait : Type := ByDepth | BySize | OtherTrait.

Definition is_depth (t : trait) : bool :=
  match t with ByDepth => true | _ => false end.

Definition is_size (t : trait) : bool :=
  match t with BySize => true | _ => false end.

Definition node_arity (n : node) : nat :=
  match n with NPrimitive f => Pos.to_nat (arity f) | _ => 0%nat end.

(** ** Helpers shared by [terminal_condition] and [generate_program_] *)

Definition is_nil {A : Type} (l : list A) : bool :=
  match l with [] => true | _ => false end.

(** [[f for f in primitive_set.primitives[ret_type] if size+f.arity <= max_size]] *)
Definition valid_functions_of (ps : PrimitiveSet) (ret_type : pytype)
    (size max_size : Z) : list Primitive :=
  filter (fun f => size + Z.pos (arity f) <=? max_size)
         (primitives ps ret_type).

(** [max([f.arity for f in fs])] on a non-empty list. *)
Definition max_arity_of (fs : list Primitive) : Z :=
  fold_right (fun f acc => Z.max (Z.pos (arity f)) acc) 0 fs.

(** The obligation stack: the head of the list is the top, that is the
    last element of the Python list. *)
Definition obligation : Type := (Z * Z)%type.

(** [sum([get_max_size(max_arity, max_depth-d)-1 for (d,*_) in stack])] *)
Fixpoint remaining_budget (stack : list obligation) (max_arity max_depth : Z)
    : result Z :=
  match stack with
  | [] => Ok 0
  | (d, _) :: rest =>
      s <- remaining_budget rest max_arity max_depth ;;
      v <- get_max_size max_arity (max_depth - d) ;;
      Ok ((v - 1) + s)
  end.

Record bounds : Type := mkBounds {
  min_depth : Z; max_depth : Z; min_size : Z; max_size : Z
}.

(** ** [terminal_condition] of [generate_grow] *)

Definition terminal_condition (stack : list obligation) (depth size : Z)
    (ret_type : pytype) (ps : PrimitiveSet) (b : bounds)
    (desired_trait : trait) (desired_value : Z) : M bool :=
  let valid_terminals := terminals ps ret_type in
  let valid_functions := valid_functions_of ps ret_type size (max_size b) in
  let max_arity := if is_nil valid_functions then 1
                   else max_arity_of valid_functions in
  max_possible_size <~
    lift (if is_nil stack then Ok size
          else s <- remaining_budget stack max_arity (max_depth b) ;;
               Ok (size + s)) ;;
  if is_nil valid_terminals then ret_M false
  else if is_nil valid_functions
          || (depth =? max_depth b)
          || (size =? max_size b)
          || (is_depth desired_trait && (depth =? desired_value))
          || (is_size desired_trait && (desired_value <=? size))
       then ret_M true
  else if (min_depth b <=? depth)
          && (min_size b <=? size)
          && (is_depth desired_trait
              || (is_size desired_trait
                  && (desired_value <=? max_possible_size)))
       then random_lt (terminalRatio ps)
  else ret_M false.

(** ** [generate_program_] *)

(** The size-feasibility pass over [valid_functions] (the [for f in
    valid_functions] loop under [desired_trait == 'size']). *)
Fixpoint size_feasible (fs : list Primitive) (stack : list obligation)
    (depth size max_arity : Z) (b : bounds) (desired_value : Z)
    : result (list Primitive) :=
  match fs with
  | [] => Ok []
  | f :: rest =>
      v <- get_max_size max_arity (max_depth b - (depth + 1)) ;;
      let max_possible_size := Z.pos (arity f) * v in
      total <- (if is_nil stack then Ok (size + max_possible_size)
                else s <- remaining_budget stack max_arity (max_depth b) ;;
                     Ok (size + max_possible_size + s)) ;;
      temp <- size_feasible rest stack depth size max_arity b desired_value ;;
      Ok (if desired_value <=? total then f :: temp else temp)
  end.

(** What one run of the builder ends with: the program list, [None], or
    an exception. *)
Inductive outcome : Type :=
| Program (p : list node)
| Infeasible
| Raised (e : exn).

Record state : Type := mkState {
  program : list node;
  stack : list obligation;
  gen : rng
}.

Inductive step_result : Type :=
| Continue (s : state)
| Done (o : outcome) (g : rng).

(** Instantiating a chosen terminal ([if isclass(terminal): terminal =
    terminal()]). *)
Definition materialize (t : Terminal) : M node :=
  match t with
  | TerminalObj name => ret_M (NTerminal name)
  | EphemeralClass _ consts =>
      i <~ randint 0 (Z.of_nat (List.length consts) - 1) ;;
      ret_M (NConstant (nth (Z.to_nat i) consts 0%Q))
  end.

(** The carry-forward of the terminal branch: the next obligation keeps
    its depth and takes the size just used. *)
Definition carry_forward (stack : list obligation) (size : Z)
    : list obligation :=
  match stack with
  | [] => []
  | (depth, _) :: rest => (depth, size) :: rest
  end.

Section Builder.

Variable primitive_set : PrimitiveSet.
Variable b : bounds.
Variable desired_trait : trait.
Variable ret_type : pytype.
Variable desired_value : Z.

(** The terminal branch of the loop body. *)
Definition terminal_branch (prog : list node) (rest : list obligation)
    (size : Z) : M (list node * list obligation) :=
  terminal <~ choice (terminals primitive_set ret_type) ;;
  n <~ materialize terminal ;;
  ret_M (prog ++ [n], carry_forward rest size).

(** The functions the function branch may choose from: those that keep
    [size + arity <= max_size] and, under size targeting, leave
    [desired_value] reachable. *)
Definition feasible_functions (rest : list obligation) (depth size : Z)
    : result (list Primitive) :=
  let valid_functions :=
    valid_functions_of primitive_set ret_type size (max_size b) in
  if negb (is_nil valid_functions) && is_size desired_trait
  then size_feasible valid_functions rest depth size
         (max_arity_of valid_functions) b desired_value
  else Ok valid_functions.

(** The function branch: [None] stands for [return None]. *)
Definition function_branch (prog : list node) (rest : list obligation)
    (depth size : Z) : M (option (list node * list obligation)) :=
  valid_functions <~ lift (feasible_functions rest depth size) ;;
  if is_nil valid_functions then ret_M None
  else
    function <~ choice valid_functions ;;
    ret_M (Some (prog ++ [NPrimitive function],
                 repeat (depth + 1, size + Z.pos (arity function))
                        (Pos.to_nat (arity function)) ++ rest)).

(** The generator an exception of the terminal branch leaves behind:
    [random.choice] has consumed its draw when the instantiation
    [terminal()] raises ([random.randint] raises before it draws). *)
Definition terminal_branch_raised_gen (g : rng) : rng :=
  match choice (terminals primitive_set ret_type) g with
  | Ok (_, g') => g'
  | Raise _ => g
  end.

(** One iteration of [while len(stack) != 0]. *)
Definition loop_body (s : state) : step_result :=
  match stack s with
  | [] => Done (Program (program s)) (gen s)
  | (depth, size) :: rest =>
      match terminal_condition rest depth size ret_type primitive_set b
              desired_trait desired_value (gen s) with
      | Raise e => Done (Raised e) (gen s)
      | Ok (true, g1) =>
          match terminal_branch (program s) rest size g1 with
          | Raise e => Done (Raised e) (terminal_branch_raised_gen g1)
          | Ok ((prog', stack'), g2) => Continue (mkState prog' stack' g2)
          end
      | Ok (false, g1) =>
          match function_branch (program s) rest depth size g1 with
          | Raise e => Done (Raised e) g1
          | Ok (None, g2) => Done Infeasible g2
          | Ok (Some (prog', stack'), g2) =>
              Continue (mkState prog' stack' g2)
          end
      end
  end.

(** The loop, iterated at most [fuel] times; [None] when the fuel runs
    out before the loop ends. *)
Fixpoint loop (fuel : nat) (s : state) : option (outcome * rng) :=
  match loop_body s with
  | Done o g => Some (o, g)
  | Continue s' =>
      match fuel with
      | O => None
      | S fuel' => loop fuel' s'
      end
  end.

End Builder.

(** The number of iterations the loop can take from a state: every
    iteration either removes an obligation or raises the running size,
    which a function choice keeps within [max_size]. *)
Definition measure (b : bounds) (s : state) : nat :=
  match stack s with
  | [] => 0%nat
  | (_, size) :: _ =>
      (2 * Z.to_nat (max_size b - size) + List.length (stack s))%nat
  end.

Definition initial_state (g : rng) : state := mkState [] [(0, 1)] g.

(** [if ret_type is None: ret_type = primitive_set.ret] *)
Definition resolve_ret_type (primitive_set : PrimitiveSet)
    (ret_type : option pytype) : pytype :=
  match ret_type with
  | None => ret primitive_set
  | Some ty => ty
  end.

(** The draw of [desired_value]. *)
Definition draw_desired_value (b : bounds) (desired_trait : trait) : M Z :=
  if is_depth desired_trait then randint (min_depth b) (max_depth b)
  else randint (min_size b) (max_size b).

Definition generate_program_ (primitive_set : PrimitiveSet) (b : bounds)
    (desired_trait : trait) (ret_type : option pytype) (g : rng)
    : option (outcome * rng) :=
  let ret_type := resolve_ret_type primitive_set ret_type in
  match draw_desired_value b desired_trait g with
  | Raise e => Some (Raised e, g)
  | Ok (desired_value, g1) =>
      loop primitive_set b desired_trait ret_type desired_value
           (measure b (initial_state g1)) (initial_state g1)
  end.

(** [generate_grow] passes its own [terminal_condition] to
    [generate_program_]. *)
Definition generate_grow (primitive_set : PrimitiveSet) (b : bounds)
    (desired_trait : trait) (ret_type : option pytype) (g : rng)
    : option (outcome * rng) :=
  generate_program_ primitive_set b desired_trait ret_type g.

(** ** Trees in prefix order, their size and depth *)

(** [PrimitiveTree.height] of DEAP walks the prefix list with a stack of
    depths: [depth = stack.pop(); max_depth = max(max_depth, depth);
    stack.extend([depth + 1] * elem.arity)].  [height_scan] is that walk
    from a given stack and running maximum; it fails where [pop] would
    find the stack empty. *)
Fixpoint height_scan (l : list node) (stk : list Z) (maxd : Z)
    : option (list Z * Z) :=
  match l with
  | [] => Some (stk, maxd)
  | n :: l' =>
      match stk with
      | [] => None
      | d :: rest =>
          height_scan l' (repeat (d + 1) (node_arity n) ++ rest) (Z.max maxd d)
      end
  end.

Definition height (p : list node) : option Z :=
  match height_scan p [0] 0 with
  | Some (_, h) => Some h
  | None => None
  end.

(** The size the sampler recomputes: [program_nodes[-1]+1], the number
    of nodes of the list. *)
Definition program_size (p : list node) : Z := Z.of_nat (List.length p).

(** [forest bound d k l]: [l] lists, in prefix order, [k] complete trees
    whose roots sit at depth [d], and no node is deeper than [bound]. *)
Inductive forest (bound : Z) : Z -> nat -> list node -> Prop :=
| forest_nil (d : Z) : forest bound d 0 []
| forest_cons (d : Z) (n : node) (l1 l2 : list node) (k : nat) :
    d <= bound ->
    forest bound (d + 1) (node_arity n) l1 ->
    forest bound d k l2 ->
    forest bound d (S k) (n :: l1 ++ l2).

(** A complete tree rooted at depth [0] and not deeper than [bound]. *)
Definition complete_tree (bound : Z) (p : list node) : Prop :=
  forest bound 0 1 p.

(** One complete tree per pending depth. *)
Inductive stack_forest (bound : Z) : list Z -> list node -> Prop :=
| sf_nil : stack_forest bound [] []
| sf_cons (d : Z) (stk : list Z) (l1 l2 : list node) :
    forest bound d 1 l1 ->
    stack_forest bound stk l2 ->
    stack_forest bound (d :: stk) (l1 ++ l2).

(** ** The size bins of the sampling loop *)

(** [max([arity for _, arity in function_set])] *)
Definition max_arity_of_set (function_set : list (string * positive))
    : result Z :=
  match function_set with
  | [] => Raise ValueError
  | _ => Ok (fold_right (fun fa acc => Z.max (Z.pos (snd fa)) acc) 0
               function_set)
  end.

(** [num_size_bins = int(math.ceil(max_possible_size/bin_size))] *)
Definition num_size_bins (max_possible_size bin_size : Z) : result Z :=
  x <- Float.truediv max_possible_size bin_size ;;
  Ok (Float.ceil x).

(** The sizes bin [i] targets: [min_size = i*bin_size+1] and
    [max_size = max_possible_size if i==num_size_bins-1 else
    (i+1)*bin_size]. *)
Definition bin_sizes (i n max_possible_size bin_size : Z) : Z * Z :=
  (i * bin_size + 1,
   if i =? n - 1 then max_possible_size else (i + 1) * bin_size).

(** [range(n)] *)
Definition range (n : Z) : list Z := map Z.of_nat (seq 0 (Z.to_nat n)).

(** What the sampling loop computes for one function set: the maximum
    possible size, the number of bins and the size range of every bin. *)
Definition size_bins (max_arity max_depth bin_size : Z)
    : result (Z * Z * list (Z * Z)) :=
  max_possible_size <- get_max_size max_arity max_depth ;;
  n <- num_size_bins max_possible_size bin_size ;;
  Ok (max_possible_size, n,
      map (fun i => bin_sizes i n max_possible_size bin_size) (range n)).

(** The exact ceiling of [a / b] for [b > 0]. *)
Definition ceil_div (a b : Z) : Z := - ((- a) / b).

(** ** The body of the sampling loop (one generated program, one bin) *)

(** One entry of [program_dict[name]]: the tuple [(programs, depths,
    sizes, function_counts, variable_counts, constant_counts)]. *)
Record bin : Type := mkBin {
  programs : list string;
  depths : list Z;
  sizes : list Z;
  function_counts : list Z;
  variable_counts : list Z;
  constant_counts : list Z
}.

Definition empty_bin : bin := mkBin [] [] [] [] [] [].

(** What the loop has for one bin: its [program_dict] entry, its
    [primitive_trees] list and the lines printed so far. *)
Record sampler : Type := mkSampler {
  dict_bin : bin;
  primitive_trees : list (list node);
  printed : list string
}.

Definition empty_sampler : sampler := mkSampler empty_bin [] [].

(** [l.index(x)]: the first position of [x], [ValueError] when absent. *)
Fixpoint index_of {A : Type} (eqb : A -> A -> bool) (x : A) (l : list A)
    : option nat :=
  match l with
  | [] => None
  | y :: l' => if eqb y x then Some 0%nat
               else option_map S (index_of eqb x l')
  end.

(** [count[index] += 1].  The counting loop only passes a position found
    by [index] in the list of names, and every counter has one entry per
    name; a position beyond the counter is left without effect here. *)
Fixpoint increment (index : nat) (count : list Z) : list Z :=
  match count, index with
  | [], _ => []
  | c :: rest, O => (c + 1) :: rest
  | c :: rest, S k => c :: increment k rest
  end.

(** [[sum(i) for i in list(zip(counts, count))]] *)
Fixpoint zip_sum (counts count : list Z) : list Z :=
  match counts, count with
  | c :: cs, d :: ds => (c + d) :: zip_sum cs ds
  | _, _ => []
  end.

(** [count if counts == [] else [sum(i) for i in zip(counts, count)]] *)
Definition accumulate (counts count : list Z) : list Z :=
  if is_nil counts then count else zip_sum counts count.

Section SamplingLoop.

(** [str(gp.PrimitiveTree(program))], the rendering of DEAP. *)
Variable program_str_of : list node -> string.
Variable num_programs_per_size_bin : nat.
Variable function_names : list string.
Variable variable_names : list string.
Variable constant_names : list Q.

(** The counting loop over [program_nodes]: a label found among the
    function names counts as that function, one found among the variable
    names as that variable, anything else is looked up in
    [constant_names]. *)
Definition count_node (acc : list Z * list Z * list Z) (n : node)
    : result (list Z * list Z * list Z) :=
  let '(fc, vc, cc) := acc in
  let by_name (node_name : string) :=
    match index_of String.eqb node_name function_names with
    | Some index => Ok (increment index fc, vc, cc)
    | None =>
        match index_of String.eqb node_name variable_names with
        | Some index => Ok (fc, increment index vc, cc)
        | None => Raise ValueError
        end
    end in
  match n with
  | NPrimitive f => by_name (pname f)
  | NTerminal name => by_name name
  | NConstant value =>
      match index_of Qeq_bool value constant_names with
      | Some index => Ok (fc, vc, increment index cc)
      | None => Raise ValueError
      end
  end.

Fixpoint count_nodes (acc : list Z * list Z * list Z) (p : list node)
    : result (list Z * list Z * list Z) :=
  match p with
  | [] => Ok acc
  | n :: rest => acc' <- count_node acc n ;; count_nodes acc' rest
  end.

(** The loop body after [generate_program]: lines 440 to 525. *)
Definition sample_step (b : bounds) (st : sampler) (o : outcome)
    : result sampler :=
  match o with
  | Raised e => Raise e
  | Infeasible => Ok st
  | Program [] => Raise IndexError
  | Program p =>
      let size := program_size p in
      let trees := primitive_trees st ++ [p] in
      let program_str := program_str_of p in
      match height p with
      | None => Raise IndexError
      | Some depth =>
          if (max_depth b <? depth) || (max_size b <? size) then
            Ok (mkSampler (dict_bin st) trees (printed st ++ ["Uh-oh..."%string]))
          else
            let d := dict_bin st in
            if (List.length (programs d) <? num_programs_per_size_bin)%nat
               && (count_occ string_dec (programs d) program_str =? 0)%nat
            then
              counts <- count_nodes
                          (repeat 0 (List.length function_names),
                           repeat 0 (List.length variable_names),
                           repeat 0 (List.length constant_names)) p ;;
              let '(function_count, variable_count, constant_count) :=
                counts in
              Ok (mkSampler
                    (mkBin (programs d ++ [program_str])
                           (depths d ++ [depth])
                           (sizes d ++ [size])
                           (accumulate (function_counts d) function_count)
                           (accumulate (variable_counts d) variable_count)
                           (accumulate (constant_counts d) constant_count))
                    trees (printed st))
            else Ok (mkSampler d trees (printed st))
      end
  end.

(** The loop over the programs generated for one bin. *)
Fixpoint sample_all (b : bounds) (st : sampler) (os : list outcome)
    : result sampler :=
  match os with
  | [] => Ok st
  | o :: rest => st' <- sample_step b st o ;; sample_all b st' rest
  end.

End SamplingLoop.

(** The strings of a bin are pairwise distinct and within the quota. *)
Definition bin_ok (K : nat) (st : sampler) : Prop :=
  NoDup (programs (dict_bin st)) /\
  (List.length (programs (dict_bin st)) <= K)%nat.

(** ** Steps, reachable states and invariants of the builder loop *)

Section StepKinds.

Variable ps : PrimitiveSet.
Variable b : bounds.
Variable dt : trait.
Variable rt : pytype.
Variable dv : Z.

(** A terminal is appended and the next obligation takes the size. *)
Definition terminal_step (s s' : state) : Prop :=
  exists depth size rest n g1,
    stack s = (depth, size) :: rest /\
    terminal_condition rest depth size rt ps b dt dv (gen s) = Ok (true, g1) /\
    node_arity n = 0%nat /\
    program s' = program s ++ [n] /\
    stack s' = carry_forward rest size.

(** A function is appended and one obligation per argument is pushed. *)
Definition function_step (s s' : state) : Prop :=
  exists depth size rest f g1,
    stack s = (depth, size) :: rest /\
    terminal_condition rest depth size rt ps b dt dv (gen s) = Ok (false, g1) /\
    In f (primitives ps rt) /\
    size + Z.pos (arity f) <= max_size b /\
    program s' = program s ++ [NPrimitive f] /\
    stack s' = repeat (depth + 1, size + Z.pos (arity f))
                      (Pos.to_nat (arity f)) ++ rest.

End StepKinds.

(** The size field of the obligation about to be popped counts the nodes
    already appended plus the obligations still pending. *)
Definition size_inv (s : state) : Prop :=
  forall depth size rest,
    stack s = (depth, size) :: rest ->
    size = Z.of_nat (List.length (program s) + List.length (stack s)).

(** States the loop can be in. *)
Inductive reachable (ps : PrimitiveSet) (b : bounds) (dt : trait)
    (rt : pytype) (dv : Z) (g0 : rng) : state -> Prop :=
| reach_init : reachable ps b dt rt dv g0 (initial_state g0)
| reach_step (s s' : state) :
    reachable ps b dt rt dv g0 s ->
    loop_body ps b dt rt dv s = Continue s' ->
    reachable ps b dt rt dv g0 s'.

(** The program so far and the pending obligations, seen through DEAP's
    height walk: the walk over the program leaves exactly the pending
    depths, nothing is deeper than [max_depth], and the nodes appended
    plus the obligations pending stay within [max_size]. *)
Definition shape_inv (b : bounds) (s : state) : Prop :=
  size_inv s /\
  Z.of_nat (List.length (program s) + List.length (stack s)) <= max_size b /\
  (1 <= List.length (program s) + List.length (stack s))%nat /\
  exists m,
    height_scan (program s) [0] 0 = Some (map fst (stack s), m) /\
    0 <= m <= max_depth b /\
    Forall (fun d => d <= max_depth b) (map fst (stack s)).

(** ** Runs from interchangeable generator states *)

(** Two generator states are interchangeable when they stand at the same
    position of streams that hold the same draws. *)
Definition rng_eq (g1 g2 : rng) : Prop :=
  pos g1 = pos g2 /\ forall i, stream g1 i = stream g2 i.

Definition res_eq {A : Type} (r1 r2 : result (A * rng)) : Prop :=
  match r1, r2 with
  | Ok (a1, g1), Ok (a2, g2) => a1 = a2 /\ rng_eq g1 g2
  | Raise e1, Raise e2 => e1 = e2
  | _, _ => False
  end.

(** A computation that sees the generator only through its draws. *)
Definition respects {A : Type} (c : M A) : Prop :=
  forall g1 g2, rng_eq g1 g2 -> res_eq (c g1) (c g2).

Definition state_eq (s1 s2 : state) : Prop :=
  program s1 = program s2 /\ stack s1 = stack s2 /\ rng_eq (gen s1) (gen s2).

Definition step_eq (r1 r2 : step_result) : Prop :=
  match r1, r2 with
  | Continue s1, Continue s2 => state_eq s1 s2
  | Done o1 g1, Done o2 g2 => o1 = o2 /\ rng_eq g1 g2
  | _, _ => False
  end.

Definition run_eq (r1 r2 : option (outcome * rng)) : Prop :=
  match r1, r2 with
  | Some (o1, g1), Some (o2, g2) => o1 = o2 /\ rng_eq g1 g2
  | None, None => True
  | _, _ => False
  end.

(** [consumes lo hi c]: a run of [c] that returns has read the stream
    sequentially, between [lo] and [hi] draws from the current position. *)
Definition consumes {A : Type} (lo hi : nat) (c : M A) : Prop :=
  forall g a g', c g = Ok (a, g') ->
    stream g' = stream g /\ (pos g + lo <= pos g' <= pos g + hi)%nat.

(** ** Example primitive sets, random streams and states *)

Definition add : Primitive := mkPrimitive "add" 2.

Definition sin : Primitive := mkPrimitive "sin" 1.

(** One variable and the binary function [add]. *)
Definition pset_add : PrimitiveSet :=
  mkPrimitiveSet 0%nat (fun _ => [TerminalObj "v0"]) (fun _ => [add]) (1 # 2).

(** The same functions without any terminal. *)
Definition pset_no_terminal : PrimitiveSet :=
  mkPrimitiveSet 0%nat (fun _ => []) (fun _ => [add]) (1 # 2).

(** A set whose only terminal is an ephemeral constant class. *)
Definition pset_erc : PrimitiveSet :=
  mkPrimitiveSet 0%nat (fun _ => [EphemeralClass "erc" [1 # 2; 1 # 3]])
    (fun _ => [add]) (1 # 2).

(** The stream whose every raw draw is [k]. *)
Definition constant_rng (k : N) : rng := mkRng (fun _ => k) 0.


(** A stand-in for DEAP's rendering in the examples: the labels in prefix
    order. *)
Definition example_str (p : list node) : string :=
  String.concat " "
    (map (fun n => match n with
                   | NPrimitive f => pname f
                   | NTerminal name => name
                   | NConstant _ => "erc"%string
                   end) p).

(** ** More of the script: provenance of nodes, the constant pool, the report *)

(** [node_from ps rt n]: the node [n] was taken from the primitive set:
    a function of [primitives[ret_type]], a terminal object of
    [terminals[ret_type]], or a constant out of the pool of one of its
    ephemeral classes. *)
Definition node_from (ps : PrimitiveSet) (rt : pytype) (n : node) : Prop :=
  match n with
  | NPrimitive f => In f (primitives ps rt)
  | NTerminal name => In (TerminalObj name) (terminals ps rt)
  | NConstant value =>
      exists name consts,
        In (EphemeralClass name consts) (terminals ps rt) /\ In value consts
  end.

(** No ephemeral class of the set has an empty pool. *)
Definition pools_nonempty (ps : PrimitiveSet) (rt : pytype) : Prop :=
  forall name consts,
    In (EphemeralClass name consts) (terminals ps rt) -> consts <> [].

(** The largest arity the builder can pass to [get_max_size]: [1] when no
    function is valid, the largest arity of the set at most. *)
Definition arity_bound (ps : PrimitiveSet) (rt : pytype) : Z :=
  Z.max 1 (max_arity_of (primitives ps rt)).

(** Every pending obligation sits at a depth of [[0, max_depth]]. *)
Definition depth_inv (b : bounds) (s : state) : Prop :=
  Forall (fun o : obligation => 0 <= fst o <= max_depth b) (stack s).

(** [random.uniform(-1, 1)], that is [a + (b-a) * random()]: with the
    draw [k / 2^53] both operations are exact in binary64 and the value
    is [(k - 2^52) / 2^52]. *)
Definition uniform_m1_1 : M Q :=
  fun g => let '(r, g') := draw g in
           Ok (Qmake (r mod Float.two53 - Float.two52) (2 ^ 52), g').

(** The loop of [generate_primitive_set] that fills
    [ephemeral_constants]: [for i in range(num_constants):
    ephemeral_constants.append(random.uniform(-1,1))]. *)
Fixpoint fill_ephemeral_constants (n : nat) (acc : list Q) : M (list Q) :=
  match n with
  | O => ret_M acc
  | S n' =>
      c <~ uniform_m1_1 ;;
      fill_ephemeral_constants n' (acc ++ [c])
  end.

Definition make_ephemeral_constants (num_constants : Z) : M (list Q) :=
  fill_ephemeral_constants (Z.to_nat num_constants) [].

(** [l[0:n]] *)
Definition slice_to {A : Type} (n : Z) (l : list A) : list A :=
  if 0 <=? n then firstn (Z.to_nat n) l
  else firstn (Z.to_nat (Z.of_nat (List.length l) + n)) l.

(** [min(l)]: [ValueError] on an empty list. *)
Definition py_min (l : list Z) : result Z :=
  match l with
  | [] => Raise ValueError
  | x :: rest => Ok (fold_right Z.min x rest)
  end.

(** [num_programs = [len(programs) for programs,*_ in program_dict[name]]] *)
Definition num_programs (bins : list bin) : list Z :=
  map (fun d => Z.of_nat (List.length (programs d))) bins.

(** [all_bins_are_filled = True if (min(num_programs[0:num_size_bins]) ==
    num_programs_per_size_bin) else False] *)
Definition all_bins_are_filled (K : nat) (bins : list bin) (n : Z)
    : result bool :=
  m <- py_min (slice_to n (num_programs bins)) ;;
  Ok (m =? Z.of_nat K).

(** The lines written to [programs_deap.txt]: every program of every bin
    of [program_dict[name]], in order; [None] when the file is not
    written. *)
Definition programs_file (K : nat) (bins : list bin) (n : Z)
    : result (option (list string)) :=
  filled <- all_bins_are_filled K bins n ;;
  Ok (if filled then Some (concat (map programs bins)) else None).

(** The programs among the outcomes of the builder. *)
Fixpoint programs_of (os : list outcome) : list (list node) :=
  match os with
  | [] => []
  | Program p :: rest => p :: programs_of rest
  | _ :: rest => programs_of rest
  end.

(** [sum(l)] *)
Definition sum_list (l : list Z) : Z := fold_right Z.add 0 l.

(** The label of a node is one the counting loop can place. *)
Definition known_node (function_names variable_names : list string)
    (constant_names : list Q) (n : node) : Prop :=
  match n with
  | NPrimitive f =>
      In (pname f) function_names \/ In (pname f) variable_names
  | NTerminal name => In name function_names \/ In name variable_names
  | NConstant value => exists c, In c constant_names /\ Qeq c value
  end.

(** What a bin has recorded agrees with itself and with the maximums:
    one depth and one size per string, every size in [[1, max_size]],
    every depth at most [max_depth]. *)
Definition bin_within (b : bounds) (d : bin) : Prop :=
  List.length (depths d) = List.length (programs d) /\
  List.length (sizes d) = List.length (programs d) /\
  Forall (fun h => h <= max_depth b) (depths d) /\
  Forall (fun z => 1 <= z <= max_size b) (sizes d).

(** The three histograms of a bin count every node of every recorded
    program once. *)
Definition bin_counted (fn vn : list string) (cn : list Q) (d : bin) : Prop :=
  (function_counts d = [] \/
   List.length (function_counts d) = List.length fn) /\
  (variable_counts d = [] \/
   List.length (variable_counts d) = List.length vn) /\
  (constant_counts d = [] \/
   List.length (constant_counts d) = List.length cn) /\
  sum_list (function_counts d) + sum_list (variable_counts d)
  + sum_list (constant_counts d) = sum_list (sizes d).

(** ** The number of slots of [program_dict] and [primitive_trees] *)

(** One entry of [function_sets]: the function set with its arities,
    [max_depth] and [bin_size]. *)
Definition config : Type := (list (string * positive) * Z * Z)%type.

(** [max_arities = [max([arity for (_, arity) in function_set]) for _,
    (function_set, *_) in function_sets.items()]] *)
Fixpoint max_arities (sets : list config) : result (list Z) :=
  match sets with
  | [] => Ok []
  | (function_set, _, _) :: rest =>
      m <- max_arity_of_set function_set ;;
      ms <- max_arities rest ;;
      Ok (m :: ms)
  end.

(** [[int(math.ceil(get_max_size(max_arity, max_depth)/bin_size)) for
    (_, (_, max_depth, bin_size)), max_arity in
    zip(function_sets.items(), max_arities)]] *)
Fixpoint bins_of_sets (sets : list config) (arities : list Z)
    : result (list Z) :=
  match sets, arities with
  | (_, max_depth, bin_size) :: sets', max_arity :: arities' =>
      max_possible_size <- get_max_size max_arity max_depth ;;
      n <- num_size_bins max_possible_size bin_size ;;
      ns <- bins_of_sets sets' arities' ;;
      Ok (n :: ns)
  | _, _ => Ok []
  end.

(** [max(l)]: [ValueError] on an empty list. *)
Definition py_max (l : list Z) : result Z :=
  match l with
  | [] => Raise ValueError
  | x :: rest => Ok (fold_right Z.max x rest)
  end.

Definition max_num_size_bins (sets : list config) : result Z :=
  arities <- max_arities sets ;;
  ns <- bins_of_sets sets arities ;;
  py_max ns.

(** The three function sets of the script with their [max_depth] and
    [bin_size]. *)
Definition nicolau_a : list (string * positive) :=
  [("add"%string, 2%positive); ("sub"%string, 2%positive);
   ("mul"%string, 2%positive); ("aq"%string, 2%positive)].

Definition nicolau_b : list (string * positive) :=
  [("sin"%string, 1%positive); ("tanh"%string, 1%positive);
   ("add"%string, 2%positive); ("sub"%string, 2%positive);
   ("mul"%string, 2%positive); ("aq"%string, 2%positive)].

Definition nicolau_c : list (string * positive) :=
  [("exp"%string, 1%positive); ("log"%string, 1%positive);
   ("sqrt"%string, 1%positive); ("sin"%string, 1%positive);
   ("tanh"%string, 1%positive); ("add"%string, 2%positive);
   ("sub"%string, 2%positive); ("mul"%string, 2%positive);
   ("aq"%string, 2%positive)].

Definition function_sets : list config :=
  [(nicolau_a, 7, 2); (nicolau_b, 5, 1); (nicolau_c, 5, 1)].

(** * Properties *)

(** ** The values of the specification *)

Example get_max_size_1_4 : get_max_size 1 4 = Ok 5.
Proof. reflexivity. Qed.

Example get_max_size_2_3 : get_max_size 2 3 = Ok 15.
Proof. vm_compute. reflexivity. Qed.

Example get_max_size_3_2 : get_max_size 3 2 = Ok 13.
Proof. vm_compute. reflexivity. Qed.

(** ** The random primitives *)

Lemma draw_pos (g : rng) : pos (snd (draw g)) = S (pos g).
Proof. reflexivity. Qed.

Lemma draw_stream (g : rng) : stream (snd (draw g)) = stream g.
Proof. reflexivity. Qed.

Lemma choice_In {A : Type} (l : list A) (g g' : rng) (x : A) :
  choice l g = Ok (x, g') -> In x l /\ g' = snd (draw g).
Proof.
  unfold choice. destruct l as [|a l]; [discriminate|].
  remember (a :: l) as l0 eqn:El0.
  unfold draw; cbv beta iota zeta.
  intros H. injection H as <- <-. split; [|reflexivity].
  apply nth_In. subst l0.
  assert (Hlen : 0 < Z.of_nat (List.length (a :: l))) by (cbn; lia).
  pose proof (Z.mod_pos_bound (Z.of_N (stream g (pos g))) _ Hlen). lia.
Qed.

Lemma randint_range (a c : Z) (g g' : rng) (v : Z) :
  randint a c g = Ok (v, g') -> a <= v <= c /\ g' = snd (draw g).
Proof.
  unfold randint. destruct (c <? a) eqn:E; [discriminate|].
  apply Z.ltb_ge in E. cbn. intros H. injection H as <- <-.
  split; [|reflexivity].
  pose proof (Z.mod_pos_bound (Z.of_N (stream g (pos g))) (c - a + 1)). lia.
Qed.

Lemma randint_ok (a c : Z) (g : rng) :
  a <= c -> exists v, randint a c g = Ok (v, snd (draw g)).
Proof.
  intros H. unfold randint.
  destruct (c <? a) eqn:E; [apply Z.ltb_lt in E; lia|].
  cbn. eauto.
Qed.

Lemma materialize_leaf (t : Terminal) (g g' : rng) (n : node) :
  materialize t g = Ok (n, g') -> node_arity n = 0%nat.
Proof.
  destruct t as [name|name consts]; cbn.
  - intros H. injection H as <- _. reflexivity.
  - unfold bind_M. destruct (randint _ _ g) as [[i g1]|e]; [|discriminate].
    cbn. intros H. injection H as <- _. reflexivity.
Qed.

(** ** The functions a step may choose *)

Lemma valid_functions_of_In (ps : PrimitiveSet) (ty : pytype) (size mx : Z)
    (f : Primitive) :
  In f (valid_functions_of ps ty size mx) <->
  In f (primitives ps ty) /\ size + Z.pos (arity f) <= mx.
Proof.
  unfold valid_functions_of. rewrite filter_In, Z.leb_le. reflexivity.
Qed.

Lemma size_feasible_incl (fs : list Primitive) (stk : list obligation)
    (depth size ma : Z) (b : bounds) (dv : Z) (out : list Primitive) :
  size_feasible fs stk depth size ma b dv = Ok out -> incl out fs.
Proof.
  revert out. induction fs as [|f fs IH]; cbn; intros out H.
  - injection H as <-. apply incl_refl.
  - destruct (get_max_size _ _) as [v|e]; [cbn in H|discriminate].
    destruct (if is_nil stk then _ else _) as [total|e]; [cbn in H|discriminate].
    destruct (size_feasible fs stk depth size ma b dv) as [temp|e];
      [cbn in H|discriminate].
    specialize (IH temp eq_refl). injection H as <-.
    destruct (dv <=? total).
    + intros x [<-|Hx]; [left; reflexivity|right; apply IH, Hx].
    + apply incl_tl, IH.
Qed.

(** ** One iteration of the loop, case by case *)

Section Steps.

Variable ps : PrimitiveSet.
Variable b : bounds.
Variable dt : trait.
Variable rt : pytype.
Variable dv : Z.

Lemma loop_body_Continue (s s' : state) :
  loop_body ps b dt rt dv s = Continue s' ->
  terminal_step ps b dt rt dv s s' \/ function_step ps b dt rt dv s s'.
Proof.
  unfold loop_body.
  destruct (stack s) as [|[depth size] rest] eqn:Hstk; [discriminate|].
  destruct (terminal_condition _ _ _ _ _ _ _ _ _) as [[[|] g1]|e] eqn:Htc;
    [| |discriminate].
  - (* terminal *)
    destruct (terminal_branch _ _ _ _ _ _) as [[[prog' stack'] g2]|e] eqn:Hb;
      [|discriminate].
    intros H. injection H as <-. left.
    unfold terminal_branch, bind_M in Hb.
    destruct (choice _ g1) as [[t g3]|e]; [|discriminate].
    destruct (materialize t g3) as [[n g4]|e] eqn:Hm; [|discriminate].
    cbn in Hb. injection Hb as <- <- <-.
    exists depth, size, rest, n, g1. cbn.
    repeat split; try reflexivity; try assumption.
    eapply materialize_leaf, Hm.
  - (* function *)
    destruct (function_branch _ _ _ _ _ _ _ _ _) as [[[[prog' stack']|] g2]|e]
      eqn:Hb; try discriminate.
    intros H. injection H as <-. right.
    unfold function_branch, bind_M, lift in Hb.
    destruct (feasible_functions _ _ _ _ _ _ _ _) as [vf|e] eqn:Hvf;
      [|discriminate].
    unfold feasible_functions in Hvf.
    destruct (is_nil vf) eqn:Hnil; [discriminate|].
    destruct (choice vf g1) as [[f g3]|e] eqn:Hc; [|discriminate].
    cbn in Hb. injection Hb as <- <- <-.
    apply choice_In in Hc. destruct Hc as [Hin _].
    assert (Hvalid : In f (valid_functions_of ps rt size (max_size b))).
    { destruct (negb _ && _).
      - eapply size_feasible_incl; eassumption.
      - injection Hvf as <-. assumption. }
    apply valid_functions_of_In in Hvalid. destruct Hvalid as [Hp Hsz].
    exists depth, size, rest, f, g1. cbn.
    repeat split; try reflexivity; assumption.
Qed.

End Steps.

(** ** What [terminal_condition] answers *)

Lemma terminal_condition_true (stk : list obligation) (depth size : Z)
    (rt : pytype) (ps : PrimitiveSet) (b : bounds) (dt : trait) (dv : Z)
    (g g1 : rng) :
  terminal_condition stk depth size rt ps b dt dv g = Ok (true, g1) ->
  terminals ps rt <> [].
Proof.
  unfold terminal_condition, bind_M, lift.
  destruct (if is_nil stk then _ else _) as [mps|e]; [|discriminate].
  destruct (terminals ps rt); [|discriminate].
  cbn. discriminate.
Qed.

Lemma terminal_condition_false (stk : list obligation) (depth size : Z)
    (rt : pytype) (ps : PrimitiveSet) (b : bounds) (dt : trait) (dv : Z)
    (g g1 : rng) :
  terminals ps rt <> [] ->
  terminal_condition stk depth size rt ps b dt dv g = Ok (false, g1) ->
  depth <> max_depth b /\ size <> max_size b.
Proof.
  intros Hne. unfold terminal_condition, bind_M, lift.
  destruct (if is_nil stk then _ else _) as [mps|e]; [|discriminate].
  destruct (terminals ps rt); [contradiction|].
  cbn [is_nil].
  destruct (is_nil (valid_functions_of ps rt size (max_size b))); cbn [orb].
  - discriminate.
  - destruct (depth =? max_depth b) eqn:Ed; cbn [orb]; [discriminate|].
    destruct (size =? max_size b) eqn:Es; cbn [orb]; [discriminate|].
    intros _. apply Z.eqb_neq in Ed, Es. split; assumption.
Qed.

(** ** The running size (carry-forward) *)

Lemma size_inv_initial (g : rng) : size_inv (initial_state g).
Proof.
  intros depth size rest H. cbn in H. injection H as _ <- _. reflexivity.
Qed.

Lemma size_inv_step (ps : PrimitiveSet) (b : bounds) (dt : trait)
    (rt : pytype) (dv : Z) (s s' : state) :
  size_inv s ->
  loop_body ps b dt rt dv s = Continue s' ->
  size_inv s'.
Proof.
  intros Hinv Hstep.
  apply loop_body_Continue in Hstep.
  destruct Hstep as [(depth & size & rest & n & g1 & Hs & _ & _ & Hp & Hs')
                    |(depth & size & rest & f & g1 & Hs & _ & _ & _ & Hp & Hs')].
  - (* terminal: the next obligation takes [size] *)
    specialize (Hinv _ _ _ Hs). rewrite Hs in Hinv.
    cbn [List.length] in Hinv.
    intros d' sz' rest' H'. rewrite Hs' in H'. rewrite Hp, Hs'.
    destruct rest as [|[d2 sz2] rest2]; cbn in H'; [discriminate|].
    injection H' as _ <- _.
    rewrite length_app. cbn [List.length carry_forward] in *.
    unfold obligation in *. lia.
  - (* function: [arity] obligations replace the popped one *)
    specialize (Hinv _ _ _ Hs). rewrite Hs in Hinv.
    cbn [List.length] in Hinv.
    intros d' sz' rest' H'. rewrite Hp, Hs'. rewrite Hs' in H'.
    rewrite !length_app, repeat_length. cbn [List.length].
    destruct (Pos.to_nat (arity f)) as [|k] eqn:Ek;
      [pose proof (Pos2Nat.is_pos (arity f)); lia|].
    cbn [repeat app] in H'. injection H' as _ <- _.
    assert (Z.pos (arity f) = Z.of_nat (S k))
      by (rewrite <- Ek, positive_nat_Z; reflexivity).
    unfold obligation in *. lia.
Qed.


(** ** Termination of the loop *)

Lemma measure_decreases (ps : PrimitiveSet) (b : bounds) (dt : trait)
    (rt : pytype) (dv : Z) (s s' : state) :
  loop_body ps b dt rt dv s = Continue s' ->
  (measure b s' < measure b s)%nat.
Proof.
  intros Hstep. apply loop_body_Continue in Hstep.
  unfold measure.
  destruct Hstep as [(depth & size & rest & n & g1 & Hs & _ & _ & _ & Hs')
                    |(depth & size & rest & f & g1 & Hs & _ & _ & Hsz & _ & Hs')];
    rewrite Hs, Hs'.
  - destruct rest as [|[d2 sz2] rest2]; cbn [carry_forward List.length]; lia.
  - destruct (Pos.to_nat (arity f)) as [|k] eqn:Ek;
      [pose proof (Pos2Nat.is_pos (arity f)); lia|].
    cbn [repeat app List.length]. rewrite length_app, repeat_length.
    assert (Z.pos (arity f) = Z.of_nat (S k))
      by (rewrite <- Ek, positive_nat_Z; reflexivity).
    unfold obligation in *. lia.
Qed.

Lemma loop_enough_fuel (ps : PrimitiveSet) (b : bounds) (dt : trait)
    (rt : pytype) (dv : Z) (fuel : nat) (s : state) :
  (measure b s <= fuel)%nat ->
  exists o g, loop ps b dt rt dv fuel s = Some (o, g).
Proof.
  revert s. induction fuel as [|fuel IH]; intros s Hm.
  - cbn. destruct (loop_body ps b dt rt dv s) as [s'|o g] eqn:Hb.
    + apply measure_decreases in Hb. lia.
    + eauto.
  - cbn. destruct (loop_body ps b dt rt dv s) as [s'|o g] eqn:Hb.
    + apply IH. apply measure_decreases in Hb. lia.
    + eauto.
Qed.

(** More fuel does not change what the loop ends with. *)
Lemma loop_fuel_mono (ps : PrimitiveSet) (b : bounds) (dt : trait)
    (rt : pytype) (dv : Z) (fuel fuel' : nat) (s : state) (r : outcome * rng) :
  (fuel <= fuel')%nat ->
  loop ps b dt rt dv fuel s = Some r ->
  loop ps b dt rt dv fuel' s = Some r.
Proof.
  revert fuel' s. induction fuel as [|fuel IH]; intros fuel' s Hle H.
  - destruct fuel'; cbn in *;
      destruct (loop_body ps b dt rt dv s); try discriminate; assumption.
  - destruct fuel' as [|fuel']; [lia|]. cbn in *.
    destruct (loop_body ps b dt rt dv s); [|assumption].
    apply IH; [lia|assumption].
Qed.

(** ** Prefix lists and forests *)

Lemma forest_app (bound d : Z) (k1 k2 : nat) (l1 l2 : list node) :
  forest bound d k1 l1 -> forest bound d k2 l2 ->
  forest bound d (k1 + k2) (l1 ++ l2).
Proof.
  induction 1 as [d|d n a c k Hd Ha _ Hc IH]; intros H2.
  - exact H2.
  - cbn. rewrite <- app_assoc. constructor; auto.
Qed.

Lemma stack_forest_split (bound : Z) (s1 s2 : list Z) (l : list node) :
  stack_forest bound (s1 ++ s2) l ->
  exists l1 l2, l = l1 ++ l2 /\
                stack_forest bound s1 l1 /\ stack_forest bound s2 l2.
Proof.
  revert l. induction s1 as [|d s1 IH]; intros l H.
  - exists [], l. repeat split; [constructor|exact H].
  - cbn in H. inversion H as [|d' stk a c Ha Hc]; subst.
    destruct (IH _ Hc) as (c1 & c2 & -> & H1 & H2).
    exists (a ++ c1), c2. rewrite app_assoc.
    repeat split; [constructor|]; assumption.
Qed.

Lemma stack_forest_repeat (bound d : Z) (k : nat) (l : list node) :
  stack_forest bound (repeat d k) l -> forest bound d k l.
Proof.
  revert l. induction k as [|k IH]; intros l H; cbn in H.
  - inversion H. constructor.
  - inversion H as [|d' stk a c Ha Hc]; subst.
    apply (forest_app bound d 1 k); [assumption|apply IH, Hc].
Qed.

Lemma height_scan_max (l : list node) (stk : list Z) (m : Z)
    (stk' : list Z) (m' : Z) :
  height_scan l stk m = Some (stk', m') -> m <= m'.
Proof.
  revert stk m. induction l as [|n l IH]; intros stk m H; cbn in H.
  - injection H as _ <-. lia.
  - destruct stk as [|d rest]; [discriminate|].
    apply IH in H. lia.
Qed.

(** A walk that ends with the stack empty has read one complete tree per
    depth it started with. *)
Lemma height_scan_forest (bound : Z) (l : list node) (stk : list Z)
    (m m' : Z) :
  height_scan l stk m = Some ([], m') -> m' <= bound ->
  stack_forest bound stk l.
Proof.
  revert stk m. induction l as [|n l IH]; intros stk m H Hb; cbn in H.
  - injection H as -> _. constructor.
  - destruct stk as [|d rest]; [discriminate|].
    pose proof (height_scan_max _ _ _ _ _ H) as Hmax.
    specialize (IH _ _ H Hb).
    apply stack_forest_split in IH. destruct IH as (l1 & l2 & -> & H1 & H2).
    apply stack_forest_repeat in H1.
    change (n :: l1 ++ l2) with ((n :: l1) ++ l2).
    constructor; [|assumption].
    rewrite <- (app_nil_r l1). constructor; [lia|assumption|constructor].
Qed.

Lemma height_scan_snoc (l : list node) (n : node) (stk : list Z) (m : Z) :
  height_scan (l ++ [n]) stk m =
  match height_scan l stk m with
  | Some (d :: rest, m') =>
      Some (repeat (d + 1) (node_arity n) ++ rest, Z.max m' d)
  | _ => None
  end.
Proof.
  revert stk m. induction l as [|x l IH]; intros stk m; cbn.
  - destruct stk; reflexivity.
  - destruct stk as [|d rest]; [reflexivity|]. apply IH.
Qed.

(** ** The loop invariant behind the upper bounds *)

Lemma map_fst_repeat (d sz : Z) (k : nat) :
  map fst (repeat (d, sz) k) = repeat d k.
Proof. induction k as [|k IH]; cbn; [|rewrite IH]; reflexivity. Qed.

(** A generic invariant rule for [loop]. *)
Lemma loop_invariant (ps : PrimitiveSet) (b : bounds) (dt : trait)
    (rt : pytype) (dv : Z) (P : state -> Prop) :
  (forall s s', P s -> loop_body ps b dt rt dv s = Continue s' -> P s') ->
  forall fuel s o g,
    P s -> loop ps b dt rt dv fuel s = Some (o, g) ->
    exists s_end, P s_end /\ loop_body ps b dt rt dv s_end = Done o g.
Proof.
  intros Hpres fuel. induction fuel as [|fuel IH]; intros s o g HP H; cbn in H.
  - destruct (loop_body ps b dt rt dv s) as [s'|o' g'] eqn:Hb; [discriminate|].
    injection H as <- <-. eauto.
  - destruct (loop_body ps b dt rt dv s) as [s'|o' g'] eqn:Hb.
    + eapply IH; [eapply Hpres; eassumption|assumption].
    + injection H as <- <-. eauto.
Qed.

Lemma loop_body_Program (ps : PrimitiveSet) (b : bounds) (dt : trait)
    (rt : pytype) (dv : Z) (s : state) (p : list node) (g : rng) :
  loop_body ps b dt rt dv s = Done (Program p) g ->
  stack s = [] /\ p = program s.
Proof.
  unfold loop_body.
  destruct (stack s) as [|[depth size] rest].
  - intros H. injection H as <- _. split; reflexivity.
  - destruct (terminal_condition _ _ _ _ _ _ _ _ _) as [[[|] g1]|e];
      [| |discriminate].
    + destruct (terminal_branch _ _ _ _ _ _) as [[[prog' stack'] g2]|e];
        discriminate.
    + destruct (function_branch _ _ _ _ _ _ _ _ _) as [[[[prog' stack']|] g2]|e];
        discriminate.
Qed.

Lemma shape_inv_initial (b : bounds) (g : rng) :
  0 <= max_depth b -> 1 <= max_size b -> shape_inv b (initial_state g).
Proof.
  intros Hd Hs. split; [apply size_inv_initial|].
  split; [cbn; lia|]. split; [cbn; lia|].
  exists 0. cbn. repeat split; try lia.
  constructor; [assumption|constructor].
Qed.

Lemma shape_inv_step (ps : PrimitiveSet) (b : bounds) (dt : trait)
    (rt : pytype) (dv : Z) (s s' : state) :
  terminals ps rt <> [] ->
  shape_inv b s ->
  loop_body ps b dt rt dv s = Continue s' ->
  shape_inv b s'.
Proof.
  intros Hterm (Hsz & Htot & Hpos & m & Hscan & Hm & Hall) Hstep.
  split; [eapply size_inv_step; eassumption|].
  apply loop_body_Continue in Hstep.
  destruct Hstep as [(depth & size & rest & n & g1 & Hs & _ & Hn & Hp & Hs')
                    |(depth & size & rest & f & g1 & Hs & Htc & _ & Hle & Hp & Hs')].
  - (* terminal *)
    rewrite Hs in Htot, Hpos, Hscan, Hall. cbn [map fst List.length] in *.
    assert (Hst : map fst (stack s') = map fst rest).
    { rewrite Hs'. destruct rest as [|[d2 s2] r2]; reflexivity. }
    assert (Hlen : List.length (stack s') = List.length rest).
    { rewrite Hs'. destruct rest as [|[d2 s2] r2]; reflexivity. }
    rewrite Hp, Hlen, length_app. cbn [List.length].
    split; [unfold obligation in *; lia|].
    split; [lia|].
    exists (Z.max m depth). rewrite height_scan_snoc, Hscan, Hn, Hst. cbn.
    apply Forall_cons_iff in Hall. destruct Hall as [Hx Hxs].
    repeat split; try lia. assumption.
  - (* function *)
    pose proof (Hsz _ _ _ Hs) as Hsize.
    apply (terminal_condition_false _ _ _ _ _ _ _ _ _ _ Hterm) in Htc.
    destruct Htc as [Hdepth _].
    rewrite Hs in Htot, Hpos, Hscan, Hall, Hsize.
    cbn [map fst List.length] in *.
    apply Forall_cons_iff in Hall. destruct Hall as [Hx Hxs].
    rewrite Hp, Hs', !length_app, repeat_length, map_app.
    cbn [List.length].
    pose proof (Pos2Nat.is_pos (arity f)) as Hap.
    pose proof (positive_nat_Z (arity f)) as Haz.
    split; [unfold obligation in *; lia|].
    split; [lia|].
    exists (Z.max m depth). rewrite height_scan_snoc, Hscan. cbn [node_arity].
    rewrite map_fst_repeat. repeat split; try lia.
    apply Forall_app. split; [|assumption].
    apply Forall_forall. intros d Hd. apply repeat_spec in Hd. lia.
Qed.

(** ** Upper bounds of every returned program *)

Lemma generate_program_inv (ps : PrimitiveSet) (b : bounds) (dt : trait)
    (rt : option pytype) (g g' : rng) (o : outcome) (P : state -> Prop) :
  (forall g1, P (initial_state g1)) ->
  (forall dv s s', P s ->
     loop_body ps b dt (resolve_ret_type ps rt) dv s = Continue s' -> P s') ->
  generate_program_ ps b dt rt g = Some (o, g') ->
  (exists e, o = Raised e /\ g' = g /\ draw_desired_value b dt g = Raise e) \/
  (exists dv g1 s_end,
     draw_desired_value b dt g = Ok (dv, g1) /\ P s_end /\
     loop_body ps b dt (resolve_ret_type ps rt) dv s_end = Done o g').
Proof.
  intros Hinit Hpres. unfold generate_program_.
  destruct (draw_desired_value b dt g) as [[dv g1]|e].
  - intros H. right.
    destruct (loop_invariant ps b dt (resolve_ret_type ps rt) dv P
                (Hpres dv) _ _ _ _ (Hinit g1) H) as (s_end & HP & Hend).
    exists dv, g1, s_end. auto.
  - intros H. injection H as <- <-. left. eauto.
Qed.

(** C1 (amended): for a primitive set with at least one terminal of the
    return type and bounds [0 <= min_depth <= max_depth],
    [1 <= min_size <= max_size], every program [generate_grow] returns is
    a complete tree, its node count is at least [1] and at most
    [max_size], and its depth (as [PrimitiveTree.height] recomputes it)
    is at least [0] and at most [max_depth].  The lower bounds
    [min_size] and [min_depth] are not part of the guarantee. *)
Theorem generate_grow_upper_bounds (ps : PrimitiveSet) (b : bounds)
    (dt : trait) (rt : option pytype) (g g' : rng) (p : list node) :
  terminals ps (resolve_ret_type ps rt) <> [] ->
  0 <= min_depth b <= max_depth b ->
  1 <= min_size b <= max_size b ->
  generate_grow ps b dt rt g = Some (Program p, g') ->
  complete_tree (max_depth b) p /\
  1 <= program_size p <= max_size b /\
  exists h, height p = Some h /\ 0 <= h <= max_depth b.
Proof.
  intros Hterm Hd Hs Hrun. unfold generate_grow in Hrun.
  apply (generate_program_inv ps b dt rt g g' _ (shape_inv b)) in Hrun.
  - destruct Hrun as [(e & He & _)|(dv & g1 & s_end & _ & Hinv & Hend)];
      [discriminate|].
    apply loop_body_Program in Hend. destruct Hend as [Hstk ->].
    destruct Hinv as (_ & Htot & Hpos & m & Hscan & Hm & _).
    rewrite Hstk in Htot, Hpos, Hscan. cbn [List.length map] in *.
    rewrite Nat.add_0_r in Htot, Hpos.
    split; [|split].
    + unfold complete_tree.
      apply (height_scan_forest (max_depth b)) in Hscan; [|lia].
      inversion Hscan as [|d stk l1 l2 H1 H2]; subst.
      inversion H2; subst. rewrite app_nil_r. assumption.
    + unfold program_size. lia.
    + exists m. unfold height. rewrite Hscan. split; [reflexivity|lia].
  - intros g1. apply shape_inv_initial; lia.
  - intros dv s s'. apply shape_inv_step. assumption.
Qed.

Lemma generate_grow_upper_bounds_witness :
  complete_tree 3 [NPrimitive add; NTerminal "v0"; NTerminal "v0"] /\
  1 <= program_size [NPrimitive add; NTerminal "v0"; NTerminal "v0"] <= 4 /\
  exists h, height [NPrimitive add; NTerminal "v0"; NTerminal "v0"] = Some h /\
            0 <= h <= 3.
Proof.
  apply (generate_grow_upper_bounds pset_add (mkBounds 0 3 4 4) BySize None
           (constant_rng 3) (mkRng (fun _ => 3%N) 4)).
  - cbn. discriminate.
  - cbn. lia.
  - cbn. lia.
  - vm_compute. reflexivity.
Defined.

(** C1 (as stated) fails: with [min_depth = 1] and sizes [[1, 2]] the
    builder returns a single terminal, of depth [0]; with
    [min_size = max_size = 4] and only binary functions it returns the
    three-node tree [add(v0, v0)]. *)
Lemma generate_grow_below_minimum :
  (exists g',
     generate_grow pset_add (mkBounds 1 3 1 2) BySize None (constant_rng 0)
       = Some (Program [NTerminal "v0"], g') /\
     height [NTerminal "v0"] = Some 0 /\
     0 < min_depth (mkBounds 1 3 1 2)) /\
  (exists g',
     generate_grow pset_add (mkBounds 0 3 4 4) BySize None (constant_rng 3)
       = Some (Program [NPrimitive add; NTerminal "v0"; NTerminal "v0"], g') /\
     program_size [NPrimitive add; NTerminal "v0"; NTerminal "v0"]
       < min_size (mkBounds 0 3 4 4)).
Proof.
  split.
  - eexists. split; [vm_compute; reflexivity|]. split; [reflexivity|cbn; lia].
  - eexists. split; [vm_compute; reflexivity|]. cbn. lia.
Qed.

(** ** Carry-forward: the popped size is the running size *)





(** ** Termination *)

(** X24: for every primitive set, every bounds and every random stream
    the loop of [generate_program_] ends: the call ends with a program,
    with [None] or with an exception, within the iteration budget
    [measure] of the initial state.  Every iteration that continues
    lowers [measure]; a function is chosen only when
    [size + arity <= max_size], and the obligations it pushes carry the
    strictly larger size [size + arity]. *)
Theorem generate_program_terminates (ps : PrimitiveSet) (b : bounds)
    (dt : trait) (rt : option pytype) (g : rng) :
  (exists o g', generate_program_ ps b dt rt g = Some (o, g')) /\
  (forall dv s s',
     loop_body ps b dt (resolve_ret_type ps rt) dv s = Continue s' ->
     (measure b s' < measure b s)%nat) /\
  (forall dv s s' depth size rest f,
     stack s = (depth, size) :: rest ->
     loop_body ps b dt (resolve_ret_type ps rt) dv s = Continue s' ->
     program s' = program s ++ [NPrimitive f] ->
     size < size + Z.pos (arity f) <= max_size b /\
     stack s' = repeat (depth + 1, size + Z.pos (arity f))
                       (Pos.to_nat (arity f)) ++ rest).
Proof.
  split; [|split].
  - unfold generate_program_.
    destruct (draw_desired_value b dt g) as [[dv g1]|e]; [|eauto].
    apply loop_enough_fuel. apply Nat.le_refl.
  - intros dv s s'. apply measure_decreases.
  - intros dv s s' depth size rest f Hs Hstep Hp.
    apply loop_body_Continue in Hstep.
    destruct Hstep as [(d0 & s0 & r0 & n & g0 & Hs0 & _ & Hn & Hp0 & _)
                      |(d0 & s0 & r0 & f0 & g0 & Hs0 & _ & _ & Hle & Hp0 & Hs')];
      rewrite Hs in Hs0; injection Hs0 as <- <- <-;
      rewrite Hp in Hp0; apply app_inj_tail in Hp0; destruct Hp0 as [_ Hf].
    + subst n. cbn in Hn. pose proof (Pos2Nat.is_pos (arity f)). lia.
    + injection Hf as <-. split; [lia|assumption].
Qed.

(** C10 (code at the failing input): with bounds [min_depth = 0 <=
    max_depth = 1100] and [min_size = 1 <= max_size = 3] under size
    targeting, the first function choice evaluates
    [get_max_size(2, 1099)], whose float division raises
    [OverflowError]: the call returns neither a program nor [None]. *)
Lemma generate_program_raises_overflow :
  min_depth (mkBounds 0 1100 1 3) <= max_depth (mkBounds 0 1100 1 3) /\
  min_size (mkBounds 0 1100 1 3) <= max_size (mkBounds 0 1100 1 3) /\
  generate_program_ pset_add (mkBounds 0 1100 1 3) BySize None (constant_rng 2)
    = Some (Raised OverflowError, mkRng (fun _ => 2%N) 1).
Proof.
  split; [cbn; lia|]. split; [cbn; lia|]. vm_compute. reflexivity.
Qed.

(** ** Infeasible construction *)

Lemma filter_none {A : Type} (f : A -> bool) (l : list A) :
  (forall x, In x l -> f x = false) -> filter f l = [].
Proof.
  induction l as [|a l IH]; intros H; cbn; [reflexivity|].
  rewrite (H a (or_introl eq_refl)). apply IH.
  intros x Hx. apply H. right. assumption.
Qed.

Lemma loop_body_infeasible (ps : PrimitiveSet) (b : bounds) (dt : trait)
    (rt : pytype) (dv : Z) (s : state) (depth size : Z)
    (rest : list obligation) (g1 : rng) :
  stack s = (depth, size) :: rest ->
  terminal_condition rest depth size rt ps b dt dv (gen s) = Ok (false, g1) ->
  feasible_functions ps b dt rt dv rest depth size = Ok [] ->
  loop_body ps b dt rt dv s = Done Infeasible g1.
Proof.
  intros Hs Htc Hfe. unfold loop_body. rewrite Hs, Htc.
  unfold function_branch, bind_M, lift. rewrite Hfe. reflexivity.
Qed.

(** What the loop ends with from a reachable state is what it ends with
    from the initial state. *)
Lemma reachable_loop (ps : PrimitiveSet) (b : bounds) (dt : trait)
    (rt : pytype) (dv : Z) (g0 : rng) (s : state) (r : outcome * rng) :
  reachable ps b dt rt dv g0 s ->
  forall fuel, loop ps b dt rt dv fuel s = Some r ->
  exists fuel', loop ps b dt rt dv fuel' (initial_state g0) = Some r.
Proof.
  induction 1 as [|s s' _ IH Hstep]; intros fuel H.
  - eauto.
  - apply (IH (S fuel)). cbn. rewrite Hstep. assumption.
Qed.

Lemma generate_program_reachable (ps : PrimitiveSet) (b : bounds)
    (dt : trait) (rt : option pytype) (g g0 : rng) (dv : Z) (s : state)
    (o : outcome) (g' : rng) :
  draw_desired_value b dt g = Ok (dv, g0) ->
  reachable ps b dt (resolve_ret_type ps rt) dv g0 s ->
  loop_body ps b dt (resolve_ret_type ps rt) dv s = Done o g' ->
  generate_program_ ps b dt rt g = Some (o, g').
Proof.
  intros Hdraw Hreach Hend. unfold generate_program_. rewrite Hdraw.
  assert (Hs : loop ps b dt (resolve_ret_type ps rt) dv 0 s = Some (o, g'))
    by (cbn; rewrite Hend; reflexivity).
  destruct (reachable_loop _ _ _ _ _ _ _ _ Hreach 0%nat Hs) as [fuel' Hf].
  destruct (loop_enough_fuel ps b dt (resolve_ret_type ps rt) dv
              (measure b (initial_state g0)) (initial_state g0)
              (Nat.le_refl _)) as (o1 & g1 & H1).
  rewrite H1.
  pose proof (loop_fuel_mono _ _ _ _ _ _ _ _ _
                (Nat.le_max_l fuel' (measure b (initial_state g0))) Hf) as Ha.
  pose proof (loop_fuel_mono _ _ _ _ _ _ _ _ _
                (Nat.le_max_r fuel' (measure b (initial_state g0))) H1) as Hb.
  rewrite Ha in Hb. symmetry. assumption.
Qed.

(** C4: when a step of a [generate_grow] run needs a function
    ([terminal_condition] answers no) and no function is feasible, the
    call returns [None]: no exception, no program.  In particular, for
    bounds the draw of [desired_value] accepts, a set without terminals
    of the return type whose functions all have [arity > max_size] always
    gives [None]. *)
Theorem infeasible_returns_None (ps : PrimitiveSet) (b : bounds)
    (dt : trait) (rt : option pytype) (g : rng) :
  (forall dv g0 s depth size rest g1,
     draw_desired_value b dt g = Ok (dv, g0) ->
     reachable ps b dt (resolve_ret_type ps rt) dv g0 s ->
     stack s = (depth, size) :: rest ->
     terminal_condition rest depth size (resolve_ret_type ps rt) ps b dt dv
       (gen s) = Ok (false, g1) ->
     feasible_functions ps b dt (resolve_ret_type ps rt) dv rest depth size
       = Ok [] ->
     generate_grow ps b dt rt g = Some (Infeasible, g1)) /\
  (terminals ps (resolve_ret_type ps rt) = [] ->
   (forall f, In f (primitives ps (resolve_ret_type ps rt)) ->
              max_size b < Z.pos (arity f)) ->
   min_depth b <= max_depth b ->
   min_size b <= max_size b ->
   generate_grow ps b dt rt g = Some (Infeasible, snd (draw g))).
Proof.
  split.
  - intros dv g0 s depth size rest g1 Hdraw Hreach Hs Htc Hfe.
    unfold generate_grow.
    eapply generate_program_reachable; try eassumption.
    eapply loop_body_infeasible; eassumption.
  - intros Hterm Har Hd Hs. unfold generate_grow.
    assert (Hdraw : exists dv, draw_desired_value b dt g = Ok (dv, snd (draw g))).
    { unfold draw_desired_value. destruct (is_depth dt);
        apply randint_ok; assumption. }
    destruct Hdraw as [dv Hdraw].
    eapply generate_program_reachable;
      [exact Hdraw|apply reach_init|].
    assert (Hvf : valid_functions_of ps (resolve_ret_type ps rt) 1 (max_size b)
                  = []).
    { unfold valid_functions_of. apply filter_none.
      intros f Hf. apply Z.leb_gt. specialize (Har f Hf). lia. }
    eapply loop_body_infeasible; [reflexivity| |].
    + unfold terminal_condition, bind_M, lift. cbn [is_nil].
      rewrite Hterm. reflexivity.
    + unfold feasible_functions. rewrite Hvf. reflexivity.
Qed.

Lemma infeasible_returns_None_witness :
  generate_grow pset_no_terminal (mkBounds 0 3 1 1) BySize None
    (constant_rng 0)
  = Some (Infeasible, snd (draw (constant_rng 0))).
Proof.
  apply (infeasible_returns_None pset_no_terminal (mkBounds 0 3 1 1) BySize
           None (constant_rng 0)).
  - reflexivity.
  - intros f [<-|[]]. cbn. lia.
  - cbn. lia.
  - cbn. lia.
Defined.

(** ** What the builder does with a bad configuration *)

Lemma no_terminal_no_program (ps : PrimitiveSet) (b : bounds) (dt : trait)
    (rt : option pytype) (g g' : rng) (o : outcome) :
  terminals ps (resolve_ret_type ps rt) = [] ->
  generate_program_ ps b dt rt g = Some (o, g') ->
  forall p, o <> Program p.
Proof.
  intros Hterm Hrun p ->.
  apply (generate_program_inv ps b dt rt g g' _ (fun s => stack s <> []))
    in Hrun.
  - destruct Hrun as [(e & He & _)|(dv & g1 & s_end & _ & Hne & Hend)];
      [discriminate|].
    apply loop_body_Program in Hend. destruct Hend as [Hstk _].
    contradiction.
  - intros g1. cbn. discriminate.
  - intros dv s s' _ Hstep. apply loop_body_Continue in Hstep.
    destruct Hstep as [(d0 & s0 & r0 & n & g0 & _ & Htc & _)
                      |(d0 & s0 & r0 & f & g0 & _ & _ & _ & _ & _ & Hs')].
    + apply terminal_condition_true in Htc. contradiction.
    + rewrite Hs'. pose proof (Pos2Nat.is_pos (arity f)) as Hpos.
      destruct (Pos.to_nat (arity f)); [lia|]. cbn. discriminate.
Qed.

(** C6 (amended): the builder has no validation at entry.  An empty
    range for the draw of [desired_value] ([min_size > max_size] under
    size targeting, [min_depth > max_depth] under depth targeting) makes
    [random.randint] raise [ValueError] before any draw is consumed.  A
    set without terminals of the return type is not rejected: the call
    runs and never ends with a program. *)
Theorem bad_configuration_behaviour (ps : PrimitiveSet) (b : bounds)
    (dt : trait) (rt : option pytype) (g : rng) :
  (is_depth dt = false -> max_size b < min_size b ->
   generate_grow ps b dt rt g = Some (Raised ValueError, g)) /\
  (is_depth dt = true -> max_depth b < min_depth b ->
   generate_grow ps b dt rt g = Some (Raised ValueError, g)) /\
  (terminals ps (resolve_ret_type ps rt) = [] ->
   forall o g', generate_grow ps b dt rt g = Some (o, g') ->
                forall p, o <> Program p).
Proof.
  split; [|split].
  - intros Hdt Hlt. unfold generate_grow, generate_program_,
      draw_desired_value, randint.
    rewrite Hdt. apply Z.ltb_lt in Hlt. rewrite Hlt. reflexivity.
  - intros Hdt Hlt. unfold generate_grow, generate_program_,
      draw_desired_value, randint.
    rewrite Hdt. apply Z.ltb_lt in Hlt. rewrite Hlt. reflexivity.
  - intros Hterm o g' Hrun. eapply no_terminal_no_program; eassumption.
Qed.

Lemma bad_configuration_behaviour_witness :
  generate_grow pset_add (mkBounds 0 3 5 2) BySize None (constant_rng 0)
  = Some (Raised ValueError, constant_rng 0).
Proof.
  apply (proj1 (bad_configuration_behaviour pset_add (mkBounds 0 3 5 2)
                  BySize None (constant_rng 0))).
  - reflexivity.
  - cbn. lia.
Defined.

(** C6 (as stated) fails.  A set without terminals is not rejected at
    entry: two draws are consumed and the call ends with [None], the
    result of an infeasible construction.  And [min_size > max_size] goes
    unnoticed under depth targeting: a program comes back. *)
Lemma configuration_not_rejected :
  (terminals pset_no_terminal (ret pset_no_terminal) = [] /\
   generate_grow pset_no_terminal (mkBounds 0 3 1 3) BySize None
     (constant_rng 0)
   = Some (Infeasible, mkRng (fun _ => 0%N) 2)) /\
  (max_size (mkBounds 0 1 5 2) < min_size (mkBounds 0 1 5 2) /\
   generate_grow pset_add (mkBounds 0 1 5 2) ByDepth None (constant_rng 0)
   = Some (Program [NTerminal "v0"], mkRng (fun _ => 0%N) 2)).
Proof.
  split; split.
  - reflexivity.
  - vm_compute. reflexivity.
  - cbn. lia.
  - vm_compute. reflexivity.
Qed.

(** ** Determinism *)

Lemma draw_rng_eq (g1 g2 : rng) :
  rng_eq g1 g2 ->
  fst (draw g1) = fst (draw g2) /\ rng_eq (snd (draw g1)) (snd (draw g2)).
Proof.
  intros [Hp Hs]. unfold draw. cbn. rewrite Hp, Hs.
  split; [reflexivity|]. split; cbn; [reflexivity|assumption].
Qed.

Lemma respects_ret {A : Type} (a : A) : respects (ret_M a).
Proof. intros g1 g2 H. cbn. auto. Qed.

Lemma respects_lift {A : Type} (r : result A) : respects (lift r).
Proof. intros g1 g2 H. unfold lift. destruct r; cbn; auto. Qed.

Lemma respects_bind {A B : Type} (c : M A) (k : A -> M B) :
  respects c -> (forall a, respects (k a)) -> respects (bind_M c k).
Proof.
  intros Hc Hk g1 g2 H. unfold bind_M. specialize (Hc g1 g2 H).
  destruct (c g1) as [[a1 h1]|e1], (c g2) as [[a2 h2]|e2];
    cbn in Hc; try contradiction.
  - destruct Hc as [<- Hh]. apply Hk, Hh.
  - exact Hc.
Qed.

Lemma respects_randint (a c : Z) : respects (randint a c).
Proof.
  intros g1 g2 H. unfold randint. destruct (c <? a); [reflexivity|].
  destruct (draw_rng_eq g1 g2 H) as [Hv Hg].
  destruct (draw g1) as [r1 h1], (draw g2) as [r2 h2]. cbn in *.
  subst r2. auto.
Qed.

Lemma respects_choice {A : Type} (l : list A) : respects (choice l).
Proof.
  intros g1 g2 H. unfold choice. destruct l as [|x l]; [reflexivity|].
  destruct (draw_rng_eq g1 g2 H) as [Hv Hg].
  destruct (draw g1) as [r1 h1], (draw g2) as [r2 h2]. cbn [fst snd] in *.
  subst r2. split; [reflexivity|assumption].
Qed.

Lemma respects_random_lt (ratio : Q) : respects (random_lt ratio).
Proof.
  intros g1 g2 H. unfold random_lt.
  destruct (draw_rng_eq g1 g2 H) as [Hv Hg].
  destruct (draw g1) as [r1 h1], (draw g2) as [r2 h2]. cbn [fst snd] in *.
  subst r2. split; [reflexivity|assumption].
Qed.

Lemma respects_materialize (t : Terminal) : respects (materialize t).
Proof.
  destruct t as [name|name consts]; cbn.
  - apply respects_ret.
  - apply respects_bind; [apply respects_randint|].
    intros i. apply respects_ret.
Qed.

Lemma respects_terminal_condition (stk : list obligation) (depth size : Z)
    (rt : pytype) (ps : PrimitiveSet) (b : bounds) (dt : trait) (dv : Z) :
  respects (terminal_condition stk depth size rt ps b dt dv).
Proof.
  unfold terminal_condition.
  apply respects_bind; [apply respects_lift|]. intros mps.
  destruct (is_nil (terminals ps rt)); [apply respects_ret|].
  destruct (_ || _ || _ || _ || _); [apply respects_ret|].
  destruct (_ && _ && _); [apply respects_random_lt|apply respects_ret].
Qed.

Lemma respects_terminal_branch (ps : PrimitiveSet) (rt : pytype)
    (prog : list node) (rest : list obligation) (size : Z) :
  respects (terminal_branch ps rt prog rest size).
Proof.
  unfold terminal_branch.
  apply respects_bind; [apply respects_choice|]. intros t.
  apply respects_bind; [apply respects_materialize|]. intros n.
  apply respects_ret.
Qed.

Lemma respects_function_branch (ps : PrimitiveSet) (b : bounds) (dt : trait)
    (rt : pytype) (dv : Z) (prog : list node) (rest : list obligation)
    (depth size : Z) :
  respects (function_branch ps b dt rt dv prog rest depth size).
Proof.
  unfold function_branch.
  apply respects_bind; [apply respects_lift|]. intros vf.
  destruct (is_nil vf); [apply respects_ret|].
  apply respects_bind; [apply respects_choice|]. intros f.
  apply respects_ret.
Qed.

Lemma terminal_branch_raised_gen_eq (ps : PrimitiveSet) (rt : pytype)
    (g1 g2 : rng) :
  rng_eq g1 g2 ->
  rng_eq (terminal_branch_raised_gen ps rt g1)
         (terminal_branch_raised_gen ps rt g2).
Proof.
  intros Hg. unfold terminal_branch_raised_gen.
  pose proof (respects_choice (terminals ps rt) _ _ Hg) as Hc.
  destruct (choice (terminals ps rt) g1) as [[t1 h1]|e1],
           (choice (terminals ps rt) g2) as [[t2 h2]|e2];
    cbn in Hc; try contradiction.
  - apply Hc.
  - exact Hg.
Qed.

Lemma loop_body_state_eq (ps : PrimitiveSet) (b : bounds) (dt : trait)
    (rt : pytype) (dv : Z) (s1 s2 : state) :
  state_eq s1 s2 ->
  step_eq (loop_body ps b dt rt dv s1) (loop_body ps b dt rt dv s2).
Proof.
  intros (Hp & Hs & Hg). unfold loop_body. rewrite <- Hs, <- Hp.
  destruct (stack s1) as [|[depth size] rest]; [cbn; auto|].
  pose proof (respects_terminal_condition rest depth size rt ps b dt dv
                _ _ Hg) as Htc.
  destruct (terminal_condition _ _ _ _ _ _ _ _ (gen s1)) as [[t1 h1]|e1],
           (terminal_condition _ _ _ _ _ _ _ _ (gen s2)) as [[t2 h2]|e2];
    cbn in Htc; try contradiction.
  - destruct Htc as [<- Hh]. destruct t1.
    + pose proof (respects_terminal_branch ps rt (program s1) rest size
                    _ _ Hh) as Hb.
      destruct (terminal_branch _ _ _ _ _ h1) as [[[p1 k1] j1]|x1],
               (terminal_branch _ _ _ _ _ h2) as [[[p2 k2] j2]|x2];
        cbn in Hb; try contradiction.
      * destruct Hb as [Heq Hj]. injection Heq as <- <-.
        cbn. repeat split; try reflexivity; apply Hj.
      * subst x2. cbn. split; [reflexivity|].
        apply terminal_branch_raised_gen_eq, Hh.
    + pose proof (respects_function_branch ps b dt rt dv (program s1) rest
                    depth size _ _ Hh) as Hb.
      destruct (function_branch _ _ _ _ _ _ _ _ _ h1) as [[[[p1 k1]|] j1]|x1],
               (function_branch _ _ _ _ _ _ _ _ _ h2) as [[[[p2 k2]|] j2]|x2];
        cbn in Hb; try contradiction; try (destruct Hb; discriminate).
      * destruct Hb as [Heq Hj]. injection Heq as <- <-.
        cbn. repeat split; try reflexivity; apply Hj.
      * destruct Hb as [_ Hj]. cbn. auto.
      * subst x2. cbn. auto.
  - subst e2. cbn. auto.
Qed.

Lemma loop_state_eq (ps : PrimitiveSet) (b : bounds) (dt : trait)
    (rt : pytype) (dv : Z) (fuel : nat) (s1 s2 : state) :
  state_eq s1 s2 ->
  run_eq (loop ps b dt rt dv fuel s1) (loop ps b dt rt dv fuel s2).
Proof.
  revert s1 s2. induction fuel as [|fuel IH]; intros s1 s2 H; cbn;
    pose proof (loop_body_state_eq ps b dt rt dv s1 s2 H) as Hb;
    destruct (loop_body ps b dt rt dv s1) as [t1|o1 g1],
             (loop_body ps b dt rt dv s2) as [t2|o2 g2];
    cbn in Hb; try contradiction; cbn; auto.
Qed.

(** ** The order of the draws *)

Lemma consumes_ret {A : Type} (a : A) : consumes 0 0 (ret_M a).
Proof. intros g x g' H. injection H as _ <-. split; [reflexivity|lia]. Qed.

Lemma consumes_lift {A : Type} (r : result A) : consumes 0 0 (lift r).
Proof.
  intros g x g' H. unfold lift in H. destruct r; [|discriminate].
  injection H as _ <-. split; [reflexivity|lia].
Qed.

Lemma consumes_weaken {A : Type} (lo hi lo' hi' : nat) (c : M A) :
  (lo' <= lo)%nat -> (hi <= hi')%nat -> consumes lo hi c -> consumes lo' hi' c.
Proof.
  intros Hlo Hhi Hc g a g' H. destruct (Hc g a g' H) as [Hs Hp].
  split; [assumption|lia].
Qed.

Lemma consumes_bind {A B : Type} (lo1 hi1 lo2 hi2 : nat) (c : M A)
    (k : A -> M B) :
  consumes lo1 hi1 c -> (forall a, consumes lo2 hi2 (k a)) ->
  consumes (lo1 + lo2) (hi1 + hi2) (bind_M c k).
Proof.
  intros Hc Hk g x g' H. unfold bind_M in H.
  destruct (c g) as [[a h]|e] eqn:Ec; [|discriminate].
  destruct (Hc g a h Ec) as [Hs1 Hp1].
  destruct (Hk a h x g' H) as [Hs2 Hp2].
  split; [congruence|lia].
Qed.

Lemma consumes_randint (a c : Z) : consumes 1 1 (randint a c).
Proof.
  intros g v g' H. apply randint_range in H. destruct H as [_ ->].
  cbn. split; [reflexivity|lia].
Qed.

Lemma consumes_choice {A : Type} (l : list A) : consumes 1 1 (choice l).
Proof.
  intros g v g' H. apply choice_In in H. destruct H as [_ ->].
  cbn. split; [reflexivity|lia].
Qed.

Lemma consumes_random_lt (ratio : Q) : consumes 1 1 (random_lt ratio).
Proof.
  intros g v g' H. unfold random_lt, draw in H. injection H as _ <-.
  cbn. split; [reflexivity|lia].
Qed.

Lemma consumes_materialize (t : Terminal) : consumes 0 1 (materialize t).
Proof.
  destruct t as [name|name consts]; cbn.
  - eapply consumes_weaken; [| |apply consumes_ret]; lia.
  - apply (consumes_weaken 1 1); [lia|lia|].
    apply (consumes_bind 1 1 0 0); [apply consumes_randint|].
    intros i. apply consumes_ret.
Qed.

(** The bias decision: at most one draw. *)
Lemma consumes_terminal_condition (stk : list obligation) (depth size : Z)
    (rt : pytype) (ps : PrimitiveSet) (b : bounds) (dt : trait) (dv : Z) :
  consumes 0 1 (terminal_condition stk depth size rt ps b dt dv).
Proof.
  unfold terminal_condition.
  apply (consumes_bind 0 0 0 1); [apply consumes_lift|]. intros mps.
  destruct (is_nil (terminals ps rt));
    [eapply consumes_weaken; [| |apply consumes_ret]; lia|].
  destruct (_ || _ || _ || _ || _);
    [eapply consumes_weaken; [| |apply consumes_ret]; lia|].
  destruct (_ && _ && _);
    [eapply consumes_weaken; [| |apply consumes_random_lt]; lia
    |eapply consumes_weaken; [| |apply consumes_ret]; lia].
Qed.

(** The terminal decision: one draw for the choice, one more when the
    chosen terminal is an ephemeral constant to instantiate. *)
Lemma consumes_terminal_branch (ps : PrimitiveSet) (rt : pytype)
    (prog : list node) (rest : list obligation) (size : Z) :
  consumes 1 2 (terminal_branch ps rt prog rest size).
Proof.
  unfold terminal_branch.
  apply (consumes_bind 1 1 0 1); [apply consumes_choice|]. intros t.
  apply (consumes_bind 0 1 0 0); [apply consumes_materialize|]. intros n.
  apply consumes_ret.
Qed.

(** The function decision: one draw when a function is chosen, none when
    the branch gives up. *)
Lemma consumes_function_branch (ps : PrimitiveSet) (b : bounds) (dt : trait)
    (rt : pytype) (dv : Z) (prog : list node) (rest : list obligation)
    (depth size : Z) (g g' : rng) (r : option (list node * list obligation)) :
  function_branch ps b dt rt dv prog rest depth size g = Ok (r, g') ->
  stream g' = stream g /\
  pos g' = (pos g + match r with Some _ => 1 | None => 0 end)%nat.
Proof.
  unfold function_branch, bind_M, lift.
  destruct (feasible_functions _ _ _ _ _ _ _ _) as [vf|e]; [|discriminate].
  destruct (is_nil vf).
  - intros H. injection H as <- <-. split; [reflexivity|lia].
  - destruct (choice vf g) as [[f h]|e] eqn:Ec; [|discriminate].
    intros H. injection H as <- <-.
    destruct (consumes_choice vf g f h Ec) as [Hs Hp]. split; [assumption|lia].
Qed.

Lemma loop_body_draws (ps : PrimitiveSet) (b : bounds) (dt : trait)
    (rt : pytype) (dv : Z) (s s' : state) :
  loop_body ps b dt rt dv s = Continue s' ->
  stream (gen s') = stream (gen s) /\
  (pos (gen s) + 1 <= pos (gen s') <= pos (gen s) + 3)%nat.
Proof.
  unfold loop_body.
  destruct (stack s) as [|[depth size] rest]; [discriminate|].
  destruct (terminal_condition _ _ _ _ _ _ _ _ _) as [[[|] g1]|e] eqn:Htc;
    [| |discriminate];
    destruct (consumes_terminal_condition _ _ _ _ _ _ _ _ _ _ _ Htc)
      as [Hs1 Hp1].
  - destruct (terminal_branch _ _ _ _ _ _) as [[[prog' stack'] g2]|e] eqn:Hb;
      [|discriminate].
    destruct (consumes_terminal_branch _ _ _ _ _ _ _ _ Hb) as [Hs2 Hp2].
    intros H. injection H as <-. cbn. split; [congruence|lia].
  - destruct (function_branch _ _ _ _ _ _ _ _ _) as [[[[prog' stack']|] g2]|e]
      eqn:Hb; try discriminate.
    destruct (consumes_function_branch _ _ _ _ _ _ _ _ _ _ _ _ Hb)
      as [Hs2 Hp2].
    intros H. injection H as <-. cbn. split; [congruence|lia].
Qed.

(** C8: [generate_grow] is a function of its arguments and of the draws
    of the random stream.  From interchangeable generator states two
    calls end with the same outcome (the same program, hence the same
    rendering under any string function) and leave interchangeable
    generator states behind.  The stream is read in a fixed order:
    [desired_value] takes the first draw, and every iteration that
    continues reads on sequentially from where the previous one stopped
    (bias decision, then terminal or function choice, then the constant
    of an ephemeral terminal). *)
Theorem generate_grow_deterministic (ps : PrimitiveSet) (b : bounds)
    (dt : trait) (rt : option pytype) (g1 g2 : rng) :
  rng_eq g1 g2 ->
  run_eq (generate_grow ps b dt rt g1) (generate_grow ps b dt rt g2) /\
  (forall (str : list node -> string) p1 p2 h1 h2,
     generate_grow ps b dt rt g1 = Some (Program p1, h1) ->
     generate_grow ps b dt rt g2 = Some (Program p2, h2) ->
     str p1 = str p2) /\
  (forall dv h, draw_desired_value b dt g1 = Ok (dv, h) -> h = snd (draw g1)) /\
  (forall dv s s',
     loop_body ps b dt (resolve_ret_type ps rt) dv s = Continue s' ->
     stream (gen s') = stream (gen s) /\
     (pos (gen s) + 1 <= pos (gen s') <= pos (gen s) + 3)%nat).
Proof.
  intros Hg.
  assert (Hrun : run_eq (generate_grow ps b dt rt g1)
                        (generate_grow ps b dt rt g2)).
  { unfold generate_grow, generate_program_.
    assert (Hd : res_eq (draw_desired_value b dt g1)
                        (draw_desired_value b dt g2)).
    { unfold draw_desired_value. destruct (is_depth dt);
        apply respects_randint; assumption. }
    destruct (draw_desired_value b dt g1) as [[dv1 h1]|e1],
             (draw_desired_value b dt g2) as [[dv2 h2]|e2];
      cbn in Hd; try contradiction.
    - destruct Hd as [<- Hh].
      assert (Hm : measure b (initial_state h1) = measure b (initial_state h2))
        by reflexivity.
      rewrite Hm. apply loop_state_eq.
      repeat split; try reflexivity; apply Hh.
    - subst e2. cbn. auto. }
  split; [exact Hrun|]. split; [|split].
  - intros str p1 p2 h1 h2 H1 H2. rewrite H1, H2 in Hrun.
    destruct Hrun as [Ho _]. injection Ho as <-. reflexivity.
  - intros dv h H. unfold draw_desired_value in H.
    destruct (is_depth dt); apply randint_range in H; apply H.
  - intros dv s s'. apply loop_body_draws.
Qed.

Lemma generate_grow_deterministic_witness :
  run_eq (generate_grow pset_add (mkBounds 0 3 4 4) BySize None
            (mkRng (fun _ => 3%N) 0))
         (generate_grow pset_add (mkBounds 0 3 4 4) BySize None
            (mkRng (fun i => (3 + 0 * N.of_nat i)%N) 0)).
Proof.
  apply (generate_grow_deterministic pset_add (mkBounds 0 3 4 4) BySize None
           (mkRng (fun _ => 3%N) 0)
           (mkRng (fun i => (3 + 0 * N.of_nat i)%N) 0)).
  split; [reflexivity|]. intros i. reflexivity.
Defined.

(** C8 (as stated) fails in its count of draws: the run below makes one
    decision, a forced terminal (no bias draw), yet reads three draws:
    [desired_value], the choice of the terminal, and the constant the
    ephemeral class takes from its pool. *)
Lemma terminal_decision_two_draws :
  generate_grow pset_erc (mkBounds 0 3 1 4) BySize None (constant_rng 0)
    = Some (Program [NConstant (1 # 2)], mkRng (fun _ => 0%N) 3) /\
  terminal_condition [] 0 1 0%nat pset_erc (mkBounds 0 3 1 4) BySize 1
    (mkRng (fun _ => 0%N) 1) = Ok (true, mkRng (fun _ => 0%N) 1) /\
  terminal_branch pset_erc 0%nat [] [] 1 (mkRng (fun _ => 0%N) 1)
    = Ok (([NConstant (1 # 2)], []), mkRng (fun _ => 0%N) 3).
Proof.
  repeat split; vm_compute; reflexivity.
Qed.

(** ** Integer true division is exact on small quotients *)

Lemma scaled_spec (A B e : Z) :
  Float.scaled A B e =
  (A * 2 ^ Z.max (- e) 0, B * 2 ^ Z.max e 0).
Proof.
  unfold Float.scaled. destruct (0 <=? e) eqn:E.
  - apply Z.leb_le in E. rewrite (Z.max_r (- e) 0), (Z.max_l e 0) by lia.
    rewrite Z.pow_0_r, Z.mul_1_r. reflexivity.
  - apply Z.leb_gt in E. rewrite (Z.max_l (- e) 0), (Z.max_r e 0) by lia.
    rewrite Z.pow_0_r, Z.mul_1_r. reflexivity.
Qed.

Lemma scaled_pos (A B e n d : Z) :
  0 < A -> 0 < B -> Float.scaled A B e = (n, d) -> 0 < n /\ 0 < d.
Proof.
  intros HA HB H. rewrite scaled_spec in H. injection H as <- <-.
  assert (0 < 2 ^ Z.max (- e) 0) by (apply Z.pow_pos_nonneg; lia).
  assert (0 < 2 ^ Z.max e 0) by (apply Z.pow_pos_nonneg; lia).
  split; apply Z.mul_pos_pos; assumption.
Qed.

(** Lowering the exponent by one doubles the scaled quotient. *)
Lemma scaled_pred (A B e n d n' d' : Z) :
  Float.scaled A B e = (n, d) -> Float.scaled A B (e - 1) = (n', d') ->
  n' * d = 2 * n * d'.
Proof.
  intros H H'. unfold Float.scaled in *.
  destruct (0 <=? e) eqn:E; destruct (0 <=? e - 1) eqn:E';
    injection H as <- <-; injection H' as <- <-.
  - apply Z.leb_le in E, E'.
    assert (Hpow : 2 ^ e = 2 * 2 ^ (e - 1))
      by (rewrite <- Z.pow_succ_r by lia; f_equal; lia).
    rewrite Hpow. nia.
  - apply Z.leb_le in E. apply Z.leb_gt in E'.
    assert (e = 0) by lia. subst e.
    change (2 ^ 0) with 1. change (2 ^ (- (0 - 1))) with 2. ring.
  - apply Z.leb_gt in E. apply Z.leb_le in E'. lia.
  - apply Z.leb_gt in E, E'.
    assert (Hpow : 2 ^ (- (e - 1)) = 2 * 2 ^ (- e))
      by (rewrite <- Z.pow_succ_r by lia; f_equal; lia).
    rewrite Hpow. nia.
Qed.

Lemma scaled_first_guess (A B n0 d0 : Z) :
  0 < A -> 0 < B ->
  Float.scaled A B (Z.log2 A - Z.log2 B - 52) = (n0, d0) ->
  2 ^ 51 * d0 <= n0 < 2 ^ 53 * d0.
Proof.
  intros HA HB H.
  destruct (Z.log2_spec A HA) as [HAl HAu].
  destruct (Z.log2_spec B HB) as [HBl HBu].
  pose proof (Z.log2_nonneg A) as Hla. pose proof (Z.log2_nonneg B) as Hlb.
  set (la := Z.log2 A) in *. set (lb := Z.log2 B) in *.
  replace (Z.succ la) with (la + 1) in HAu by lia.
  replace (Z.succ lb) with (lb + 1) in HBu by lia.
  unfold Float.scaled in H. destruct (0 <=? la - lb - 52) eqn:E;
    injection H as <- <-.
  - apply Z.leb_le in E.
    assert (Hlo : 2 ^ la = 2 ^ 51 * (2 ^ (lb + 1) * 2 ^ (la - lb - 52))).
    { rewrite <- !Z.pow_add_r by lia. f_equal. lia. }
    assert (Hhi : 2 ^ (la + 1) = 2 ^ 53 * (2 ^ lb * 2 ^ (la - lb - 52))).
    { rewrite <- !Z.pow_add_r by lia. f_equal. lia. }
    assert (0 < 2 ^ (la - lb - 52)) by (apply Z.pow_pos_nonneg; lia).
    split; nia.
  - apply Z.leb_gt in E.
    assert (Hlo : 2 ^ la * 2 ^ (- (la - lb - 52)) = 2 ^ 51 * 2 ^ (lb + 1)).
    { rewrite <- !Z.pow_add_r by lia. f_equal. lia. }
    assert (Hhi : 2 ^ (la + 1) * 2 ^ (- (la - lb - 52)) = 2 ^ 53 * 2 ^ lb).
    { rewrite <- !Z.pow_add_r by lia. f_equal. lia. }
    assert (0 < 2 ^ (- (la - lb - 52))) by (apply Z.pow_pos_nonneg; lia).
    split; nia.
Qed.

(** At the normal exponent the integer part of the scaled quotient has
    exactly 53 bits. *)
Lemma normal_expo_spec (A B n d : Z) :
  0 < A -> 0 < B ->
  Float.scaled A B (Float.normal_expo A B) = (n, d) ->
  2 ^ 52 * d <= n < 2 ^ 53 * d /\ 0 < d.
Proof.
  intros HA HB Hs. unfold Float.normal_expo in Hs.
  destruct (Float.scaled A B (Z.log2 A - Z.log2 B - 52)) as [n0 d0] eqn:H0.
  pose proof (scaled_first_guess A B n0 d0 HA HB H0) as Hg.
  destruct (scaled_pos A B _ n0 d0 HA HB H0) as [Hn0 Hd0].
  set (e0 := Z.log2 A - Z.log2 B - 52) in *.
  destruct (n0 / d0 <? Float.two52) eqn:Eq.
  - destruct (scaled_pos A B _ n d HA HB Hs) as [Hn1 Hd1].
    pose proof (scaled_pred A B e0 n0 d0 n d H0 Hs) as Hp.
    apply Z.ltb_lt in Eq. unfold Float.two52 in Eq.
    assert (Hlt : n0 < 2 ^ 52 * d0).
    { pose proof (Z.div_mod n0 d0 ltac:(lia)).
      pose proof (Z.mod_pos_bound n0 d0 Hd0). nia. }
    split; [|assumption].
    change (2 ^ 52) with (2 * 2 ^ 51). change (2 ^ 53) with (2 * 2 ^ 52).
    split; nia.
  - rewrite H0 in Hs. injection Hs as <- <-.
    apply Z.ltb_ge in Eq. unfold Float.two52 in Eq.
    split; [|assumption]. split; [|lia].
    pose proof (Z.mul_div_le n0 d0 Hd0). nia.
Qed.

(** For a quotient between [2^-1021] and [2^53] the exponent is normal
    and not positive, and the mantissa is the rounded value of
    [A * 2^(-e) / B]. *)
Lemma round_pos_low (A B m e : Z) :
  0 < A -> 0 < B -> A < 2 ^ 53 * B -> B < 2 ^ 1021 * A ->
  Float.round_pos A B = (m, e) ->
  e <= 0 /\ 2 ^ 52 * B <= A * 2 ^ (- e) /\
  m = (if (B <? 2 * ((A * 2 ^ (- e)) mod B))
          || ((B =? 2 * ((A * 2 ^ (- e)) mod B))
              && Z.odd ((A * 2 ^ (- e)) / B))
       then (A * 2 ^ (- e)) / B + 1 else (A * 2 ^ (- e)) / B).
Proof.
  intros HA HB Hlt Hgt Hr.
  destruct (Float.scaled A B (Float.normal_expo A B)) as [n d] eqn:Hs.
  destruct (normal_expo_spec A B n d HA HB Hs) as ([Hlo Hhi] & Hd).
  rewrite scaled_spec in Hs. injection Hs as Hn' Hd'.
  set (en := Float.normal_expo A B) in *.
  assert (He : en <= 0).
  { destruct (Z_le_gt_dec en 0) as [|Hpos]; [assumption|exfalso].
    rewrite (Z.max_r (- en) 0), (Z.max_l en 0) in * by lia.
    rewrite Z.pow_0_r, Z.mul_1_r in Hn'.
    assert (2 <= 2 ^ en).
    { change 2 with (2 ^ 1) at 1. apply Z.pow_le_mono_r; lia. }
    change (2 ^ 53) with (2 * 2 ^ 52) in Hlt. nia. }
  rewrite (Z.max_l (- en) 0), (Z.max_r en 0) in * by lia.
  rewrite Z.pow_0_r, Z.mul_1_r in Hd'. subst n d.
  assert (Hsub : -1074 < en).
  { destruct (Z_lt_le_dec (-1074) en) as [|Hle]; [assumption|exfalso].
    assert (2 ^ 1074 <= 2 ^ (- en)) by (apply Z.pow_le_mono_r; lia).
    change (2 ^ 1074) with (2 ^ 53 * 2 ^ 1021) in H. nia. }
  unfold Float.round_pos in Hr. fold en in Hr.
  rewrite (Z.max_l en (-1074)) in Hr by lia.
  rewrite scaled_spec in Hr.
  rewrite (Z.max_l (- en) 0), (Z.max_r en 0) in Hr by lia.
  rewrite Z.pow_0_r, Z.mul_1_r in Hr.
  injection Hr as <- <-. repeat split; try assumption; reflexivity.
Qed.

(** An exact integer quotient below [2^53] is not rounded. *)
Lemma truediv_exact (a b N : Z) :
  b <> 0 -> 0 < N < 2 ^ 53 -> a = N * b ->
  exists x, Float.truediv a b = Ok x /\ Float.to_int x = N.
Proof.
  intros Hb HN Ha. unfold Float.truediv.
  destruct (b =? 0) eqn:Eb; [apply Z.eqb_eq in Eb; contradiction|].
  assert (Ha0 : a <> 0) by nia.
  destruct (a =? 0) eqn:Ea; [apply Z.eqb_eq in Ea; contradiction|].
  assert (HA : 0 < Z.abs a) by lia. assert (HB : 0 < Z.abs b) by lia.
  assert (Habs : Z.abs a = N * Z.abs b) by (rewrite Ha, Z.abs_mul; lia).
  destruct (Float.round_pos (Z.abs a) (Z.abs b)) as [m e] eqn:Hr.
  destruct (round_pos_low _ _ m e HA HB ltac:(nia) ltac:(nia) Hr)
    as (He & _ & Hm).
  assert (HE : 0 < 2 ^ (- e)) by (apply Z.pow_pos_nonneg; lia).
  assert (Hmul : Z.abs a * 2 ^ (- e) = (N * 2 ^ (- e)) * Z.abs b)
    by (rewrite Habs; ring).
  rewrite Hmul, Z.mod_mul, Z.div_mul in Hm by lia.
  replace ((Z.abs b <? 2 * 0) || (Z.abs b =? 2 * 0) && Z.odd (N * 2 ^ (- e)))
    with false in Hm.
  2:{ symmetry. apply orb_false_iff. split.
      - apply Z.ltb_ge. lia.
      - apply andb_false_iff. left. apply Z.eqb_neq. lia. }
  subst m.
  assert (Hov : Float.overflows (N * 2 ^ (- e)) e = false).
  { unfold Float.overflows. destruct (0 <=? e) eqn:E0; [|reflexivity].
    apply Z.leb_le in E0. assert (e = 0) by lia. subst e.
    cbn [andb]. apply Z.leb_gt. change (2 ^ (- 0)) with 1.
    change (2 ^ 0) with 1. unfold Float.two1024.
    assert (2 ^ 53 < 2 ^ 1024) by (apply Z.pow_lt_mono_r; lia). lia. }
  rewrite Hov. eexists. split; [reflexivity|].
  unfold Float.to_int. cbn [Float.neg Float.mant Float.expo].
  assert (Hsign : negb (Bool.eqb (a <? 0) (b <? 0)) = false).
  { destruct (a <? 0) eqn:Sa, (b <? 0) eqn:Sb; try reflexivity; exfalso;
      [apply Z.ltb_lt in Sa; apply Z.ltb_ge in Sb
      |apply Z.ltb_ge in Sa; apply Z.ltb_lt in Sb]; nia. }
  rewrite Hsign.
  destruct (0 <=? e) eqn:E0.
  - apply Z.leb_le in E0. assert (e = 0) by lia. subst e.
    change (2 ^ (- 0)) with 1. change (2 ^ 0) with 1. lia.
  - apply Z.div_mul. lia.
Qed.

(** [math.ceil(a / b)] is the exact ceiling when [0 < a < 2^53]. *)
Lemma truediv_ceil (A B : Z) :
  0 < A < 2 ^ 53 -> 0 < B < 2 ^ 53 ->
  exists x, Float.truediv A B = Ok x /\ Float.ceil x = - ((- A) / B).
Proof.
  intros HA HB. unfold Float.truediv.
  destruct (B =? 0) eqn:Eb; [apply Z.eqb_eq in Eb; lia|].
  destruct (A =? 0) eqn:Ea; [apply Z.eqb_eq in Ea; lia|].
  rewrite (Z.abs_eq A), (Z.abs_eq B) by lia.
  destruct (Float.round_pos A B) as [m e] eqn:Hr.
  destruct HB as [HB HBu].
  assert (HBig : B < 2 ^ 1021 * A).
  { assert (2 ^ 53 < 2 ^ 1021) by (apply Z.pow_lt_mono_r; lia). nia. }
  destruct (round_pos_low A B m e ltac:(lia) HB ltac:(nia) HBig Hr)
    as (He & Hnorm & Hm).
  set (E := 2 ^ (- e)) in *.
  assert (HE : 0 < E) by (apply Z.pow_pos_nonneg; lia).
  assert (HBE : B < 2 * E) by (change (2 ^ 53) with (2 * 2 ^ 52) in HA; nia).
  (* split A by B *)
  pose proof (Z.div_mod A B ltac:(lia)) as HAdm.
  pose proof (Z.mod_pos_bound A B HB) as Hsb.
  set (f := A / B) in *. set (s := A mod B) in *.
  assert (Hf : 0 <= f) by (apply Z.div_pos; lia).
  (* the scaled quotient *)
  pose proof (Z.div_mod (A * E) B ltac:(lia)) as Hqdm.
  pose proof (Z.mod_pos_bound (A * E) B HB) as Hrb.
  set (q := (A * E) / B) in *. set (r := (A * E) mod B) in *.
  (* the exact ceiling *)
  assert (Hceil : - ((- A) / B) = if s =? 0 then f else f + 1).
  { destruct (s =? 0) eqn:Es.
    - apply Z.eqb_eq in Es.
      assert (- A = (- f) * B) by lia.
      rewrite H, Z.div_mul by lia. lia.
    - apply Z.eqb_neq in Es.
      assert (Hd : (- A) / B = - f - 1).
      { symmetry. apply (Z.div_unique_pos _ _ _ (B - s)); lia. }
      lia. }
  (* bounds on the mantissa *)
  assert (Hmb : if s =? 0 then m = f * E
                else f * E < m <= (f + 1) * E).
  { destruct (s =? 0) eqn:Es.
    - apply Z.eqb_eq in Es.
      assert (Hq : q = f * E /\ r = 0).
      { assert (A * E = (f * E) * B) by nia.
        unfold q, r. rewrite H, Z.div_mul, Z.mod_mul by lia. auto. }
      destruct Hq as [Hq Hr0]. rewrite Hr0 in Hm.
      replace ((B <? 2 * 0) || (B =? 2 * 0) && Z.odd q) with false in Hm.
      + lia.
      + symmetry. apply orb_false_iff. split.
        * apply Z.ltb_ge. lia.
        * apply andb_false_iff. left. apply Z.eqb_neq. lia.
    - apply Z.eqb_neq in Es.
      assert (Hq1 : f * E <= q) by nia.
      assert (Hq2 : q <= f * E + E - 1) by nia.
      destruct ((B <? 2 * r) || (B =? 2 * r) && Z.odd q) eqn:Eup.
      + lia.
      + subst m. split; [|lia].
        apply orb_false_iff in Eup. destruct Eup as [Eup _].
        apply Z.ltb_ge in Eup.
        destruct (Z.eq_dec q (f * E)) as [Heq|]; [|lia].
        exfalso. assert (r = s * E) by nia. nia. }
  assert (Hov : Float.overflows m e = false).
  { unfold Float.overflows. destruct (0 <=? e) eqn:E0; [|reflexivity].
    apply Z.leb_le in E0. assert (e = 0) by lia.
    cbn [andb]. apply Z.leb_gt.
    assert (E = 1) by (unfold E; subst e; reflexivity).
    subst e. change (2 ^ 0) with 1. unfold Float.two1024.
    assert (2 ^ 53 < 2 ^ 1024) by (apply Z.pow_lt_mono_r; lia).
    destruct (s =? 0); nia. }
  rewrite Hov. eexists. split; [reflexivity|].
  rewrite Hceil. unfold Float.ceil.
  cbn [Float.neg Float.mant Float.expo].
  assert (Hsign : negb (Bool.eqb (A <? 0) (B <? 0)) = false).
  { destruct (A <? 0) eqn:Sa; [apply Z.ltb_lt in Sa; lia|].
    destruct (B <? 0) eqn:Sb; [apply Z.ltb_lt in Sb; lia|]. reflexivity. }
  rewrite Hsign.
  destruct (0 <=? e) eqn:E0.
  - apply Z.leb_le in E0. assert (e = 0) by lia.
    assert (E = 1) by (unfold E; subst e; reflexivity).
    subst e. change (2 ^ 0) with 1.
    destruct (s =? 0); nia.
  - fold E. destruct (s =? 0) eqn:Es.
    + rewrite Hmb. replace (- (f * E)) with ((- f) * E) by ring.
      rewrite Z.div_mul by lia. lia.
    + assert (Hd : (- m) / E = - f - 1).
      { symmetry. apply (Z.div_unique_pos _ _ _ ((f + 1) * E - m)); lia. }
      lia.
Qed.

(** ** [get_max_size] against the exact node count *)

Lemma complete_size_geometric (m : Z) (k : nat) :
  (m - 1) * complete_size m k = m ^ (Z.of_nat k + 1) - 1.
Proof.
  induction k as [|k IH].
  - cbn. lia.
  - replace (Z.of_nat (S k) + 1) with (Z.succ (Z.of_nat k + 1)) by lia.
    rewrite Z.pow_succ_r by lia. cbn [complete_size]. nia.
Qed.

Lemma complete_size_pos (m : Z) (k : nat) : 0 <= m -> 0 < complete_size m k.
Proof.
  intros Hm. induction k as [|k IH]; cbn [complete_size]; nia.
Qed.

Lemma complete_size_unary (k : nat) : complete_size 1 k = Z.of_nat k + 1.
Proof.
  induction k as [|k IH]; [reflexivity|].
  cbn [complete_size]. rewrite IH. lia.
Qed.

(** Below [2^53] the float division of [get_max_size] loses nothing. *)
Lemma get_max_size_exact (m d : Z) :
  1 <= m -> 0 <= d ->
  complete_size m (Z.to_nat d) < 2 ^ 53 ->
  get_max_size m d = Ok (complete_size m (Z.to_nat d)).
Proof.
  intros Hm Hd Hlt. unfold get_max_size.
  destruct (m =? 1) eqn:E1.
  - apply Z.eqb_eq in E1. subst m. rewrite complete_size_unary.
    f_equal. lia.
  - apply Z.eqb_neq in E1.
    destruct (0 <=? d + 1) eqn:E2; [|apply Z.leb_gt in E2; lia].
    pose proof (complete_size_geometric m (Z.to_nat d)) as Hg.
    rewrite Z2Nat.id in Hg by lia.
    pose proof (complete_size_pos m (Z.to_nat d) ltac:(lia)) as Hp.
    destruct (truediv_exact (1 - m ^ (d + 1)) (1 - m)
                (complete_size m (Z.to_nat d)) ltac:(lia) ltac:(lia)
                ltac:(lia)) as (x & Hx & Hi).
    rewrite Hx. cbn [bind]. rewrite Hi. reflexivity.
Qed.

(** C2 (code at the failing inputs): [get_max_size(2, 53)] is [2^54],
    one more than the [2^54 - 1] nodes of the complete binary tree of
    depth [53]; [get_max_size(3, 34)] is one less than the exact count;
    and [get_max_size(2, 1023)] raises [OverflowError].  The three
    values of the specification come out exact. *)
Theorem get_max_size_float_rounding :
  get_max_size 2 53 = Ok 18014398509481984 /\
  complete_size 2 53 = 18014398509481983 /\
  get_max_size 3 34 = Ok 25015772549499852 /\
  complete_size 3 34 = 25015772549499853 /\
  get_max_size 2 1023 = Raise OverflowError /\
  get_max_size 1 4 = Ok 5 /\
  get_max_size 2 3 = Ok 15 /\
  get_max_size 3 2 = Ok 13.
Proof.
  repeat split; vm_compute; reflexivity.
Qed.

(** ** The size bins of a configuration *)

Lemma ceil_div_spec (a b : Z) :
  0 < b -> (ceil_div a b - 1) * b < a <= ceil_div a b * b.
Proof.
  intros Hb. unfold ceil_div.
  pose proof (Z.div_mod (- a) b ltac:(lia)) as Hdm.
  pose proof (Z.mod_pos_bound (- a) b Hb) as Hmb. nia.
Qed.

Lemma range_In (n i : Z) : In i (range n) <-> 0 <= i < n.
Proof.
  unfold range. rewrite in_map_iff. split.
  - intros (k & <- & Hk). apply in_seq in Hk. lia.
  - intros Hi. exists (Z.to_nat i). split; [lia|]. apply in_seq. lia.
Qed.

(** X23: for a configuration with [max_arity >= 1],
    [max_depth >= 0], [1 <= bin_size < 2^53] whose complete tree has
    fewer than [2^53] nodes, [max_possible_size] is [get_max_size(max_arity,
    max_depth)], the exact node count; the number of bins is the exact
    ceiling of [max_possible_size / bin_size]; and bin [i] targets the
    sizes [i*bin_size+1] to [min((i+1)*bin_size, max_possible_size)].
    For [max_arity = 2], [max_depth = 3], [bin_size = 4]: [15] nodes, [4]
    bins, ranges [[1,4]], [[5,8]], [[9,12]], [[13,15]]. *)
Theorem size_bins_spec (max_arity max_depth bin_size : Z) :
  1 <= max_arity -> 0 <= max_depth -> 1 <= bin_size < 2 ^ 53 ->
  complete_size max_arity (Z.to_nat max_depth) < 2 ^ 53 ->
  let mps := complete_size max_arity (Z.to_nat max_depth) in
  get_max_size max_arity max_depth = Ok mps /\
  size_bins max_arity max_depth bin_size
    = Ok (mps, ceil_div mps bin_size,
          map (fun i => (i * bin_size + 1, Z.min ((i + 1) * bin_size) mps))
              (range (ceil_div mps bin_size))) /\
  size_bins 2 3 4 = Ok (15, 4, [(1, 4); (5, 8); (9, 12); (13, 15)]).
Proof.
  intros Ha Hd Hb Hlt mps.
  pose proof (get_max_size_exact max_arity max_depth Ha Hd Hlt) as Hg.
  fold mps in Hg. split; [exact Hg|]. split; [|vm_compute; reflexivity].
  unfold size_bins. rewrite Hg. cbn [bind].
  pose proof (complete_size_pos max_arity (Z.to_nat max_depth) ltac:(lia))
    as Hpos. fold mps in Hpos, Hlt.
  destruct (truediv_ceil mps bin_size ltac:(lia) ltac:(lia)) as (x & Hx & Hc).
  unfold num_size_bins. rewrite Hx. cbn [bind]. rewrite Hc.
  fold (ceil_div mps bin_size). do 2 f_equal.
  apply map_ext_in. intros i Hi. apply range_In in Hi.
  pose proof (ceil_div_spec mps bin_size ltac:(lia)) as Hs.
  unfold bin_sizes. f_equal.
  destruct (i =? ceil_div mps bin_size - 1) eqn:Ei.
  - apply Z.eqb_eq in Ei. subst i.
    replace (ceil_div mps bin_size - 1 + 1) with (ceil_div mps bin_size)
      by lia.
    lia.
  - apply Z.eqb_neq in Ei. nia.
Qed.

Lemma size_bins_spec_witness :
  get_max_size 2 7 = Ok (complete_size 2 (Z.to_nat 7)) /\
  size_bins 2 7 2
    = Ok (complete_size 2 (Z.to_nat 7),
          ceil_div (complete_size 2 (Z.to_nat 7)) 2,
          map (fun i => (i * 2 + 1,
                         Z.min ((i + 1) * 2) (complete_size 2 (Z.to_nat 7))))
              (range (ceil_div (complete_size 2 (Z.to_nat 7)) 2))) /\
  size_bins 2 3 4 = Ok (15, 4, [(1, 4); (5, 8); (9, 12); (13, 15)]).
Proof.
  apply (size_bins_spec 2 7 2); try lia.
  vm_compute. reflexivity.
Defined.

(** C9 (code at the failing inputs): for [max_arity = 2],
    [max_depth = 53], [bin_size = 3] the script counts
    [6004799503160661] bins where the ceiling of [max_possible_size / 3]
    is [6004799503160662].  For [max_arity = 1], [max_depth = 2^53],
    [bin_size = 2^53] it makes one bin, [[1, 2^53 + 1]], where the
    ceiling gives two bins and [min(bin_size, max_possible_size) = 2^53]
    is the upper size of the first. *)
Lemma size_bins_float_ceiling :
  (exists bins,
     size_bins 2 53 3 = Ok (18014398509481984, 6004799503160661, bins) /\
     ceil_div 18014398509481984 3 = 6004799503160662) /\
  (size_bins 1 (2 ^ 53) (2 ^ 53)
     = Ok (2 ^ 53 + 1, 1, [(1, 2 ^ 53 + 1)]) /\
   ceil_div (2 ^ 53 + 1) (2 ^ 53) = 2 /\
   Z.min ((0 + 1) * 2 ^ 53) (2 ^ 53 + 1) = 2 ^ 53).
Proof.
  split.
  - unfold size_bins.
    replace (get_max_size 2 53) with (Ok (A := Z) 18014398509481984)
      by (vm_compute; reflexivity).
    cbn [bind].
    replace (num_size_bins 18014398509481984 3)
      with (Ok (A := Z) 6004799503160661) by (vm_compute; reflexivity).
    cbn [bind]. eexists. split; reflexivity.
  - repeat split; vm_compute; reflexivity.
Qed.

(** ** Distinct strings and quota of a bin *)

Lemma NoDup_snoc {A : Type} (l : list A) (x : A) :
  NoDup l -> ~ In x l -> NoDup (l ++ [x]).
Proof.
  induction 1 as [|a l Ha Hl IH]; intros Hx; cbn.
  - constructor; [intros []|constructor].
  - constructor.
    + rewrite in_app_iff. intros [H|[H|[]]]; [contradiction|].
      apply Hx. left. symmetry. assumption.
    + apply IH. intros H. apply Hx. right. assumption.
Qed.

Section SamplingFacts.

Variable str : list node -> string.
Variable K : nat.
Variable fn vn : list string.
Variable cn : list Q.

(** A step leaves the bin as it is or appends one new string to a bin
    that is not full. *)
Lemma sample_step_bin (b : bounds) (st st' : sampler) (o : outcome) :
  sample_step str K fn vn cn b st o = Ok st' ->
  dict_bin st' = dict_bin st \/
  exists p,
    o = Program p /\
    (List.length (programs (dict_bin st)) < K)%nat /\
    ~ In (str p) (programs (dict_bin st)) /\
    programs (dict_bin st') = programs (dict_bin st) ++ [str p].
Proof.
  unfold sample_step. destruct o as [p| |e]; [| |discriminate].
  - destruct p as [|n p']; [discriminate|].
    set (p := n :: p') in *.
    destruct (height p) as [depth|]; [|discriminate].
    destruct (_ || _).
    + intros H. injection H as <-. left. reflexivity.
    + destruct ((_ <? K)%nat && _) eqn:Ec.
      * apply andb_true_iff in Ec. destruct Ec as [Hlen Hocc].
        apply Nat.ltb_lt in Hlen. apply Nat.eqb_eq in Hocc.
        apply count_occ_not_In in Hocc.
        destruct (count_nodes _ _ _ _ _) as [[[fc vc] cc]|e]; [|discriminate].
        cbn [bind]. intros H. injection H as <-. right.
        exists p. cbn. auto.
      * intros H. injection H as <-. left. reflexivity.
  - intros H. injection H as <-. left. reflexivity.
Qed.

Lemma sample_step_bin_ok (b : bounds) (st st' : sampler) (o : outcome) :
  bin_ok K st -> sample_step str K fn vn cn b st o = Ok st' -> bin_ok K st'.
Proof.
  intros [Hnd Hlen] H. apply sample_step_bin in H.
  destruct H as [Heq|(p & _ & Hlt & Hnin & Hp)]; unfold bin_ok.
  - rewrite Heq. auto.
  - rewrite Hp, length_app. cbn. split; [apply NoDup_snoc; assumption|lia].
Qed.

Lemma sample_all_bin_ok (b : bounds) (os : list outcome) (st st' : sampler) :
  bin_ok K st -> sample_all str K fn vn cn b st os = Ok st' -> bin_ok K st'.
Proof.
  revert st. induction os as [|o os IH]; intros st Hok H; cbn in H.
  - injection H as <-. assumption.
  - destruct (sample_step str K fn vn cn b st o) as [st1|e] eqn:H1;
      [|discriminate].
    cbn [bind] in H. eapply IH; [|eassumption].
    eapply sample_step_bin_ok; eassumption.
Qed.

(** C7: whatever programs the builder hands to a bin, the strings the
    bin has accepted are pairwise distinct and at most
    [num_programs_per_size_bin]; a bin that holds that many entries is
    left unchanged by every further program, and a program whose string
    is already in the bin leaves it unchanged too. *)
Theorem bin_distinct_and_bounded (b : bounds) (os : list outcome)
    (st : sampler) :
  sample_all str K fn vn cn b empty_sampler os = Ok st ->
  NoDup (programs (dict_bin st)) /\
  (List.length (programs (dict_bin st)) <= K)%nat /\
  forall o st',
    sample_step str K fn vn cn b st o = Ok st' ->
    (List.length (programs (dict_bin st)) = K \/
     exists p, o = Program p /\ In (str p) (programs (dict_bin st))) ->
    dict_bin st' = dict_bin st.
Proof.
  intros Hrun.
  assert (Hok : bin_ok K st).
  { eapply sample_all_bin_ok; [|exact Hrun].
    split; [constructor|cbn; lia]. }
  destruct Hok as [Hnd Hlen]. split; [assumption|]. split; [assumption|].
  intros o st' Hstep Hcase. apply sample_step_bin in Hstep.
  destruct Hstep as [Heq|(p & Ho & Hlt & Hnin & _)]; [assumption|].
  exfalso. destruct Hcase as [Hfull|(p' & Ho' & Hin)].
  - lia.
  - rewrite Ho in Ho'. injection Ho' as <-. contradiction.
Qed.

End SamplingFacts.

Lemma bin_distinct_and_bounded_witness :
  let st := mkSampler
              (mkBin ["v0"%string] [0] [1] [0] [1] [])
              [[NTerminal "v0"]; [NTerminal "v0"]] [] in
  NoDup (programs (dict_bin st)) /\
  (List.length (programs (dict_bin st)) <= 1)%nat /\
  forall o st',
    sample_step example_str 1 ["add"%string] ["v0"%string] []
      (mkBounds 1 3 1 2) st o = Ok st' ->
    (List.length (programs (dict_bin st)) = 1%nat \/
     exists p, o = Program p /\ In (example_str p) (programs (dict_bin st))) ->
    dict_bin st' = dict_bin st.
Proof.
  apply (bin_distinct_and_bounded example_str 1 ["add"%string] ["v0"%string]
           [] (mkBounds 1 3 1 2)
           [Program [NTerminal "v0"]; Infeasible; Program [NTerminal "v0"]]).
  vm_compute. reflexivity.
Defined.

(** ** The check of the recomputed depth and size *)

(** C5 (amended): when the recomputed depth exceeds [max_depth] or the
    recomputed size exceeds [max_size], the loop prints ['Uh-oh...'] and
    goes on with the next sample: nothing is raised, the bin of
    [program_dict] is left as it is, and the tree stays in
    [primitive_trees], where it was stored before the check.  [min_depth]
    and [min_size] are not looked at: a tree within the maximums is
    handled the same whatever the minimums are, and nothing is printed
    for it. *)
Theorem depth_size_check (str : list node -> string) (K : nat)
    (fn vn : list string) (cn : list Q) (b : bounds) (st : sampler)
    (n : node) (p : list node) (depth : Z) :
  height (n :: p) = Some depth ->
  (max_depth b < depth \/ max_size b < program_size (n :: p) ->
   sample_step str K fn vn cn b st (Program (n :: p))
   = Ok (mkSampler (dict_bin st) (primitive_trees st ++ [n :: p])
           (printed st ++ ["Uh-oh..."%string]))) /\
  (depth <= max_depth b -> program_size (n :: p) <= max_size b ->
   (forall min_depth' min_size',
      sample_step str K fn vn cn b st (Program (n :: p))
      = sample_step str K fn vn cn
          (mkBounds min_depth' (max_depth b) min_size' (max_size b)) st
          (Program (n :: p))) /\
   (forall st',
      sample_step str K fn vn cn b st (Program (n :: p)) = Ok st' ->
      printed st' = printed st /\
      primitive_trees st' = primitive_trees st ++ [n :: p])).
Proof.
  intros Hh. split.
  - intros Hviol. unfold sample_step. rewrite Hh.
    assert (Hc : (max_depth b <? depth)
                 || (max_size b <? program_size (n :: p)) = true).
    { apply orb_true_iff. destruct Hviol; [left|right]; apply Z.ltb_lt;
        assumption. }
    rewrite Hc. reflexivity.
  - intros Hd Hs. split.
    + intros min_depth' min_size'. reflexivity.
    + intros st'. unfold sample_step. rewrite Hh.
      assert (Hc : (max_depth b <? depth)
                   || (max_size b <? program_size (n :: p)) = false).
      { apply orb_false_iff. split; apply Z.ltb_ge; assumption. }
      rewrite Hc.
      destruct ((_ <? K)%nat && _).
      * destruct (count_nodes _ _ _ _ _) as [[[fc vc] cc]|e]; [|discriminate].
        cbn [bind]. intros H. injection H as <-. cbn. auto.
      * intros H. injection H as <-. cbn. auto.
Qed.

Lemma depth_size_check_witness :
  sample_step example_str 1 ["add"%string] ["v0"%string] []
    (mkBounds 0 0 1 1) empty_sampler
    (Program [NPrimitive add; NTerminal "v0"; NTerminal "v0"])
  = Ok (mkSampler empty_bin
          [[NPrimitive add; NTerminal "v0"; NTerminal "v0"]]
          ["Uh-oh..."%string]).
Proof.
  apply (proj1 (depth_size_check example_str 1 ["add"%string] ["v0"%string] []
                  (mkBounds 0 0 1 1) empty_sampler (NPrimitive add)
                  [NTerminal "v0"; NTerminal "v0"] 1 eq_refl)).
  left. cbn. lia.
Defined.

(** C5 (as stated) fails.  A tree that is too deep and too large is not
    fatal: the step returns, with ['Uh-oh...'] printed and the tree kept
    in [primitive_trees].  And a tree below [min_depth] is accepted into
    the bin without a word: the single terminal the builder returns for
    the first bin of the script has depth [0] under [min_depth = 1]. *)
Lemma violation_not_fatal :
  (height [NPrimitive add; NTerminal "v0"; NTerminal "v0"] = Some 1 /\
   max_depth (mkBounds 0 0 1 1) < 1 /\
   sample_step example_str 1 ["add"%string] ["v0"%string] []
     (mkBounds 0 0 1 1) empty_sampler
     (Program [NPrimitive add; NTerminal "v0"; NTerminal "v0"])
   = Ok (mkSampler empty_bin
           [[NPrimitive add; NTerminal "v0"; NTerminal "v0"]]
           ["Uh-oh..."%string])) /\
  (height [NTerminal "v0"] = Some 0 /\
   0 < min_depth (mkBounds 1 3 1 2) /\
   sample_step example_str 1 ["add"%string] ["v0"%string] []
     (mkBounds 1 3 1 2) empty_sampler (Program [NTerminal "v0"])
   = Ok (mkSampler (mkBin ["v0"%string] [0] [1] [0] [1] [])
           [[NTerminal "v0"]] [])).
Proof.
  repeat split; try (cbn; lia); vm_compute; reflexivity.
Qed.

(** * More of the script *)

(** ** Where the nodes of a program come from *)

Lemma materialize_from (ps : PrimitiveSet) (rt : pytype) (t : Terminal)
    (g g' : rng) (n : node) :
  In t (terminals ps rt) -> materialize t g = Ok (n, g') -> node_from ps rt n.
Proof.
  intros Hin. destruct t as [name|name consts]; cbn.
  - intros H. injection H as <- _. exact Hin.
  - unfold bind_M. destruct (randint _ _ g) as [[i g1]|e] eqn:Hr; [|discriminate].
    cbn. intros H. injection H as <- _.
    apply randint_range in Hr. destruct Hr as [Hi _].
    exists name, consts. split; [exact Hin|]. apply nth_In. lia.
Qed.

Lemma loop_body_node_from (ps : PrimitiveSet) (b : bounds) (dt : trait)
    (rt : pytype) (dv : Z) (s s' : state) :
  loop_body ps b dt rt dv s = Continue s' ->
  exists n, program s' = program s ++ [n] /\ node_from ps rt n.
Proof.
  unfold loop_body.
  destruct (stack s) as [|[depth size] rest]; [discriminate|].
  destruct (terminal_condition _ _ _ _ _ _ _ _ _) as [[[|] g1]|e];
    [| |discriminate].
  - destruct (terminal_branch _ _ _ _ _ _) as [[[prog' stack'] g2]|e] eqn:Hb;
      [|discriminate].
    intros H. injection H as <-.
    unfold terminal_branch, bind_M in Hb.
    destruct (choice _ g1) as [[t g3]|e] eqn:Hc; [|discriminate].
    destruct (materialize t g3) as [[n g4]|e] eqn:Hm; [|discriminate].
    cbn in Hb. injection Hb as <- <- <-.
    apply choice_In in Hc. destruct Hc as [Hin _].
    exists n. split; [reflexivity|]. eapply materialize_from; eassumption.
  - destruct (function_branch _ _ _ _ _ _ _ _ _) as [[[[prog' stack']|] g2]|e]
      eqn:Hb; try discriminate.
    intros H. injection H as <-.
    unfold function_branch, bind_M, lift in Hb.
    destruct (feasible_functions _ _ _ _ _ _ _ _) as [vf|e] eqn:Hvf;
      [|discriminate].
    unfold feasible_functions in Hvf.
    destruct (is_nil vf) eqn:Hnil; [discriminate|].
    destruct (choice vf g1) as [[f g3]|e] eqn:Hc; [|discriminate].
    cbn in Hb. injection Hb as <- <- <-.
    apply choice_In in Hc. destruct Hc as [Hin _].
    assert (Hvalid : In f (valid_functions_of ps rt size (max_size b))).
    { destruct (negb _ && _).
      - eapply size_feasible_incl; eassumption.
      - injection Hvf as <-. assumption. }
    apply valid_functions_of_In in Hvalid. destruct Hvalid as [Hp Hsz].
    exists (NPrimitive f). split; [reflexivity|exact Hp].
Qed.

(** X1: every node of a program returned by [generate_grow] comes from
    the primitive set: a function node is one of
    [primitives[ret_type]], a variable node is a terminal object of
    [terminals[ret_type]], and a constant node holds a value of the pool
    of one of its ephemeral classes. *)
Theorem generate_grow_nodes_from_set (ps : PrimitiveSet) (b : bounds)
    (dt : trait) (rt : option pytype) (g g' : rng) (p : list node) :
  generate_grow ps b dt rt g = Some (Program p, g') ->
  Forall (node_from ps (resolve_ret_type ps rt)) p.
Proof.
  intros Hrun. unfold generate_grow in Hrun.
  apply (generate_program_inv ps b dt rt g g' _
           (fun s => Forall (node_from ps (resolve_ret_type ps rt)) (program s)))
    in Hrun.
  - destruct Hrun as [(e & He & _)|(dv & g1 & s_end & _ & Hinv & Hend)];
      [discriminate|].
    apply loop_body_Program in Hend. destruct Hend as [_ ->]. exact Hinv.
  - intros g1. constructor.
  - intros dv s s' HP Hstep.
    apply loop_body_node_from in Hstep. destruct Hstep as (n & -> & Hn).
    apply Forall_app. split; [exact HP|]. constructor; [exact Hn|constructor].
Qed.

Lemma generate_grow_nodes_from_set_witness :
  generate_grow pset_erc (mkBounds 0 3 1 4) BySize None (constant_rng 0)
    = Some (Program [NConstant (1 # 2)], mkRng (fun _ => 0%N) 3) /\
  Forall (node_from pset_erc (resolve_ret_type pset_erc None))
         [NConstant (1 # 2)].
Proof.
  split; [vm_compute; reflexivity|].
  apply (generate_grow_nodes_from_set pset_erc (mkBounds 0 3 1 4) BySize None
           (constant_rng 0) (mkRng (fun _ => 0%N) 3)).
  vm_compute. reflexivity.
Defined.

(** ** [None] is a matter of size targeting *)

Lemma loop_body_Infeasible_inv (ps : PrimitiveSet) (b : bounds) (dt : trait)
    (rt : pytype) (dv : Z) (s : state) (g : rng) :
  loop_body ps b dt rt dv s = Done Infeasible g ->
  exists depth size rest g1,
    stack s = (depth, size) :: rest /\
    terminal_condition rest depth size rt ps b dt dv (gen s) = Ok (false, g1) /\
    feasible_functions ps b dt rt dv rest depth size = Ok [].
Proof.
  unfold loop_body.
  destruct (stack s) as [|[depth size] rest]; [discriminate|].
  destruct (terminal_condition _ _ _ _ _ _ _ _ _) as [[[|] g1]|e] eqn:Htc;
    [| |discriminate].
  - destruct (terminal_branch _ _ _ _ _ _) as [[[prog' stack'] g2]|e];
      discriminate.
  - destruct (function_branch _ _ _ _ _ _ _ _ _) as [[[[prog' stack']|] g2]|e]
      eqn:Hb; try discriminate.
    intros _. exists depth, size, rest, g1.
    split; [reflexivity|]. split; [exact Htc|].
    unfold function_branch, bind_M, lift in Hb.
    destruct (feasible_functions _ _ _ _ _ _ _ _) as [vf|e]; [|discriminate].
    destruct vf as [|f vf]; [reflexivity|].
    cbn [is_nil] in Hb.
    destruct (choice (f :: vf) g1) as [[f' g3]|e]; discriminate.
Qed.

(** A [False] answer of [terminal_condition], with a terminal at hand,
    means that some function is valid and the targets are not reached. *)
Lemma terminal_condition_false_targets (stk : list obligation)
    (depth size : Z) (rt : pytype) (ps : PrimitiveSet) (b : bounds)
    (dt : trait) (dv : Z) (g g1 : rng) :
  terminals ps rt <> [] ->
  terminal_condition stk depth size rt ps b dt dv g = Ok (false, g1) ->
  valid_functions_of ps rt size (max_size b) <> [] /\
  depth <> max_depth b /\
  (is_depth dt = true -> depth <> dv) /\
  (is_size dt = true -> size < dv).
Proof.
  intros Hne. unfold terminal_condition, bind_M, lift.
  destruct (if is_nil stk then _ else _) as [mps|e]; [|discriminate].
  destruct (terminals ps rt); [contradiction|].
  cbn [is_nil].
  destruct (valid_functions_of ps rt size (max_size b)) as [|f vf];
    cbn [is_nil orb]; [discriminate|].
  destruct (depth =? max_depth b) eqn:Ed; cbn [orb]; [discriminate|].
  destruct (size =? max_size b) eqn:Es; cbn [orb]; [discriminate|].
  destruct (is_depth dt && (depth =? dv)) eqn:E1; cbn [orb]; [discriminate|].
  destruct (is_size dt && (dv <=? size)) eqn:E2; cbn [orb]; [discriminate|].
  intros _. apply Z.eqb_neq in Ed.
  split; [discriminate|]. split; [exact Ed|]. split.
  - intros Hd. rewrite Hd in E1. cbn in E1. apply Z.eqb_neq in E1. exact E1.
  - intros Hs. rewrite Hs in E2. cbn in E2. apply Z.leb_gt in E2. exact E2.
Qed.

(** X2: when the set has a terminal of the return type and
    [desired_trait] is not ['size'], [generate_grow] never returns
    [None]: the [return None] of the function branch is only reached
    through the size filter. *)
Theorem generate_grow_None_only_by_size (ps : PrimitiveSet) (b : bounds)
    (dt : trait) (rt : option pytype) (g g' : rng) (o : outcome) :
  terminals ps (resolve_ret_type ps rt) <> [] ->
  is_size dt = false ->
  generate_grow ps b dt rt g = Some (o, g') ->
  o <> Infeasible.
Proof.
  intros Hterm Hdt Hrun ->. unfold generate_grow in Hrun.
  apply (generate_program_inv ps b dt rt g g' _ (fun _ => True)) in Hrun;
    [|trivial|trivial].
  destruct Hrun as [(e & He & _)|(dv & g1 & s_end & _ & _ & Hend)];
    [discriminate|].
  apply loop_body_Infeasible_inv in Hend.
  destruct Hend as (depth & size & rest & g2 & _ & Htc & Hff).
  apply (terminal_condition_false_targets _ _ _ _ _ _ _ _ _ _ Hterm) in Htc.
  destruct Htc as [Hvf _].
  unfold feasible_functions in Hff. rewrite Hdt, andb_false_r in Hff.
  injection Hff as Hff. contradiction.
Qed.

Lemma generate_grow_None_only_by_size_witness :
  generate_grow pset_add (mkBounds 0 2 1 7) ByDepth None
    (constant_rng 4503599627370497)
    = Some (Program
              [NPrimitive add; NPrimitive add; NTerminal "v0"; NTerminal "v0";
               NPrimitive add; NTerminal "v0"; NTerminal "v0"],
            mkRng (fun _ => 4503599627370497%N) 11) /\
  Program [NPrimitive add; NPrimitive add; NTerminal "v0"; NTerminal "v0";
           NPrimitive add; NTerminal "v0"; NTerminal "v0"] <> Infeasible.
Proof.
  split; [vm_compute; reflexivity|].
  apply (generate_grow_None_only_by_size pset_add (mkBounds 0 2 1 7) ByDepth
           None (constant_rng 4503599627370497)
           (mkRng (fun _ => 4503599627370497%N) 11)).
  - cbn. discriminate.
  - reflexivity.
  - vm_compute. reflexivity.
Defined.

(** ** Runs seen with their drawn [desired_value] *)

Lemma draw_desired_value_range (b : bounds) (dt : trait) (g g1 : rng)
    (dv : Z) :
  draw_desired_value b dt g = Ok (dv, g1) ->
  g1 = snd (draw g) /\
  (if is_depth dt then min_depth b <= dv <= max_depth b
   else min_size b <= dv <= max_size b).
Proof.
  unfold draw_desired_value. destruct (is_depth dt); intros H;
    apply randint_range in H; destruct H as [H1 H2]; split; assumption.
Qed.

Lemma generate_program_run (ps : PrimitiveSet) (b : bounds) (dt : trait)
    (rt : option pytype) (g g' : rng) (o : outcome) :
  generate_program_ ps b dt rt g = Some (o, g') ->
  (exists e, o = Raised e /\ g' = g /\ draw_desired_value b dt g = Raise e) \/
  (exists dv g1,
     draw_desired_value b dt g = Ok (dv, g1) /\
     forall P : state -> Prop,
       P (initial_state g1) ->
       (forall s s', P s ->
          loop_body ps b dt (resolve_ret_type ps rt) dv s = Continue s' ->
          P s') ->
       exists s_end,
         P s_end /\
         loop_body ps b dt (resolve_ret_type ps rt) dv s_end = Done o g').
Proof.
  unfold generate_program_.
  destruct (draw_desired_value b dt g) as [[dv g1]|e].
  - intros H. right. exists dv, g1. split; [reflexivity|].
    intros P Hinit Hpres.
    exact (loop_invariant ps b dt (resolve_ret_type ps rt) dv P Hpres
             _ _ _ _ Hinit H).
  - intros H. injection H as <- <-. left. eauto.
Qed.

Lemma loop_body_Program_gen (ps : PrimitiveSet) (b : bounds) (dt : trait)
    (rt : pytype) (dv : Z) (s : state) (p : list node) (g : rng) :
  loop_body ps b dt rt dv s = Done (Program p) g -> g = gen s.
Proof.
  unfold loop_body.
  destruct (stack s) as [|[depth size] rest].
  - intros H. injection H as _ <-. reflexivity.
  - destruct (terminal_condition _ _ _ _ _ _ _ _ _) as [[[|] g1]|e];
      [| |discriminate].
    + destruct (terminal_branch _ _ _ _ _ _) as [[[prog' stack'] g2]|e];
        discriminate.
    + destruct (function_branch _ _ _ _ _ _ _ _ _) as [[[[prog' stack']|] g2]|e];
        discriminate.
Qed.

Lemma max_arity_of_ge (fs : list Primitive) (f : Primitive) :
  In f fs -> Z.pos (arity f) <= max_arity_of fs.
Proof.
  unfold max_arity_of. induction fs as [|x fs IH]; cbn; [contradiction|].
  intros [->|H]; [lia|]. specialize (IH H). lia.
Qed.

(** X3: under depth targeting, with a terminal of the return type and
    [min_depth >= 0], the tree [generate_grow] returns is never deeper
    than the [desired_value] drawn at entry, which lies in
    [[min_depth, max_depth]]. *)
Theorem depth_target_caps_height (ps : PrimitiveSet) (b : bounds)
    (rt : option pytype) (g g' : rng) (p : list node) :
  terminals ps (resolve_ret_type ps rt) <> [] ->
  0 <= min_depth b ->
  generate_grow ps b ByDepth rt g = Some (Program p, g') ->
  exists dv g1 h,
    draw_desired_value b ByDepth g = Ok (dv, g1) /\
    min_depth b <= dv <= max_depth b /\
    height p = Some h /\ 0 <= h <= dv.
Proof.
  intros Hterm Hmin Hrun. unfold generate_grow in Hrun.
  apply generate_program_run in Hrun.
  destruct Hrun as [(e & He & _)|(dv & g1 & Hdraw & Hrun)]; [discriminate|].
  pose proof (draw_desired_value_range _ _ _ _ _ Hdraw) as [_ Hdv].
  cbn [is_depth] in Hdv.
  destruct (Hrun (fun s => exists m,
              height_scan (program s) [0] 0 = Some (map fst (stack s), m) /\
              0 <= m <= dv /\
              Forall (fun d => d <= dv) (map fst (stack s))))
    as (s_end & (m & Hscan & Hm & _) & Hend).
  - exists 0. cbn. repeat split; try lia.
    constructor; [lia|constructor].
  - intros s s' (m & Hscan & Hm & Hall) Hstep.
    apply loop_body_Continue in Hstep.
    destruct Hstep as [(depth & size & rest & n & g2 & Hs & _ & Hn & Hp & Hs')
                      |(depth & size & rest & f & g2 & Hs & Htc & _ & _ & Hp & Hs')].
    + rewrite Hs in Hscan, Hall. cbn [map fst] in *.
      assert (Hst : map fst (stack s') = map fst rest).
      { rewrite Hs'. destruct rest as [|[d2 s2] r2]; reflexivity. }
      exists (Z.max m depth). rewrite Hp, height_scan_snoc, Hscan, Hn, Hst. cbn.
      apply Forall_cons_iff in Hall. destruct Hall as [Hx Hxs].
      repeat split; try lia. assumption.
    + apply (terminal_condition_false_targets _ _ _ _ _ _ _ _ _ _ Hterm) in Htc.
      destruct Htc as (_ & _ & Hd & _). specialize (Hd eq_refl).
      rewrite Hs in Hscan, Hall. cbn [map fst] in *.
      apply Forall_cons_iff in Hall. destruct Hall as [Hx Hxs].
      exists (Z.max m depth).
      rewrite Hp, Hs', height_scan_snoc, Hscan, map_app, map_fst_repeat.
      cbn [node_arity]. repeat split; try lia.
      apply Forall_app. split; [|assumption].
      apply Forall_forall. intros d Hd'. apply repeat_spec in Hd'. lia.
  - apply loop_body_Program in Hend. destruct Hend as [Hstk ->].
    exists dv, g1, m. rewrite Hstk in Hscan. cbn [map] in Hscan.
    unfold height. rewrite Hscan. repeat split; try lia; assumption.
Qed.

Lemma depth_target_caps_height_witness :
  exists dv g1 h,
    draw_desired_value (mkBounds 0 2 1 7) ByDepth
      (constant_rng 4503599627370497) = Ok (dv, g1) /\
    min_depth (mkBounds 0 2 1 7) <= dv <= max_depth (mkBounds 0 2 1 7) /\
    height [NPrimitive add; NPrimitive add; NTerminal "v0"; NTerminal "v0";
            NPrimitive add; NTerminal "v0"; NTerminal "v0"] = Some h /\
    0 <= h <= dv.
Proof.
  apply (depth_target_caps_height pset_add (mkBounds 0 2 1 7) None
           (constant_rng 4503599627370497)
           (mkRng (fun _ => 4503599627370497%N) 11)).
  - cbn. discriminate.
  - cbn. lia.
  - vm_compute. reflexivity.
Defined.

(** X4: under size targeting with [min_size >= 1], a program
    [generate_grow] returns has at most [desired_value + A - 1] nodes,
    where [desired_value] is the size drawn at entry and [A] the largest
    arity of the set ([1] when it has no function): the drawn size is
    overshot by less than the arguments of one function. *)
Theorem size_target_overshoot (ps : PrimitiveSet) (b : bounds)
    (rt : option pytype) (g g' : rng) (p : list node) :
  1 <= min_size b ->
  generate_grow ps b BySize rt g = Some (Program p, g') ->
  exists dv g1,
    draw_desired_value b BySize g = Ok (dv, g1) /\
    min_size b <= dv <= max_size b /\
    program_size p <= dv + arity_bound ps (resolve_ret_type ps rt) - 1.
Proof.
  intros Hmin Hrun. unfold generate_grow in Hrun.
  pose proof (no_terminal_no_program ps b BySize rt g g' (Program p)) as Hnt.
  assert (Hterm : terminals ps (resolve_ret_type ps rt) <> []).
  { intros Hnil. exact (Hnt Hnil Hrun p eq_refl). }
  clear Hnt.
  apply generate_program_run in Hrun.
  destruct Hrun as [(e & He & _)|(dv & g1 & Hdraw & Hrun)]; [discriminate|].
  pose proof (draw_desired_value_range _ _ _ _ _ Hdraw) as [_ Hdv].
  cbn [is_depth] in Hdv.
  set (A := arity_bound ps (resolve_ret_type ps rt)).
  assert (HA : 1 <= A) by (unfold A, arity_bound; lia).
  destruct (Hrun (fun s => size_inv s /\
              Z.of_nat (List.length (program s) + List.length (stack s))
              <= dv + A - 1))
    as (s_end & (_ & Htot) & Hend).
  - split; [apply size_inv_initial|]. cbn. lia.
  - intros s s' (Hsz & Htot) Hstep.
    split; [eapply size_inv_step; eassumption|].
    apply loop_body_Continue in Hstep.
    destruct Hstep as [(depth & size & rest & n & g2 & Hs & _ & Hn & Hp & Hs')
                      |(depth & size & rest & f & g2 & Hs & Htc & Hin & _ & Hp & Hs')].
    + rewrite Hs in Htot. cbn [List.length] in Htot.
      assert (Hlen : List.length (stack s') = List.length rest).
      { rewrite Hs'. destruct rest as [|[d2 s2] r2]; reflexivity. }
      rewrite Hp, Hlen, length_app. cbn [List.length].
      unfold obligation in *. lia.
    + pose proof (Hsz _ _ _ Hs) as Hsize.
      apply (terminal_condition_false_targets _ _ _ _ _ _ _ _ _ _ Hterm) in Htc.
      destruct Htc as (_ & _ & _ & Hlt). specialize (Hlt eq_refl).
      apply max_arity_of_ge in Hin.
      assert (HfA : Z.pos (arity f) <= A) by (unfold A, arity_bound; lia).
      rewrite Hs in Hsize. cbn [List.length] in Hsize.
      rewrite Hp, Hs', !length_app, repeat_length. cbn [List.length].
      pose proof (positive_nat_Z (arity f)) as Haz.
      unfold obligation in *. lia.
  - apply loop_body_Program in Hend. destruct Hend as [Hstk ->].
    exists dv, g1. rewrite Hstk in Htot. cbn [List.length] in Htot.
    unfold program_size. repeat split; try lia; assumption.
Qed.

Lemma size_target_overshoot_witness :
  exists dv g1,
    draw_desired_value (mkBounds 0 3 4 4) BySize (constant_rng 3)
      = Ok (dv, g1) /\
    min_size (mkBounds 0 3 4 4) <= dv <= max_size (mkBounds 0 3 4 4) /\
    program_size [NPrimitive add; NTerminal "v0"; NTerminal "v0"]
    <= dv + arity_bound pset_add (resolve_ret_type pset_add None) - 1.
Proof.
  apply (size_target_overshoot pset_add (mkBounds 0 3 4 4) None
           (constant_rng 3) (mkRng (fun _ => 3%N) 4)).
  - cbn. lia.
  - vm_compute. reflexivity.
Defined.

(** X9: a call of [generate_grow] that returns a program of [n] nodes
    has read the random stream sequentially and advanced it by at least
    [n + 1] and at most [3 * n + 1] draws (one for [desired_value], one
    to three per node). *)
Theorem generate_grow_draw_count (ps : PrimitiveSet) (b : bounds)
    (dt : trait) (rt : option pytype) (g g' : rng) (p : list node) :
  generate_grow ps b dt rt g = Some (Program p, g') ->
  stream g' = stream g /\
  (pos g + 1 + List.length p <= pos g' <= pos g + 1 + 3 * List.length p)%nat.
Proof.
  intros Hrun. unfold generate_grow in Hrun.
  apply generate_program_run in Hrun.
  destruct Hrun as [(e & He & _)|(dv & g1 & Hdraw & Hrun)]; [discriminate|].
  pose proof (draw_desired_value_range _ _ _ _ _ Hdraw) as [-> _].
  destruct (Hrun (fun s =>
              stream (gen s) = stream g /\
              (pos g + 1 + List.length (program s) <= pos (gen s)
               <= pos g + 1 + 3 * List.length (program s))%nat))
    as (s_end & (Hstr & Hpos) & Hend).
  - cbn. split; [reflexivity|lia].
  - intros s s' (Hstr & Hpos) Hstep.
    pose proof (loop_body_draws _ _ _ _ _ _ _ Hstep) as [Hstr' Hpos'].
    apply loop_body_node_from in Hstep. destruct Hstep as (n & Hp & _).
    rewrite Hp, length_app. cbn [List.length].
    split; [congruence|lia].
  - pose proof (loop_body_Program_gen _ _ _ _ _ _ _ _ Hend) as ->.
    apply loop_body_Program in Hend. destruct Hend as [_ ->].
    split; assumption.
Qed.

Lemma generate_grow_draw_count_witness :
  stream (mkRng (fun _ => 0%N) 3) = stream (constant_rng 0) /\
  (pos (constant_rng 0) + 1 + List.length [NConstant (1 # 2)]
   <= pos (mkRng (fun _ => 0%N) 3)
   <= pos (constant_rng 0) + 1 + 3 * List.length [NConstant (1 # 2)])%nat.
Proof.
  apply (generate_grow_draw_count pset_erc (mkBounds 0 3 1 4) BySize None).
  vm_compute. reflexivity.
Defined.

(** ** Runs without exceptions *)

Lemma complete_size_mono (m A : Z) (k K : nat) :
  1 <= m <= A -> (k <= K)%nat -> complete_size m k <= complete_size A K.
Proof.
  intros Hm. revert K. induction k as [|k IH]; intros K Hk.
  - pose proof (complete_size_pos A K). cbn. lia.
  - destruct K as [|K]; [lia|]. cbn [complete_size].
    specialize (IH K ltac:(lia)).
    pose proof (complete_size_pos m k). nia.
Qed.

Lemma get_max_size_returns (m A d D : Z) :
  1 <= m <= A -> 0 <= d <= D ->
  complete_size A (Z.to_nat D) < 2 ^ 53 ->
  get_max_size m d = Ok (complete_size m (Z.to_nat d)).
Proof.
  intros Hm Hd HA. apply get_max_size_exact; try lia.
  pose proof (complete_size_mono m A (Z.to_nat d) (Z.to_nat D) Hm). lia.
Qed.

Lemma remaining_budget_returns (stk : list obligation) (m A D : Z) :
  1 <= m <= A ->
  Forall (fun o : obligation => 0 <= fst o <= D) stk ->
  complete_size A (Z.to_nat D) < 2 ^ 53 ->
  exists s, remaining_budget stk m D = Ok s.
Proof.
  intros Hm Hall HA. induction Hall as [|[d sz] stk Hd _ IH]; cbn.
  - eauto.
  - destruct IH as [s ->]. cbn in Hd |- *.
    rewrite (get_max_size_returns m A (D - d) D); [|lia|lia|assumption].
    cbn. eauto.
Qed.

Lemma max_arity_of_filter (keep : Primitive -> bool) (fs : list Primitive) :
  max_arity_of (filter keep fs) <= max_arity_of fs.
Proof.
  unfold max_arity_of. induction fs as [|f fs IH]; cbn; [lia|].
  destruct (keep f); cbn; lia.
Qed.

Lemma max_arity_of_pos (fs : list Primitive) :
  fs <> [] -> 1 <= max_arity_of fs.
Proof.
  destruct fs as [|f fs]; [contradiction|]. intros _. cbn. lia.
Qed.

(** The arity [terminal_condition] and the size filter pass to
    [get_max_size]. *)
Lemma valid_arity_bound (ps : PrimitiveSet) (rt : pytype) (size mx : Z) :
  1 <= (if is_nil (valid_functions_of ps rt size mx) then 1
        else max_arity_of (valid_functions_of ps rt size mx))
    <= arity_bound ps rt.
Proof.
  unfold arity_bound.
  pose proof (max_arity_of_filter
                (fun f => size + Z.pos (arity f) <=? mx) (primitives ps rt)) as H.
  fold (valid_functions_of ps rt size mx) in H.
  destruct (valid_functions_of ps rt size mx) as [|f vf] eqn:E; cbn [is_nil].
  - lia.
  - pose proof (max_arity_of_pos (f :: vf) ltac:(discriminate)). lia.
Qed.

Lemma terminal_condition_returns (stk : list obligation) (depth size : Z)
    (rt : pytype) (ps : PrimitiveSet) (b : bounds) (dt : trait) (dv : Z)
    (g : rng) :
  Forall (fun o : obligation => 0 <= fst o <= max_depth b) stk ->
  complete_size (arity_bound ps rt) (Z.to_nat (max_depth b)) < 2 ^ 53 ->
  exists r g1, terminal_condition stk depth size rt ps b dt dv g = Ok (r, g1).
Proof.
  intros Hall HA. unfold terminal_condition, bind_M, lift.
  pose proof (valid_arity_bound ps rt size (max_size b)) as Hm.
  destruct (remaining_budget_returns stk _ _ _ Hm Hall HA) as [s ->].
  cbn [bind].
  destruct (is_nil stk);
    (destruct (is_nil (terminals ps rt)); [unfold ret_M; eauto|]);
    (match goal with
     | |- context [if ?c then ret_M true else _] => destruct c
     end; [unfold ret_M; eauto|]);
    (match goal with
     | |- context [if ?c then random_lt _ else _] => destruct c
     end; [unfold random_lt; destruct (draw g); eauto|unfold ret_M; eauto]).
Qed.

Lemma choice_returns {A : Type} (l : list A) (g : rng) :
  l <> [] -> exists x, choice l g = Ok (x, snd (draw g)).
Proof.
  destruct l as [|a l]; [contradiction|]. intros _.
  unfold choice, draw; cbv beta iota zeta. eauto.
Qed.

Lemma materialize_returns (ps : PrimitiveSet) (rt : pytype) (t : Terminal)
    (g : rng) :
  pools_nonempty ps rt -> In t (terminals ps rt) ->
  exists n g', materialize t g = Ok (n, g').
Proof.
  intros Hpool Hin. destruct t as [name|name consts]; cbn.
  - unfold ret_M. eauto.
  - specialize (Hpool _ _ Hin).
    assert (Hlen : 0 <= Z.of_nat (List.length consts) - 1).
    { destruct consts; [contradiction|]. cbn [List.length]. lia. }
    destruct (randint_ok 0 _ g Hlen) as [i Hi].
    unfold bind_M. rewrite Hi. unfold ret_M. eauto.
Qed.

Lemma terminal_branch_returns (ps : PrimitiveSet) (rt : pytype)
    (prog : list node) (rest : list obligation) (size : Z) (g : rng) :
  terminals ps rt <> [] -> pools_nonempty ps rt ->
  exists r g', terminal_branch ps rt prog rest size g = Ok (r, g').
Proof.
  intros Hterm Hpool. unfold terminal_branch, bind_M.
  destruct (choice_returns (terminals ps rt) g Hterm) as [t Ht].
  rewrite Ht. apply choice_In in Ht. destruct Ht as [Hin _].
  destruct (materialize_returns ps rt t (snd (draw g)) Hpool Hin)
    as (n & g' & ->).
  unfold ret_M. eauto.
Qed.

Lemma size_feasible_returns (fs : list Primitive) (stk : list obligation)
    (depth size m A : Z) (b : bounds) (dv : Z) :
  1 <= m <= A ->
  0 <= depth < max_depth b ->
  Forall (fun o : obligation => 0 <= fst o <= max_depth b) stk ->
  complete_size A (Z.to_nat (max_depth b)) < 2 ^ 53 ->
  exists out, size_feasible fs stk depth size m b dv = Ok out.
Proof.
  intros Hm Hd Hall HA. induction fs as [|f fs IH]; cbn.
  - eauto.
  - rewrite (get_max_size_returns m A (max_depth b - (depth + 1)) (max_depth b));
      [|lia|lia|assumption].
    cbn [bind].
    destruct (remaining_budget_returns stk _ _ _ Hm Hall HA) as [s ->].
    destruct IH as [out ->].
    destruct (is_nil stk); cbn; eauto.
Qed.

Lemma function_branch_returns (ps : PrimitiveSet) (b : bounds) (dt : trait)
    (rt : pytype) (dv : Z) (prog : list node) (rest : list obligation)
    (depth size : Z) (g : rng) :
  0 <= depth < max_depth b ->
  Forall (fun o : obligation => 0 <= fst o <= max_depth b) rest ->
  complete_size (arity_bound ps rt) (Z.to_nat (max_depth b)) < 2 ^ 53 ->
  exists r g', function_branch ps b dt rt dv prog rest depth size g = Ok (r, g').
Proof.
  intros Hd Hall HA. unfold function_branch, bind_M, lift.
  assert (Hff : exists vf,
             feasible_functions ps b dt rt dv rest depth size = Ok vf).
  { unfold feasible_functions.
    destruct (negb _ && _) eqn:E; [|eauto].
    apply andb_prop in E. destruct E as [E _].
    pose proof (valid_arity_bound ps rt size (max_size b)) as Hm.
    apply negb_true_iff in E. rewrite E in Hm.
    eapply size_feasible_returns; eassumption. }
  destruct Hff as [vf ->].
  destruct vf as [|f vf]; cbn [is_nil].
  - unfold ret_M. eauto.
  - destruct (choice_returns (f :: vf) g ltac:(discriminate)) as [x ->].
    unfold ret_M. eauto.
Qed.

Lemma depth_inv_initial (b : bounds) (g : rng) :
  0 <= max_depth b -> depth_inv b (initial_state g).
Proof.
  intros H. unfold depth_inv. cbn. constructor; [cbn; lia|constructor].
Qed.

Lemma depth_inv_step (ps : PrimitiveSet) (b : bounds) (dt : trait)
    (rt : pytype) (dv : Z) (s s' : state) :
  terminals ps rt <> [] ->
  depth_inv b s ->
  loop_body ps b dt rt dv s = Continue s' ->
  depth_inv b s'.
Proof.
  unfold depth_inv. intros Hterm Hall Hstep.
  apply loop_body_Continue in Hstep.
  destruct Hstep as [(depth & size & rest & n & g1 & Hs & _ & _ & _ & Hs')
                    |(depth & size & rest & f & g1 & Hs & Htc & _ & _ & _ & Hs')];
    rewrite Hs in Hall; rewrite Hs';
    apply Forall_cons_iff in Hall; destruct Hall as [Hx Hxs]; cbn in Hx.
  - destruct rest as [|[d2 s2] r2]; cbn [carry_forward]; [constructor|].
    apply Forall_cons_iff in Hxs. destruct Hxs as [Hy Hys].
    constructor; assumption.
  - apply (terminal_condition_false_targets _ _ _ _ _ _ _ _ _ _ Hterm) in Htc.
    destruct Htc as (_ & Hd & _).
    apply Forall_app. split; [|assumption].
    apply Forall_forall. intros o Ho. apply repeat_spec in Ho. subst o.
    cbn. lia.
Qed.

Lemma loop_body_no_exception (ps : PrimitiveSet) (b : bounds) (dt : trait)
    (rt : pytype) (dv : Z) (s : state) (e : exn) (g : rng) :
  terminals ps rt <> [] ->
  pools_nonempty ps rt ->
  complete_size (arity_bound ps rt) (Z.to_nat (max_depth b)) < 2 ^ 53 ->
  depth_inv b s ->
  loop_body ps b dt rt dv s <> Done (Raised e) g.
Proof.
  unfold depth_inv. intros Hterm Hpool HA Hall. unfold loop_body.
  destruct (stack s) as [|[depth size] rest]; [discriminate|].
  apply Forall_cons_iff in Hall. destruct Hall as [Hx Hxs]. cbn in Hx.
  destruct (terminal_condition_returns rest depth size rt ps b dt dv (gen s)
              Hxs HA) as (r & g1 & Htc).
  rewrite Htc. destruct r.
  - destruct (terminal_branch_returns ps rt (program s) rest size g1 Hterm Hpool)
      as ([prog' stack'] & g2 & ->).
    discriminate.
  - apply (terminal_condition_false_targets _ _ _ _ _ _ _ _ _ _ Hterm) in Htc.
    destruct Htc as (_ & Hd & _).
    destruct (function_branch_returns ps b dt rt dv (program s) rest depth size
                g1 ltac:(lia) Hxs HA) as ([[prog' stack']|] & g2 & ->);
      discriminate.
Qed.

(** X8: with a terminal of the return type, no empty constant pool, a
    non-empty range for the [desired_value] draw, [max_depth >= 0] and a
    complete tree of the largest arity and depth [max_depth] below
    [2^53] nodes, [generate_grow] returns and never raises: its result
    is a program or [None]. *)
Theorem generate_grow_no_exception (ps : PrimitiveSet) (b : bounds)
    (dt : trait) (rt : option pytype) (g : rng) :
  terminals ps (resolve_ret_type ps rt) <> [] ->
  pools_nonempty ps (resolve_ret_type ps rt) ->
  0 <= max_depth b ->
  (if is_depth dt then min_depth b <= max_depth b
   else min_size b <= max_size b) ->
  complete_size (arity_bound ps (resolve_ret_type ps rt))
                (Z.to_nat (max_depth b)) < 2 ^ 53 ->
  exists o g',
    generate_grow ps b dt rt g = Some (o, g') /\ forall e, o <> Raised e.
Proof.
  intros Hterm Hpool Hd Hrange HA. unfold generate_grow, generate_program_.
  assert (Hdraw : exists dv, draw_desired_value b dt g = Ok (dv, snd (draw g))).
  { unfold draw_desired_value. destruct (is_depth dt); apply randint_ok, Hrange. }
  destruct Hdraw as [dv ->].
  destruct (loop_enough_fuel ps b dt (resolve_ret_type ps rt) dv
              (measure b (initial_state (snd (draw g))))
              (initial_state (snd (draw g))) (le_n _)) as (o & g' & Hrun).
  exists o, g'. split; [exact Hrun|].
  intros e ->.
  apply (loop_invariant ps b dt (resolve_ret_type ps rt) dv (depth_inv b))
    in Hrun.
  - destruct Hrun as (s_end & Hinv & Hend).
    exact (loop_body_no_exception _ _ _ _ _ _ _ _ Hterm Hpool HA Hinv Hend).
  - intros s s'. apply depth_inv_step. exact Hterm.
  - apply depth_inv_initial. exact Hd.
Qed.

Lemma generate_grow_no_exception_witness :
  exists o g',
    generate_grow pset_erc (mkBounds 0 3 1 4) BySize None (constant_rng 0)
      = Some (o, g') /\ forall e, o <> Raised e.
Proof.
  apply (generate_grow_no_exception pset_erc (mkBounds 0 3 1 4) BySize None
           (constant_rng 0)).
  - cbn. discriminate.
  - intros name consts [H|[]]. injection H as _ <-. discriminate.
  - cbn. lia.
  - cbn. lia.
  - vm_compute. reflexivity.
Defined.

(** ** Lower bounds of [get_max_size], at every magnitude *)

(** A quotient of at least one is rounded to a value of at least one. *)
Lemma round_pos_ge_one (A B m e : Z) :
  0 < B <= A -> Float.round_pos A B = (m, e) ->
  1 <= (if 0 <=? e then m * 2 ^ e else m / 2 ^ (- e)).
Proof.
  intros HAB Hr.
  destruct (Float.scaled A B (Float.normal_expo A B)) as [n d] eqn:Hs.
  destruct (normal_expo_spec A B n d ltac:(lia) ltac:(lia) Hs)
    as ([Hlo Hhi] & Hd).
  pose proof Hs as Hs'. rewrite scaled_spec in Hs'. injection Hs' as Hn' Hd'.
  set (en := Float.normal_expo A B) in *.
  assert (He : -52 <= en).
  { destruct (Z_le_gt_dec (-52) en) as [|Hlow]; [assumption|exfalso].
    rewrite (Z.max_l (- en) 0), (Z.max_r en 0) in * by lia.
    rewrite Z.pow_0_r, Z.mul_1_r in Hd'.
    assert (2 ^ 53 <= 2 ^ (- en)) by (apply Z.pow_le_mono_r; lia).
    subst n d. nia. }
  unfold Float.round_pos in Hr. fold en in Hr.
  rewrite (Z.max_l en (-1074)) in Hr by lia.
  rewrite Hs in Hr. cbv zeta in Hr.
  assert (Hq : 2 ^ 52 <= n / d) by (apply Z.div_le_lower_bound; lia).
  assert (Hm : 2 ^ 52 <= m).
  { injection Hr as <- _. destruct (_ || _); lia. }
  injection Hr as _ <-.
  destruct (0 <=? en) eqn:E.
  - apply Z.leb_le in E.
    assert (0 < 2 ^ en) by (apply Z.pow_pos_nonneg; lia).
    assert (0 < 2 ^ 52) by (apply Z.pow_pos_nonneg; lia). nia.
  - apply Z.leb_gt in E.
    assert (0 < 2 ^ (- en)) by (apply Z.pow_pos_nonneg; lia).
    assert (2 ^ (- en) <= 2 ^ 52) by (apply Z.pow_le_mono_r; lia).
    apply Z.div_le_lower_bound; lia.
Qed.

(** Whatever the rounding does, a tree of depth [d >= 0] counts at least
    its root. *)
Lemma get_max_size_ge_1 (m d v : Z) :
  1 <= m -> 0 <= d -> get_max_size m d = Ok v -> 1 <= v.
Proof.
  intros Hm Hd. unfold get_max_size.
  destruct (m =? 1) eqn:E1.
  - intros H. injection H as <-. lia.
  - apply Z.eqb_neq in E1.
    destruct (0 <=? d + 1) eqn:E2; [|apply Z.leb_gt in E2; lia].
    assert (Hpow : m <= m ^ (d + 1)).
    { replace (d + 1) with (Z.succ d) by lia. rewrite Z.pow_succ_r by lia.
      assert (0 < m ^ d) by (apply Z.pow_pos_nonneg; lia). nia. }
    assert (Ha : 1 - m ^ (d + 1) < 0) by lia.
    assert (Hb : 1 - m < 0) by lia.
    assert (Habs : 0 < Z.abs (1 - m) <= Z.abs (1 - m ^ (d + 1))) by lia.
    set (a := 1 - m ^ (d + 1)) in *. set (c := 1 - m) in *.
    unfold Float.truediv.
    destruct (c =? 0) eqn:Eb; [apply Z.eqb_eq in Eb; lia|].
    destruct (a =? 0) eqn:Ea; [apply Z.eqb_eq in Ea; lia|].
    destruct (Float.round_pos _ _) as [mm e] eqn:Hr.
    destruct (Float.overflows mm e); [discriminate|].
    cbn [bind]. intros H. injection H as <-.
    apply round_pos_ge_one in Hr; [|exact Habs].
    apply Z.ltb_lt in Ha, Hb. rewrite Ha, Hb.
    unfold Float.to_int. cbn [Float.neg Float.mant Float.expo negb Bool.eqb].
    exact Hr.
Qed.

(** X6: the budget [sum([get_max_size(max_arity, max_depth-d)-1 for
    (d,*_) in stack])] is never negative when [max_arity >= 1] and no
    pending depth exceeds [max_depth], whatever the float division of
    [get_max_size] rounds to: every term counts at least the root. *)
Theorem remaining_budget_nonneg (stk : list obligation) (m D s : Z) :
  1 <= m ->
  Forall (fun o : obligation => fst o <= D) stk ->
  remaining_budget stk m D = Ok s ->
  0 <= s.
Proof.
  intros Hm Hall. revert s.
  induction Hall as [|[d sz] stk Hd _ IH]; cbn; intros s H.
  - injection H as <-. lia.
  - destruct (remaining_budget stk m D) as [s'|e]; [|discriminate].
    cbn [bind] in H.
    destruct (get_max_size m (D - d)) as [v|e] eqn:Hv; [|discriminate].
    cbn in H, Hd. injection H as <-.
    apply get_max_size_ge_1 in Hv; [|lia|lia].
    specialize (IH s' eq_refl). lia.
Qed.

Lemma remaining_budget_nonneg_witness :
  remaining_budget [(1, 3); (2, 5)] 2 3 = Ok 8 /\ 0 <= 8.
Proof.
  split; [vm_compute; reflexivity|].
  apply (remaining_budget_nonneg [(1, 3); (2, 5)] 2 3 8).
  - lia.
  - repeat constructor; cbn; lia.
  - vm_compute. reflexivity.
Defined.

(** X7: for every [m], also zero or negative, [get_max_size(m, 0)] is
    [1] and [get_max_size(m, -1)] is [0]: the values the builder gets for
    an obligation at [max_depth] and for the children of a node at
    [max_depth]. *)
Theorem get_max_size_leaf_levels (m : Z) :
  get_max_size m 0 = Ok 1 /\ get_max_size m (-1) = Ok 0.
Proof.
  unfold get_max_size. destruct (m =? 1) eqn:E1; [split; reflexivity|].
  apply Z.eqb_neq in E1.
  change (0 + 1) with 1. change (-1 + 1) with 0.
  change (0 <=? 1) with true. change (0 <=? 0) with true. cbv iota.
  rewrite Z.pow_1_r, Z.pow_0_r. change (1 - 1) with 0.
  split.
  - destruct (truediv_exact (1 - m) (1 - m) 1) as (x & Hx & Hi); try lia.
    rewrite Hx. cbn [bind]. rewrite Hi. reflexivity.
  - unfold Float.truediv.
    destruct (1 - m =? 0) eqn:Eb; [apply Z.eqb_eq in Eb; lia|].
    cbn [Z.eqb bind]. unfold Float.to_int. cbn [Float.neg Float.mant Float.expo].
    destruct (1 - m <? 0); reflexivity.
Qed.

(** ** The size filter of the function branch *)

Lemma size_feasible_filter (fs : list Primitive) (stk : list obligation)
    (depth size m : Z) (b : bounds) (dv : Z) (out : list Primitive) :
  size_feasible fs stk depth size m b dv = Ok out ->
  (fs = [] /\ out = []) \/
  exists v s,
    get_max_size m (max_depth b - (depth + 1)) = Ok v /\
    (if is_nil stk then Ok 0 else remaining_budget stk m (max_depth b)) = Ok s /\
    out = filter (fun f => dv <=? size + Z.pos (arity f) * v + s) fs.
Proof.
  revert out. induction fs as [|f fs IH]; cbn [size_feasible filter];
    intros out H.
  - injection H as <-. left. split; reflexivity.
  - right.
    destruct (get_max_size m (max_depth b - (depth + 1))) as [v|e] eqn:Hv;
      [cbn [bind] in H|discriminate].
    assert (Hs : exists s,
               (if is_nil stk then Ok 0
                else remaining_budget stk m (max_depth b)) = Ok s /\
               (if is_nil stk then Ok (size + Z.pos (arity f) * v)
                else s0 <- remaining_budget stk m (max_depth b) ;;
                     Ok (size + Z.pos (arity f) * v + s0))
               = Ok (size + Z.pos (arity f) * v + s)).
    { destruct (is_nil stk).
      - exists 0. split; [reflexivity|]. f_equal. lia.
      - destruct (remaining_budget stk m (max_depth b)) as [s0|e];
          [|discriminate].
        exists s0. split; reflexivity. }
    destruct Hs as (s & Hs & Htot). rewrite Htot in H. cbn [bind] in H.
    destruct (size_feasible fs stk depth size m b dv) as [temp|e];
      [cbn [bind] in H|discriminate].
    injection H as <-. exists v, s. split; [reflexivity|]. split; [exact Hs|].
    destruct (IH temp eq_refl) as [[-> ->]|(v' & s' & Hv' & Hs' & ->)].
    + reflexivity.
    + injection Hv' as <-. rewrite Hs in Hs'. injection Hs' as <-.
      reflexivity.
Qed.

(** X5: the size filter of the function branch is monotone in the
    arity: below [max_depth] and with [max_arity >= 1], when it keeps a
    function it keeps every valid function of the same or a larger
    arity. *)
Theorem size_filter_monotone_in_arity (fs : list Primitive)
    (stk : list obligation) (depth size m : Z) (b : bounds) (dv : Z)
    (out : list Primitive) (f f' : Primitive) :
  1 <= m ->
  depth < max_depth b ->
  size_feasible fs stk depth size m b dv = Ok out ->
  In f out -> In f' fs -> (arity f <= arity f')%positive ->
  In f' out.
Proof.
  intros Hm Hd Hsf Hf Hf' Hle.
  apply size_feasible_filter in Hsf.
  destruct Hsf as [[-> _]|(v & s & Hv & _ & ->)]; [contradiction|].
  apply get_max_size_ge_1 in Hv; [|lia|lia].
  apply filter_In in Hf. destruct Hf as [_ Hf]. apply Z.leb_le in Hf.
  apply filter_In. split; [exact Hf'|]. apply Z.leb_le.
  assert (Z.pos (arity f) <= Z.pos (arity f')) by lia. nia.
Qed.

Lemma size_filter_monotone_in_arity_witness :
  size_feasible [sin; add; mkPrimitive "sub" 2] [] 0 1 2 (mkBounds 0 3 1 15) 10
    = Ok [add; mkPrimitive "sub" 2] /\
  In (mkPrimitive "sub" 2) [add; mkPrimitive "sub" 2].
Proof.
  split; [vm_compute; reflexivity|].
  apply (size_filter_monotone_in_arity [sin; add; mkPrimitive "sub" 2] [] 0 1 2
           (mkBounds 0 3 1 15) 10 [add; mkPrimitive "sub" 2] add
           (mkPrimitive "sub" 2)).
  - lia.
  - cbn. lia.
  - vm_compute. reflexivity.
  - left. reflexivity.
  - right. right. left. reflexivity.
  - cbn. lia.
Defined.

(** ** The counting loop *)

Lemma index_of_lt {A : Type} (eqb : A -> A -> bool) (x : A) (l : list A)
    (i : nat) :
  index_of eqb x l = Some i -> (i < List.length l)%nat.
Proof.
  revert i. induction l as [|y l IH]; cbn; intros i H; [discriminate|].
  destruct (eqb y x).
  - injection H as <-. lia.
  - destruct (index_of eqb x l) as [j|]; [|discriminate].
    cbn in H. injection H as <-. specialize (IH j eq_refl). lia.
Qed.

Lemma index_of_found {A : Type} (eqb : A -> A -> bool) (x : A) (l : list A) :
  (exists i, index_of eqb x l = Some i) <->
  (exists y, In y l /\ eqb y x = true).
Proof.
  induction l as [|y l IH]; cbn.
  - split; [intros [i H]; discriminate|intros (y & [] & _)].
  - destruct (eqb y x) eqn:E.
    + split; [intros _; exists y; auto|intros _; eauto].
    + split.
      * intros [i H]. destruct (index_of eqb x l) as [j|]; [|discriminate].
        destruct (proj1 IH (ex_intro _ j eq_refl)) as (z & Hz & Ez).
        exists z. auto.
      * intros (z & [->|Hz] & Ez); [congruence|].
        destruct (proj2 IH (ex_intro _ z (conj Hz Ez))) as [j ->].
        cbn. eauto.
Qed.

Lemma increment_length (i : nat) (l : list Z) :
  List.length (increment i l) = List.length l.
Proof.
  revert i. induction l as [|c l IH]; intros i; [destruct i; reflexivity|].
  destruct i; cbn; [reflexivity|]. rewrite IH. reflexivity.
Qed.

Lemma increment_sum (i : nat) (l : list Z) :
  (i < List.length l)%nat -> sum_list (increment i l) = sum_list l + 1.
Proof.
  unfold sum_list. revert i. induction l as [|c l IH]; intros i Hi; cbn in *.
  - lia.
  - destruct i; cbn; [lia|]. rewrite IH by lia. lia.
Qed.

Lemma sum_list_repeat_0 (k : nat) : sum_list (repeat 0 k) = 0.
Proof. unfold sum_list. induction k as [|k IH]; cbn; [|rewrite IH]; reflexivity. Qed.

Lemma zip_sum_length (a c : list Z) :
  List.length a = List.length c -> List.length (zip_sum a c) = List.length c.
Proof.
  revert c. induction a as [|x a IH]; intros [|y c] H; cbn in *; try lia.
  rewrite IH by lia. reflexivity.
Qed.

Lemma zip_sum_sum (a c : list Z) :
  List.length a = List.length c ->
  sum_list (zip_sum a c) = sum_list a + sum_list c.
Proof.
  unfold sum_list.
  revert c. induction a as [|x a IH]; intros [|y c] H; cbn in *; try lia.
  rewrite IH by lia. lia.
Qed.

Lemma accumulate_sum (counts count : list Z) (k : nat) :
  counts = [] \/ List.length counts = k ->
  List.length count = k ->
  (accumulate counts count = [] \/ List.length (accumulate counts count) = k) /\
  sum_list (accumulate counts count) = sum_list counts + sum_list count.
Proof.
  intros Hc Hk. unfold accumulate.
  destruct counts as [|x counts]; cbn [is_nil].
  - split; [right; exact Hk|reflexivity].
  - destruct Hc as [Hc|Hc]; [discriminate|].
    split; [right; rewrite zip_sum_length; lia|apply zip_sum_sum; lia].
Qed.

Lemma sum_list_app (a c : list Z) :
  sum_list (a ++ c) = sum_list a + sum_list c.
Proof.
  unfold sum_list. induction a as [|x a IH]; cbn; [reflexivity|].
  rewrite IH. lia.
Qed.

Section SamplingMore.

Variable str : list node -> string.
Variable K : nat.
Variable fn vn : list string.
Variable cn : list Q.

Lemma count_node_known (acc r : list Z * list Z * list Z) (n : node) :
  count_node fn vn cn acc n = Ok r -> known_node fn vn cn n.
Proof.
  destruct acc as [[fc vc] cc]. unfold count_node, known_node.
  assert (Hname : forall name : string,
             match index_of String.eqb name fn with
             | Some index => Ok (increment index fc, vc, cc)
             | None =>
                 match index_of String.eqb name vn with
                 | Some index => Ok (fc, increment index vc, cc)
                 | None => Raise ValueError
                 end
             end = Ok r -> In name fn \/ In name vn).
  { intros name H.
    destruct (index_of String.eqb name fn) as [i|] eqn:Ef.
    - left. destruct (proj1 (index_of_found _ _ _) (ex_intro _ i Ef))
        as (y & Hy & E). apply String.eqb_eq in E. subst y. exact Hy.
    - destruct (index_of String.eqb name vn) as [i|] eqn:Ev; [|discriminate].
      right. destruct (proj1 (index_of_found _ _ _) (ex_intro _ i Ev))
        as (y & Hy & E). apply String.eqb_eq in E. subst y. exact Hy. }
  destruct n as [f|name|value]; [apply Hname|apply Hname|].
  destruct (index_of Qeq_bool value cn) as [i|] eqn:Ec; [|discriminate].
  intros _. destruct (proj1 (index_of_found _ _ _) (ex_intro _ i Ec))
    as (y & Hy & E). apply Qeq_bool_iff in E. eauto.
Qed.

Lemma count_node_unknown (acc : list Z * list Z * list Z) (n : node)
    (e : exn) :
  count_node fn vn cn acc n = Raise e ->
  e = ValueError /\ ~ known_node fn vn cn n.
Proof.
  destruct acc as [[fc vc] cc]. unfold count_node, known_node.
  assert (Hname : forall name : string,
             match index_of String.eqb name fn with
             | Some index => Ok (increment index fc, vc, cc)
             | None =>
                 match index_of String.eqb name vn with
                 | Some index => Ok (fc, increment index vc, cc)
                 | None => Raise ValueError
                 end
             end = Raise e ->
             e = ValueError /\ ~ (In name fn \/ In name vn)).
  { intros name H.
    destruct (index_of String.eqb name fn) as [i|] eqn:Ef; [discriminate|].
    destruct (index_of String.eqb name vn) as [i|] eqn:Ev; [discriminate|].
    injection H as <-. split; [reflexivity|].
    intros [Hin|Hin].
    - destruct (proj2 (index_of_found String.eqb name fn)) as [i Hi];
        [|congruence].
      exists name. split; [exact Hin|apply String.eqb_refl].
    - destruct (proj2 (index_of_found String.eqb name vn)) as [i Hi];
        [|congruence].
      exists name. split; [exact Hin|apply String.eqb_refl]. }
  destruct n as [f|name|value]; [apply Hname|apply Hname|].
  destruct (index_of Qeq_bool value cn) as [i|] eqn:Ec; [discriminate|].
  intros H. injection H as <-. split; [reflexivity|].
  intros (c & Hc & E).
  destruct (proj2 (index_of_found Qeq_bool value cn)) as [i Hi]; [|congruence].
  exists c. split; [exact Hc|apply Qeq_bool_iff, E].
Qed.

Lemma count_nodes_Raise (acc : list Z * list Z * list Z) (p : list node)
    (e : exn) :
  count_nodes fn vn cn acc p = Raise e -> e = ValueError.
Proof.
  revert acc. induction p as [|n p IH]; intros acc; cbn [count_nodes];
    [discriminate|].
  destruct (count_node fn vn cn acc n) as [acc'|e'] eqn:Hn; cbn [bind].
  - apply IH.
  - intros H. injection H as <-. apply count_node_unknown in Hn. apply Hn.
Qed.

(** X13: the counting loop over the nodes of a program succeeds exactly
    when every node label is among [function_names], [variable_names] or
    [constant_names]; otherwise [constant_names.index] raises
    [ValueError], and nothing else is ever raised. *)
Theorem count_nodes_known_labels (acc : list Z * list Z * list Z)
    (p : list node) :
  ((exists r, count_nodes fn vn cn acc p = Ok r) <->
   Forall (known_node fn vn cn) p) /\
  (forall e, count_nodes fn vn cn acc p = Raise e -> e = ValueError).
Proof.
  revert acc. induction p as [|n p IH]; intros acc; cbn [count_nodes].
  - split; [split; [constructor|eauto]|discriminate].
  - destruct (count_node fn vn cn acc n) as [acc'|e] eqn:Hn; cbn [bind].
    + apply count_node_known in Hn. destruct (IH acc') as [IH1 IH2].
      split; [|exact IH2]. split.
      * intros H. constructor; [exact Hn|apply IH1, H].
      * intros H. apply IH1. apply Forall_cons_iff in H. apply H.
    + apply count_node_unknown in Hn. destruct Hn as [-> Hn].
      split.
      * split; [intros [r H]; discriminate|].
        intros H. apply Forall_cons_iff in H. destruct H as [H _].
        contradiction.
      * intros e H. injection H as <-. reflexivity.
Qed.

(** The counters keep their lengths and every node adds one. *)
Lemma count_node_sum (fc vc cc fc' vc' cc' : list Z) (n : node) :
  List.length fc = List.length fn ->
  List.length vc = List.length vn ->
  List.length cc = List.length cn ->
  count_node fn vn cn (fc, vc, cc) n = Ok (fc', vc', cc') ->
  List.length fc' = List.length fn /\
  List.length vc' = List.length vn /\
  List.length cc' = List.length cn /\
  sum_list fc' + sum_list vc' + sum_list cc'
  = sum_list fc + sum_list vc + sum_list cc + 1.
Proof.
  intros Hf Hv Hc. unfold count_node.
  assert (Hname : forall name : string,
             match index_of String.eqb name fn with
             | Some index => Ok (increment index fc, vc, cc)
             | None =>
                 match index_of String.eqb name vn with
                 | Some index => Ok (fc, increment index vc, cc)
                 | None => Raise ValueError
                 end
             end = Ok (fc', vc', cc') ->
             List.length fc' = List.length fn /\
             List.length vc' = List.length vn /\
             List.length cc' = List.length cn /\
             sum_list fc' + sum_list vc' + sum_list cc'
             = sum_list fc + sum_list vc + sum_list cc + 1).
  { intros name H.
    destruct (index_of String.eqb name fn) as [i|] eqn:Ef.
    - injection H as <- <- <-. apply index_of_lt in Ef.
      rewrite increment_length, increment_sum by lia. repeat split; lia.
    - destruct (index_of String.eqb name vn) as [i|] eqn:Ev; [|discriminate].
      injection H as <- <- <-. apply index_of_lt in Ev.
      rewrite increment_length, increment_sum by lia. repeat split; lia. }
  destruct n as [f|name|value]; [apply Hname|apply Hname|].
  destruct (index_of Qeq_bool value cn) as [i|] eqn:Ec; [|discriminate].
  intros H. injection H as <- <- <-. apply index_of_lt in Ec.
  rewrite increment_length, increment_sum by lia. repeat split; lia.
Qed.

Lemma count_nodes_sum (p : list node) (fc vc cc fc' vc' cc' : list Z) :
  List.length fc = List.length fn ->
  List.length vc = List.length vn ->
  List.length cc = List.length cn ->
  count_nodes fn vn cn (fc, vc, cc) p = Ok (fc', vc', cc') ->
  List.length fc' = List.length fn /\
  List.length vc' = List.length vn /\
  List.length cc' = List.length cn /\
  sum_list fc' + sum_list vc' + sum_list cc'
  = sum_list fc + sum_list vc + sum_list cc + Z.of_nat (List.length p).
Proof.
  revert fc vc cc. induction p as [|n p IH]; intros fc vc cc Hf Hv Hc H;
    cbn [count_nodes] in H.
  - injection H as <- <- <-. cbn. repeat split; lia.
  - destruct (count_node fn vn cn (fc, vc, cc) n) as [[[fc1 vc1] cc1]|e] eqn:Hn;
      [|discriminate].
    cbn [bind] in H.
    apply count_node_sum in Hn; try assumption.
    destruct Hn as (Hf1 & Hv1 & Hc1 & Hs1).
    destruct (IH _ _ _ Hf1 Hv1 Hc1 H) as (Hf2 & Hv2 & Hc2 & Hs2).
    cbn [List.length]. repeat split; lia.
Qed.

(** What one pass of the loop body does, case by case. *)
Lemma sample_step_cases (b : bounds) (st st' : sampler) (o : outcome) :
  sample_step str K fn vn cn b st o = Ok st' ->
  (o = Infeasible /\ st' = st) \/
  exists p depth,
    o = Program p /\ p <> [] /\ height p = Some depth /\
    primitive_trees st' = primitive_trees st ++ [p] /\
    (((max_depth b < depth \/ max_size b < program_size p) /\
      dict_bin st' = dict_bin st /\
      printed st' = printed st ++ ["Uh-oh..."%string]) \/
     (depth <= max_depth b /\ program_size p <= max_size b /\
      printed st' = printed st /\
      (dict_bin st' = dict_bin st \/
       exists fc vc cc,
         count_nodes fn vn cn
           (repeat 0 (List.length fn), repeat 0 (List.length vn),
            repeat 0 (List.length cn)) p = Ok (fc, vc, cc) /\
         dict_bin st' =
         mkBin (programs (dict_bin st) ++ [str p])
               (depths (dict_bin st) ++ [depth])
               (sizes (dict_bin st) ++ [program_size p])
               (accumulate (function_counts (dict_bin st)) fc)
               (accumulate (variable_counts (dict_bin st)) vc)
               (accumulate (constant_counts (dict_bin st)) cc)))).
Proof.
  unfold sample_step.
  destruct o as [p| |e]; [|intros H; injection H as <-; left; auto|discriminate].
  destruct p as [|n p]; [discriminate|].
  destruct (height (n :: p)) as [depth|] eqn:Hh; [|discriminate].
  intros H. right. exists (n :: p), depth.
  split; [reflexivity|]. split; [discriminate|]. split; [exact Hh|].
  destruct ((max_depth b <? depth) || (max_size b <? program_size (n :: p)))
    eqn:Echeck.
  - injection H as <-. cbn. split; [reflexivity|]. left.
    apply orb_prop in Echeck. rewrite !Z.ltb_lt in Echeck. auto.
  - apply orb_false_elim in Echeck. rewrite !Z.ltb_ge in Echeck.
    destruct Echeck as [Hd Hs].
    destruct (_ && _).
    + destruct (count_nodes fn vn cn _ (n :: p)) as [[[fc vc] cc]|e] eqn:Hc;
        [|discriminate].
      cbn [bind] in H. injection H as <-. cbn.
      split; [reflexivity|]. right. repeat split; try assumption.
      right. exists fc, vc, cc. split; reflexivity.
    + injection H as <-. cbn. split; [reflexivity|]. right.
      repeat split; try assumption. left. reflexivity.
Qed.

Lemma sample_all_invariant (P : sampler -> Prop) (b : bounds) :
  (forall st st' o, P st -> sample_step str K fn vn cn b st o = Ok st' -> P st') ->
  forall os st st',
    P st -> sample_all str K fn vn cn b st os = Ok st' -> P st'.
Proof.
  intros Hstep os. induction os as [|o os IH]; intros st st' HP H;
    cbn [sample_all] in H.
  - injection H as <-. exact HP.
  - destruct (sample_step str K fn vn cn b st o) as [st1|e] eqn:H1;
      [|discriminate].
    cbn [bind] in H. eapply IH; [eapply Hstep; eassumption|exact H].
Qed.

(** X10: whatever the builder returns, a bin filled from empty keeps
    one depth and one size per recorded string, every recorded depth is
    at most [max_depth] and every recorded size lies in
    [[1, max_size]]. *)
Theorem bin_entries_within_maximums (b : bounds) (os : list outcome)
    (st : sampler) :
  sample_all str K fn vn cn b empty_sampler os = Ok st ->
  bin_within b (dict_bin st).
Proof.
  apply (sample_all_invariant (fun st => bin_within b (dict_bin st))).
  - clear st. intros st st' o (Hl1 & Hl2 & Hd & Hs) Hstep.
    apply sample_step_cases in Hstep.
    destruct Hstep as [[_ ->]|(p & depth & _ & Hp & _ & _ & Hcase)];
      [repeat split; assumption|].
    destruct Hcase as [(_ & -> & _)|(Hdep & Hsz & _ & [->|Hrec])];
      try (repeat split; assumption).
    destruct Hrec as (fc & vc & cc & _ & ->). cbn.
    unfold bin_within. cbn. rewrite !length_app. cbn [List.length].
    repeat split; try lia.
    + apply Forall_app. split; [exact Hd|]. constructor; [lia|constructor].
    + apply Forall_app. split; [exact Hs|].
      constructor; [|constructor]. unfold program_size in *.
      destruct p; [contradiction|]. cbn [List.length] in *. lia.
  - unfold bin_within. cbn. repeat split; constructor.
Qed.

(** X11: in a bin filled from empty, the function, variable and
    constant histograms together count every node of every recorded
    program once: their grand total is the sum of the recorded sizes, and
    each histogram is empty or has one entry per name. *)
Theorem bin_histograms_count_every_node (b : bounds) (os : list outcome)
    (st : sampler) :
  sample_all str K fn vn cn b empty_sampler os = Ok st ->
  bin_counted fn vn cn (dict_bin st).
Proof.
  apply (sample_all_invariant (fun st => bin_counted fn vn cn (dict_bin st))).
  - clear st. intros st st' o (Hf & Hv & Hc & Hsum) Hstep.
    apply sample_step_cases in Hstep.
    destruct Hstep as [[_ ->]|(p & depth & _ & Hp & _ & _ & Hcase)];
      [repeat split; assumption|].
    destruct Hcase as [(_ & -> & _)|(Hdep & Hsz & _ & [->|Hrec])];
      try (repeat split; assumption).
    destruct Hrec as (fc & vc & cc & Hcount & ->).
    apply count_nodes_sum in Hcount; try apply repeat_length.
    destruct Hcount as (Hf' & Hv' & Hc' & Hs').
    rewrite !sum_list_repeat_0 in Hs'.
    destruct (accumulate_sum _ fc _ Hf Hf') as [Hf1 Hf2].
    destruct (accumulate_sum _ vc _ Hv Hv') as [Hv1 Hv2].
    destruct (accumulate_sum _ cc _ Hc Hc') as [Hc1 Hc2].
    unfold bin_counted.
    cbn [function_counts variable_counts constant_counts sizes].
    rewrite sum_list_app, Hf2, Hv2, Hc2. unfold program_size.
    repeat split; try assumption.
    change (sum_list [Z.of_nat (List.length p)])
      with (Z.of_nat (List.length p) + 0). lia.
  - unfold bin_counted. cbn. repeat split; auto.
Qed.

(** X12: [primitive_trees[name][i]] receives every program the builder
    returns, in order, accepted into the bin or not: after the loop it
    is the list before the loop followed by all the programs among the
    outcomes. *)
Theorem primitive_trees_keep_every_program (b : bounds) (os : list outcome)
    (st st' : sampler) :
  sample_all str K fn vn cn b st os = Ok st' ->
  primitive_trees st' = primitive_trees st ++ programs_of os.
Proof.
  revert st. induction os as [|o os IH]; intros st H; cbn [sample_all] in H.
  - injection H as <-. cbn. rewrite app_nil_r. reflexivity.
  - destruct (sample_step str K fn vn cn b st o) as [st1|e] eqn:H1;
      [|discriminate].
    cbn [bind] in H. apply IH in H. rewrite H.
    apply sample_step_cases in H1.
    destruct H1 as [[-> ->]|(p & depth & -> & _ & _ & -> & _)];
      cbn [programs_of]; [reflexivity|].
    rewrite <- app_assoc. reflexivity.
Qed.

End SamplingMore.

(** ** The report on the bins *)

Lemma slice_to_map {A B : Type} (f : A -> B) (n : Z) (l : list A) :
  slice_to n (map f l) = map f (slice_to n l).
Proof.
  unfold slice_to. rewrite length_map.
  destruct (0 <=? n); apply firstn_map.
Qed.

Lemma firstn_In {A : Type} (k : nat) (l : list A) (x : A) :
  In x (firstn k l) -> In x l.
Proof.
  revert l. induction k as [|k IH]; intros [|y l]; cbn; try contradiction.
  intros [->|H]; [left; reflexivity|right; apply IH, H].
Qed.

Lemma slice_to_incl {A : Type} (n : Z) (l : list A) (x : A) :
  In x (slice_to n l) -> In x l.
Proof.
  unfold slice_to. destruct (0 <=? n); apply firstn_In.
Qed.

Lemma fold_min_all (K x : Z) (rest : list Z) :
  x <= K -> Forall (fun z => z <= K) rest ->
  (fold_right Z.min x rest =? K)
  = (x =? K) && forallb (fun z => z =? K) rest.
Proof.
  intros Hx Hall. induction Hall as [|y rest Hy _ IH]; cbn.
  - rewrite andb_true_r. reflexivity.
  - assert (Hm : fold_right Z.min x rest <= K).
    { clear IH. induction rest as [|z rest IHr]; cbn; lia. }
    destruct (Z.eqb_spec x K) as [Ex|Ex]; cbn [andb] in *.
    + destruct (Z.eqb_spec y K) as [Ey|Ey]; cbn [andb].
      * rewrite <- IH. destruct (Z.eqb_spec (fold_right Z.min x rest) K);
          [apply Z.eqb_eq|apply Z.eqb_neq]; lia.
      * apply Z.eqb_neq. lia.
    + apply Z.eqb_neq. apply Z.eqb_neq in IH. lia.
Qed.

Lemma all_bins_are_filled_spec (K : nat) (bins : list bin) (n : Z) :
  Forall (fun d => (List.length (programs d) <= K)%nat) bins ->
  (slice_to n bins = [] -> all_bins_are_filled K bins n = Raise ValueError) /\
  (slice_to n bins <> [] ->
   all_bins_are_filled K bins n
   = Ok (forallb (fun d => (List.length (programs d) =? K)%nat)
                 (slice_to n bins))).
Proof.
  intros Hall. unfold all_bins_are_filled, num_programs.
  rewrite slice_to_map.
  assert (Hsl : Forall (fun d => (List.length (programs d) <= K)%nat)
                       (slice_to n bins)).
  { apply Forall_forall. intros d Hd. apply slice_to_incl in Hd.
    revert d Hd. apply Forall_forall. exact Hall. }
  destruct (slice_to n bins) as [|d rest]; cbn [map py_min bind].
  - split; [reflexivity|congruence].
  - split; [discriminate|]. intros _. f_equal.
    apply Forall_cons_iff in Hsl. destruct Hsl as [Hd Hrest].
    rewrite (fold_min_all (Z.of_nat K)).
    + cbn [forallb]. f_equal.
      * destruct (Nat.eqb_spec (List.length (programs d)) K);
          [apply Z.eqb_eq|apply Z.eqb_neq]; lia.
      * clear Hrest. induction rest as [|x rest IHr]; cbn [map forallb];
          [reflexivity|].
        rewrite IHr. f_equal.
        destruct (Nat.eqb_spec (List.length (programs x)) K);
          [apply Z.eqb_eq|apply Z.eqb_neq]; lia.
    + lia.
    + apply Forall_map. revert Hrest. apply Forall_impl. intros x Hx. lia.
Qed.

(** X14: the report, for bins that hold at most
    [num_programs_per_size_bin] strings each: when the slice
    [num_programs[0:num_size_bins]] is empty [min] raises [ValueError];
    otherwise [programs_deap.txt] is written exactly when every bin of
    the slice holds [num_programs_per_size_bin] strings, and it then
    lists the strings of all the bins of [program_dict[name]], in
    order. *)
Theorem programs_file_spec (K : nat) (bins : list bin) (n : Z) :
  Forall (fun d => (List.length (programs d) <= K)%nat) bins ->
  (slice_to n bins = [] -> programs_file K bins n = Raise ValueError) /\
  (slice_to n bins <> [] ->
   programs_file K bins n
   = Ok (if forallb (fun d => (List.length (programs d) =? K)%nat)
                    (slice_to n bins)
         then Some (concat (map programs bins)) else None)).
Proof.
  intros Hall. unfold programs_file.
  destruct (all_bins_are_filled_spec K bins n Hall) as [H1 H2].
  split; intros H.
  - rewrite (H1 H). reflexivity.
  - rewrite (H2 H). reflexivity.
Qed.

Lemma programs_file_spec_witness :
  (slice_to 1 [mkBin ["v0"%string] [0] [1] [0] [1] []; empty_bin] = [] ->
   programs_file 1 [mkBin ["v0"%string] [0] [1] [0] [1] []; empty_bin] 1
   = Raise ValueError) /\
  (slice_to 1 [mkBin ["v0"%string] [0] [1] [0] [1] []; empty_bin] <> [] ->
   programs_file 1 [mkBin ["v0"%string] [0] [1] [0] [1] []; empty_bin] 1
   = Ok (if forallb (fun d => (List.length (programs d) =? 1)%nat)
              (slice_to 1 [mkBin ["v0"%string] [0] [1] [0] [1] []; empty_bin])
         then Some (concat (map programs
                      [mkBin ["v0"%string] [0] [1] [0] [1] []; empty_bin]))
         else None)).
Proof.
  apply (programs_file_spec 1
           [mkBin ["v0"%string] [0] [1] [0] [1] []; empty_bin] 1).
  repeat constructor.
Defined.

(** ** The pool of constants *)

Lemma uniform_m1_1_range (g : rng) :
  exists c, uniform_m1_1 g = Ok (c, snd (draw g)) /\
            (-1 <= c)%Q /\ (c < 1)%Q.
Proof.
  unfold uniform_m1_1, draw; cbv beta iota zeta.
  eexists. split; [reflexivity|].
  pose proof (Z.mod_pos_bound (Z.of_N (stream g (pos g))) Float.two53
                ltac:(reflexivity)) as Hk.
  unfold Float.two53, Float.two52 in *.
  unfold Qle, Qlt. cbn [Qnum Qden].
  change (Z.pos (2 ^ 52)) with (2 ^ 52).
  set (k := Z.of_N (stream g (pos g)) mod 2 ^ 53) in *.
  change (2 ^ 53) with (2 * 2 ^ 52) in Hk.
  set (t := 2 ^ 52) in *. lia.
Qed.

Lemma fill_ephemeral_constants_spec (n : nat) (acc : list Q) (g : rng) :
  Forall (fun c => (-1 <= c)%Q /\ (c < 1)%Q) acc ->
  exists l g',
    fill_ephemeral_constants n acc g = Ok (l, g') /\
    List.length l = (List.length acc + n)%nat /\
    stream g' = stream g /\ pos g' = (pos g + n)%nat /\
    Forall (fun c => (-1 <= c)%Q /\ (c < 1)%Q) l.
Proof.
  revert acc g. induction n as [|n IH]; intros acc g Hacc;
    cbn [fill_ephemeral_constants].
  - exists acc, g. unfold ret_M. repeat split; try lia. exact Hacc.
  - unfold bind_M. destruct (uniform_m1_1_range g) as (c & -> & Hc).
    destruct (IH (acc ++ [c]) (snd (draw g))) as (l & g' & -> & Hl & Hs & Hp & Hr).
    + apply Forall_app. split; [exact Hacc|]. constructor; [exact Hc|constructor].
    + exists l, g'. rewrite length_app in Hl. cbn [List.length] in Hl.
      rewrite draw_pos in Hp. rewrite draw_stream in Hs.
      repeat split; try lia; assumption.
Qed.

(** X15: [generate_primitive_set] always builds its list of constants:
    it holds [num_constants] values ([0] for a negative number), each in
    [[-1, 1)], and consumes one draw per value. *)
Theorem ephemeral_constants_pool (num_constants : Z) (g : rng) :
  exists l g',
    make_ephemeral_constants num_constants g = Ok (l, g') /\
    List.length l = Z.to_nat num_constants /\
    stream g' = stream g /\
    pos g' = (pos g + Z.to_nat num_constants)%nat /\
    Forall (fun c => (-1 <= c)%Q /\ (c < 1)%Q) l.
Proof.
  unfold make_ephemeral_constants.
  destruct (fill_ephemeral_constants_spec (Z.to_nat num_constants) [] g)
    as (l & g' & H & Hl & Hrest); [constructor|].
  exists l, g'. split; [exact H|]. split; [exact Hl|exact Hrest].
Qed.

(** X16: instantiating the ephemeral class raises [ValueError] when the
    list of constants is empty ([random.randint(0, -1)]); otherwise it
    consumes one draw and yields a member of the list. *)
Theorem ephemeral_class_instance (name : string) (consts : list Q)
    (g : rng) :
  (consts = [] ->
   materialize (EphemeralClass name consts) g = Raise ValueError) /\
  (consts <> [] ->
   exists c, In c consts /\
             materialize (EphemeralClass name consts) g
             = Ok (NConstant c, snd (draw g))).
Proof.
  split.
  - intros ->. reflexivity.
  - intros Hne. cbn [materialize]. unfold bind_M.
    assert (Hlen : 0 <= Z.of_nat (List.length consts) - 1).
    { destruct consts; [contradiction|]. cbn [List.length]. lia. }
    destruct (randint_ok 0 _ g Hlen) as [i Hi]. rewrite Hi.
    apply randint_range in Hi. destruct Hi as [Hi _].
    eexists. split; [|reflexivity]. apply nth_In. lia.
Qed.

Lemma ephemeral_class_instance_witness :
  ([1 # 2; 1 # 3] = [] ->
   materialize (EphemeralClass "erc" [1 # 2; 1 # 3]) (constant_rng 1)
   = Raise ValueError) /\
  ([1 # 2; 1 # 3] <> [] ->
   exists c, In c [1 # 2; 1 # 3] /\
             materialize (EphemeralClass "erc" [1 # 2; 1 # 3]) (constant_rng 1)
             = Ok (NConstant c, snd (draw (constant_rng 1)))).
Proof.
  apply (ephemeral_class_instance "erc" [1 # 2; 1 # 3] (constant_rng 1)).
Defined.

Lemma bin_entries_within_maximums_witness :
  bin_within (mkBounds 1 3 1 2) (mkBin ["v0"%string] [0] [1] [0] [1] []).
Proof.
  apply (bin_entries_within_maximums example_str 1 ["add"%string]
           ["v0"%string] [] (mkBounds 1 3 1 2) [Program [NTerminal "v0"]]
           (mkSampler (mkBin ["v0"%string] [0] [1] [0] [1] [])
                      [[NTerminal "v0"]] [])).
  vm_compute. reflexivity.
Defined.

Lemma bin_histograms_count_every_node_witness :
  bin_counted ["add"%string] ["v0"%string] []
    (mkBin ["add v0 v0"%string] [1] [3] [1] [2] []).
Proof.
  apply (bin_histograms_count_every_node example_str 1 ["add"%string]
           ["v0"%string] [] (mkBounds 1 3 1 4)
           [Program [NPrimitive add; NTerminal "v0"; NTerminal "v0"]]
           (mkSampler (mkBin ["add v0 v0"%string] [1] [3] [1] [2] [])
                      [[NPrimitive add; NTerminal "v0"; NTerminal "v0"]] [])).
  vm_compute. reflexivity.
Defined.

Lemma primitive_trees_keep_every_program_witness :
  [[NTerminal "v0"]; [NTerminal "v0"]]
  = [] ++ programs_of [Program [NTerminal "v0"]; Infeasible;
                       Program [NTerminal "v0"]].
Proof.
  apply (primitive_trees_keep_every_program example_str 1 ["add"%string]
           ["v0"%string] [] (mkBounds 1 3 1 2)
           [Program [NTerminal "v0"]; Infeasible; Program [NTerminal "v0"]]
           empty_sampler
           (mkSampler (mkBin ["v0"%string] [0] [1] [0] [1] [])
                      [[NTerminal "v0"]; [NTerminal "v0"]] [])).
  vm_compute. reflexivity.
Defined.

(** ** The bins cover every size once *)

Lemma range_nth_error (n : Z) (j : nat) (i : Z) :
  nth_error (range n) j = Some i <-> Z.of_nat j < n /\ i = Z.of_nat j.
Proof.
  unfold range. rewrite nth_error_map.
  destruct (Nat.lt_ge_cases j (Z.to_nat n)) as [Hlt|Hge].
  - rewrite (nth_error_nth' _ 0%nat) by (rewrite length_seq; exact Hlt).
    rewrite seq_nth by exact Hlt. cbn.
    split; [intros H; injection H as <-; lia|intros [_ ->]; reflexivity].
  - assert (Hnone : nth_error (seq 0 (Z.to_nat n)) j = None)
      by (apply nth_error_None; rewrite length_seq; exact Hge).
    rewrite Hnone. cbn. split; [discriminate|lia].
Qed.

(** X17: below [2^53] the size bins partition the sizes: every size in
    [[1, max_possible_size]] lies in the range of exactly one bin. *)
Theorem size_bins_partition (max_arity max_depth bin_size mps n : Z)
    (bins : list (Z * Z)) (s : Z) :
  1 <= max_arity -> 0 <= max_depth -> 1 <= bin_size < 2 ^ 53 ->
  complete_size max_arity (Z.to_nat max_depth) < 2 ^ 53 ->
  size_bins max_arity max_depth bin_size = Ok (mps, n, bins) ->
  1 <= s <= mps ->
  exists i lo hi,
    nth_error bins i = Some (lo, hi) /\ lo <= s <= hi /\
    forall j lo' hi',
      nth_error bins j = Some (lo', hi') -> lo' <= s <= hi' -> j = i.
Proof.
  intros Hm Hd Hb HC Hbins Hs. unfold size_bins in Hbins.
  rewrite (get_max_size_exact _ _ Hm Hd HC) in Hbins. cbn [bind] in Hbins.
  set (C := complete_size max_arity (Z.to_nat max_depth)) in *.
  assert (HC0 : 0 < C) by (apply complete_size_pos; lia).
  unfold num_size_bins in Hbins.
  destruct (truediv_ceil C bin_size ltac:(lia) ltac:(lia)) as (x & Hx & Hceil).
  rewrite Hx in Hbins. cbn [bind] in Hbins. rewrite Hceil in Hbins.
  fold (ceil_div C bin_size) in Hbins.
  pose proof (ceil_div_spec C bin_size ltac:(lia)) as HN.
  set (N := ceil_div C bin_size) in *.
  injection Hbins as <- <- <-.
  set (q := (s - 1) / bin_size).
  assert (Hq : q * bin_size <= s - 1 < (q + 1) * bin_size).
  { pose proof (Z.div_mod (s - 1) bin_size ltac:(lia)).
    pose proof (Z.mod_pos_bound (s - 1) bin_size ltac:(lia)).
    fold q in H. nia. }
  assert (Hq0 : 0 <= q) by (apply Z.div_pos; lia).
  assert (HqN : q < N) by nia.
  assert (Hnth : forall j lo hi,
             nth_error (map (fun i => bin_sizes i N C bin_size) (range N)) j
             = Some (lo, hi) <->
             Z.of_nat j < N /\ (lo, hi) = bin_sizes (Z.of_nat j) N C bin_size).
  { intros j lo hi. rewrite nth_error_map.
    destruct (nth_error (range N) j) as [i|] eqn:E; cbn.
    - apply range_nth_error in E. destruct E as [Hj ->].
      split; [intros H; injection H as <- <-; auto|intros [_ ->]; reflexivity].
    - split; [discriminate|]. intros [Hj _].
      assert (E' : nth_error (range N) j = Some (Z.of_nat j))
        by (apply range_nth_error; auto).
      congruence. }
  exists (Z.to_nat q), (fst (bin_sizes q N C bin_size)),
         (snd (bin_sizes q N C bin_size)).
  split; [|split].
  - apply Hnth. rewrite Z2Nat.id by lia. split; [lia|].
    destruct (bin_sizes q N C bin_size); reflexivity.
  - unfold bin_sizes. cbn [fst snd]. destruct (q =? N - 1); lia.
  - intros j lo' hi' Hj Hin. apply Hnth in Hj. destruct Hj as [HjN Hj].
    unfold bin_sizes in Hj. injection Hj as -> ->.
    assert (Z.of_nat j = q); [|lia].
    destruct (Z.eqb_spec (Z.of_nat j) (N - 1)) as [E|E]; nia.
Qed.

Lemma size_bins_partition_witness :
  exists i lo hi,
    nth_error [(1, 4); (5, 8); (9, 12); (13, 15)] i = Some (lo, hi) /\
    lo <= 13 <= hi /\
    forall j lo' hi',
      nth_error [(1, 4); (5, 8); (9, 12); (13, 15)] j = Some (lo', hi') ->
      lo' <= 13 <= hi' -> j = i.
Proof.
  apply (size_bins_partition 2 3 4 15 4).
  - lia.
  - lia.
  - lia.
  - vm_compute. reflexivity.
  - vm_compute. reflexivity.
  - lia.
Defined.

(** ** The permissibility check and the builder *)

(** X18: with [max_depth >= 0] and [max_size >= 1], a program returned
    by [generate_grow] never fails the permissibility check of the
    sampling loop run with the same bounds: ['Uh-oh...'] is not printed,
    the tree is kept in [primitive_trees], and the only exception the
    loop body can raise on it is the [ValueError] of the counting
    loop. *)
Theorem grow_output_passes_check (str : list node -> string) (K : nat)
    (fn vn : list string) (cn : list Q) (ps : PrimitiveSet) (b : bounds)
    (dt : trait) (rt : option pytype) (g g' : rng) (p : list node)
    (st : sampler) :
  0 <= max_depth b -> 1 <= max_size b ->
  generate_grow ps b dt rt g = Some (Program p, g') ->
  (forall e, sample_step str K fn vn cn b st (Program p) = Raise e ->
             e = ValueError) /\
  (forall st', sample_step str K fn vn cn b st (Program p) = Ok st' ->
               printed st' = printed st /\
               primitive_trees st' = primitive_trees st ++ [p]).
Proof.
  intros Hd Hs Hrun. unfold generate_grow in Hrun.
  assert (Hterm : terminals ps (resolve_ret_type ps rt) <> []).
  { intros Hnil.
    exact (no_terminal_no_program ps b dt rt g g' _ Hnil Hrun p eq_refl). }
  apply (generate_program_inv ps b dt rt g g' _ (shape_inv b)) in Hrun.
  2:{ intros g1. apply shape_inv_initial; assumption. }
  2:{ intros dv s s'. apply shape_inv_step. exact Hterm. }
  destruct Hrun as [(e & He & _)|(dv & g1 & s_end & _ & Hinv & Hend)];
    [discriminate|].
  apply loop_body_Program in Hend. destruct Hend as [Hstk ->].
  destruct Hinv as (_ & Htot & Hpos & m & Hscan & Hm & _).
  rewrite Hstk in Htot, Hpos, Hscan. cbn [List.length map] in *.
  rewrite Nat.add_0_r in Htot, Hpos.
  assert (Hh : height (program s_end) = Some m)
    by (unfold height; rewrite Hscan; reflexivity).
  split.
  - intros e. unfold sample_step.
    destruct (program s_end) as [|n p] eqn:Ep; [cbn in Hpos; lia|].
    rewrite Hh.
    destruct (_ || _); [discriminate|].
    destruct (_ && _); [|discriminate].
    destruct (count_nodes fn vn cn _ (n :: p)) as [[[fc vc] cc]|e'] eqn:Hc;
      [discriminate|].
    cbn [bind]. intros H. injection H as <-.
    eapply count_nodes_Raise, Hc.
  - intros st' Hstep. apply sample_step_cases in Hstep.
    destruct Hstep as [[H _]|(p & depth & H & _ & Hh' & Htrees & Hcase)];
      [discriminate|].
    injection H as <-. rewrite Hh in Hh'. injection Hh' as <-.
    split; [|exact Htrees].
    destruct Hcase as [([Hbad|Hbad] & _)|(_ & _ & Hpr & _)];
      [lia|unfold program_size in Hbad; lia|exact Hpr].
Qed.

Lemma grow_output_passes_check_witness :
  (forall e,
     sample_step example_str 1 ["add"%string] ["v0"%string] []
       (mkBounds 0 3 4 4) empty_sampler
       (Program [NPrimitive add; NTerminal "v0"; NTerminal "v0"]) = Raise e ->
     e = ValueError) /\
  (forall st',
     sample_step example_str 1 ["add"%string] ["v0"%string] []
       (mkBounds 0 3 4 4) empty_sampler
       (Program [NPrimitive add; NTerminal "v0"; NTerminal "v0"]) = Ok st' ->
     printed st' = printed empty_sampler /\
     primitive_trees st'
     = primitive_trees empty_sampler
       ++ [[NPrimitive add; NTerminal "v0"; NTerminal "v0"]]).
Proof.
  apply (grow_output_passes_check example_str 1 ["add"%string] ["v0"%string]
           [] pset_add (mkBounds 0 3 4 4) BySize None (constant_rng 3)
           (mkRng (fun _ => 3%N) 4)).
  - cbn. lia.
  - cbn. lia.
  - vm_compute. reflexivity.
Defined.

(** X19: below [2^53] every size bin has a non-empty range within the
    possible sizes, [1 <= min_size <= max_size <= max_possible_size], so
    that the [desired_value] draw of the builder cannot fail on it. *)
Theorem size_bins_ranges_nonempty (max_arity max_depth bin_size mps n : Z)
    (bins : list (Z * Z)) (lo hi : Z) :
  1 <= max_arity -> 0 <= max_depth -> 1 <= bin_size < 2 ^ 53 ->
  complete_size max_arity (Z.to_nat max_depth) < 2 ^ 53 ->
  size_bins max_arity max_depth bin_size = Ok (mps, n, bins) ->
  In (lo, hi) bins ->
  1 <= lo <= hi /\ hi <= mps.
Proof.
  intros Hm Hd Hb HC Hbins Hin. unfold size_bins in Hbins.
  rewrite (get_max_size_exact _ _ Hm Hd HC) in Hbins. cbn [bind] in Hbins.
  set (C := complete_size max_arity (Z.to_nat max_depth)) in *.
  assert (HC0 : 0 < C) by (apply complete_size_pos; lia).
  unfold num_size_bins in Hbins.
  destruct (truediv_ceil C bin_size ltac:(lia) ltac:(lia)) as (x & Hx & Hceil).
  rewrite Hx in Hbins. cbn [bind] in Hbins. rewrite Hceil in Hbins.
  fold (ceil_div C bin_size) in Hbins.
  pose proof (ceil_div_spec C bin_size ltac:(lia)) as HN.
  set (N := ceil_div C bin_size) in *.
  injection Hbins as <- <- <-.
  apply in_map_iff in Hin. destruct Hin as (i & Hi & Hr).
  apply range_In in Hr. unfold bin_sizes in Hi. injection Hi as <- <-.
  destruct (Z.eqb_spec i (N - 1)) as [E|E]; nia.
Qed.

Lemma size_bins_ranges_nonempty_witness :
  size_bins 2 3 4 = Ok (15, 4, [(1, 4); (5, 8); (9, 12); (13, 15)]) /\
  (1 <= 13 <= 15 /\ 15 <= 15).
Proof.
  split; [vm_compute; reflexivity|].
  apply (size_bins_ranges_nonempty 2 3 4 15 4
           [(1, 4); (5, 8); (9, 12); (13, 15)]).
  - lia.
  - lia.
  - lia.
  - vm_compute. reflexivity.
  - vm_compute. reflexivity.
  - right. right. right. left. reflexivity.
Defined.

(** ** The parallel lists of a bin *)

Section SamplingRecords.

Variable str : list node -> string.
Variable K : nat.
Variable fn vn : list string.
Variable cn : list Q.

(** X20: the parallel lists of a bin filled from empty describe the same
    programs: there are trees of [primitive_trees] of which [programs]
    holds the strings, [depths] the heights and [sizes] the node counts,
    position by position. *)
Theorem bin_lists_describe_same_programs (b : bounds) (os : list outcome)
    (st : sampler) :
  sample_all str K fn vn cn b empty_sampler os = Ok st ->
  exists l,
    incl l (primitive_trees st) /\
    programs (dict_bin st) = map str l /\
    map Some (depths (dict_bin st)) = map height l /\
    sizes (dict_bin st) = map program_size l.
Proof.
  apply (sample_all_invariant str K fn vn cn
           (fun st => exists l,
              incl l (primitive_trees st) /\
              programs (dict_bin st) = map str l /\
              map Some (depths (dict_bin st)) = map height l /\
              sizes (dict_bin st) = map program_size l)).
  - clear st. intros st st' o (l & Hincl & Hp & Hd & Hs) Hstep.
    apply sample_step_cases in Hstep.
    destruct Hstep as [[_ ->]|(p & depth & _ & _ & Hh & Htrees & Hcase)];
      [exists l; auto|].
    assert (Hincl' : incl l (primitive_trees st')).
    { rewrite Htrees. apply incl_appl, Hincl. }
    destruct Hcase as [(_ & Hbin & _)|(_ & _ & _ & [Hbin|Hrec])];
      try (exists l; rewrite Hbin; auto).
    destruct Hrec as (fc & vc & cc & _ & Hbin).
    exists (l ++ [p]). rewrite Hbin. cbn [programs depths sizes].
    rewrite !map_app, Hp, Hd, Hs. cbn [map]. rewrite Hh.
    repeat split; try reflexivity.
    apply incl_app; [exact Hincl'|].
    intros x [<-|[]]. rewrite Htrees. apply in_or_app. right. left. reflexivity.
  - exists []. cbn. repeat split; try reflexivity. apply incl_refl.
Qed.

End SamplingRecords.

Lemma bin_lists_describe_same_programs_witness :
  exists l,
    incl l [[NPrimitive add; NTerminal "v0"; NTerminal "v0"]] /\
    ["add v0 v0"%string] = map example_str l /\
    map Some [1] = map height l /\
    [3] = map program_size l.
Proof.
  apply (bin_lists_describe_same_programs example_str 1 ["add"%string]
           ["v0"%string] [] (mkBounds 1 3 1 4)
           [Program [NPrimitive add; NTerminal "v0"; NTerminal "v0"]]
           (mkSampler (mkBin ["add v0 v0"%string] [1] [3] [1] [2] [])
                      [[NPrimitive add; NTerminal "v0"; NTerminal "v0"]] [])).
  vm_compute. reflexivity.
Defined.

(** ** What a call can raise *)

Lemma truediv_Raise (a c : Z) (e : exn) :
  c <> 0 -> Float.truediv a c = Raise e -> e = OverflowError.
Proof.
  intros Hc. unfold Float.truediv.
  destruct (c =? 0) eqn:E; [apply Z.eqb_eq in E; contradiction|].
  destruct (a =? 0); [discriminate|].
  destruct (Float.round_pos _ _) as [m ex].
  destruct (Float.overflows m ex); [|discriminate].
  intros H. injection H as <-. reflexivity.
Qed.

Lemma get_max_size_Raise (m d : Z) (e : exn) :
  1 <= m -> get_max_size m d = Raise e -> e = OverflowError.
Proof.
  intros Hm. unfold get_max_size, Float.of_int.
  destruct (m =? 1) eqn:E1; [discriminate|]. apply Z.eqb_neq in E1.
  destruct (0 <=? d + 1).
  - destruct (Float.truediv (1 - m ^ (d + 1)) (1 - m)) as [x|e'] eqn:Hx;
      cbn [bind]; [discriminate|].
    intros H. injection H as <-. eapply truediv_Raise; [|exact Hx]. lia.
  - destruct (Float.truediv m 1) as [x|e'] eqn:Hx; cbn [bind].
    2:{ intros H. injection H as <-. eapply truediv_Raise; [|exact Hx]. lia. }
    destruct (Float.truediv (d + 1) 1) as [y|e'] eqn:Hy; cbn [bind].
    2:{ intros H. injection H as <-. eapply truediv_Raise; [|exact Hy]. lia. }
    destruct (m =? 0) eqn:E0; [apply Z.eqb_eq in E0; lia|].
    destruct (Float.truediv (1 - m) 1) as [z|e'] eqn:Hz; cbn [bind].
    2:{ intros H. injection H as <-. eapply truediv_Raise; [|exact Hz]. lia. }
    destruct (_ && _); [discriminate|].
    destruct (_ && _); discriminate.
Qed.

Lemma remaining_budget_Raise (stk : list obligation) (m D : Z) (e : exn) :
  1 <= m -> remaining_budget stk m D = Raise e -> e = OverflowError.
Proof.
  intros Hm. induction stk as [|[d sz] stk IH]; cbn [remaining_budget];
    [discriminate|].
  destruct (remaining_budget stk m D) as [s|e']; cbn [bind].
  - destruct (get_max_size m (D - d)) as [v|e''] eqn:Hv; cbn [bind];
      [discriminate|].
    intros H. injection H as <-. eapply get_max_size_Raise; eassumption.
  - intros H. injection H as <-. apply IH. reflexivity.
Qed.

Lemma terminal_condition_Raise (stk : list obligation) (depth size : Z)
    (rt : pytype) (ps : PrimitiveSet) (b : bounds) (dt : trait) (dv : Z)
    (g : rng) (e : exn) :
  terminal_condition stk depth size rt ps b dt dv g = Raise e ->
  e = OverflowError.
Proof.
  unfold terminal_condition, bind_M, lift.
  pose proof (valid_arity_bound ps rt size (max_size b)) as [Hm _].
  destruct (is_nil stk).
  - destruct (is_nil (terminals ps rt)); [discriminate|].
    destruct (_ || _); [discriminate|].
    destruct (_ && _); [|discriminate].
    unfold random_lt. destruct (draw g). discriminate.
  - destruct (remaining_budget stk _ (max_depth b)) as [s|e'] eqn:Hs;
      cbn [bind].
    + destruct (is_nil (terminals ps rt)); [discriminate|].
      destruct (_ || _); [discriminate|].
      destruct (_ && _); [|discriminate].
      unfold random_lt. destruct (draw g). discriminate.
    + intros H. injection H as <-.
      eapply remaining_budget_Raise; eassumption.
Qed.

Lemma size_feasible_Raise (fs : list Primitive) (stk : list obligation)
    (depth size m : Z) (b : bounds) (dv : Z) (e : exn) :
  1 <= m -> size_feasible fs stk depth size m b dv = Raise e ->
  e = OverflowError.
Proof.
  intros Hm. induction fs as [|f fs IH]; cbn [size_feasible]; [discriminate|].
  destruct (get_max_size m (max_depth b - (depth + 1))) as [v|e'] eqn:Hv;
    cbn [bind].
  2:{ intros H. injection H as <-. eapply get_max_size_Raise; eassumption. }
  destruct (is_nil stk).
  - cbn [bind].
    destruct (size_feasible fs stk depth size m b dv) as [temp|e'];
      cbn [bind]; [discriminate|].
    intros H. injection H as <-. apply IH. reflexivity.
  - destruct (remaining_budget stk m (max_depth b)) as [s|e'] eqn:Hs;
      cbn [bind].
    + destruct (size_feasible fs stk depth size m b dv) as [temp|e'];
        cbn [bind]; [discriminate|].
      intros H. injection H as <-. apply IH. reflexivity.
    + intros H. injection H as <-.
      eapply remaining_budget_Raise; eassumption.
Qed.

Lemma loop_body_Raised (ps : PrimitiveSet) (b : bounds) (dt : trait)
    (rt : pytype) (dv : Z) (s : state) (e : exn) (g : rng) :
  loop_body ps b dt rt dv s = Done (Raised e) g ->
  e = ValueError \/ e = OverflowError.
Proof.
  unfold loop_body.
  destruct (stack s) as [|[depth size] rest]; [discriminate|].
  destruct (terminal_condition _ _ _ _ _ _ _ _ _) as [[[|] g1]|e'] eqn:Htc.
  - apply terminal_condition_true in Htc.
    unfold terminal_branch, bind_M.
    destruct (choice_returns (terminals ps rt) g1 Htc) as [t ->].
    destruct t as [name|name consts]; cbn [materialize]; [discriminate|].
    unfold bind_M, randint.
    destruct (_ <? _); [|destruct (draw _); discriminate].
    intros H. injection H as <- _. left. reflexivity.
  - unfold function_branch, bind_M, lift.
    destruct (feasible_functions _ _ _ _ _ _ _ _) as [vf|e'] eqn:Hff.
    + destruct vf as [|f vf]; cbn [is_nil]; [discriminate|].
      destruct (choice_returns (f :: vf) g1 ltac:(discriminate)) as [x ->].
      discriminate.
    + intros H. injection H as <- _. right.
      unfold feasible_functions in Hff.
      destruct (negb _ && _) eqn:E; [|discriminate].
      apply andb_prop in E. destruct E as [E _]. apply negb_true_iff in E.
      eapply size_feasible_Raise; [|exact Hff].
      apply max_arity_of_pos. intros Hnil. rewrite Hnil in E. discriminate.
  - intros H. injection H as <- _. right.
    eapply terminal_condition_Raise; eassumption.
Qed.

(** X21: for a primitive set whose functions all have a positive arity
    (the type of [arity]: the sets that [PrimitiveSet.addPrimitive]
    builds), whatever the bounds, the trait, the return type and the
    random stream, the only exceptions [generate_grow] raises are
    [ValueError] (an empty range of [random.randint]) and
    [OverflowError] (the float arithmetic of [get_max_size]); it raises
    neither [IndexError] from [random.choice] nor [ZeroDivisionError].
    A function of arity [0] is outside this statement: with it
    [get_max_size(0, d)] can divide by zero. *)
Theorem generate_grow_exception_kinds (ps : PrimitiveSet) (b : bounds)
    (dt : trait) (rt : option pytype) (g g' : rng) (e : exn) :
  generate_grow ps b dt rt g = Some (Raised e, g') ->
  e = ValueError \/ e = OverflowError.
Proof.
  intros Hrun. unfold generate_grow in Hrun.
  apply (generate_program_inv ps b dt rt g g' _ (fun _ => True)) in Hrun;
    [|trivial|trivial].
  destruct Hrun as [(e' & He & _ & Hdraw)|(dv & g1 & s_end & _ & _ & Hend)].
  - injection He as <-. left.
    unfold draw_desired_value, randint in Hdraw.
    destruct (is_depth dt);
      (destruct (_ <? _); [|destruct (draw g); discriminate]);
      injection Hdraw as <-; reflexivity.
  - eapply loop_body_Raised, Hend.
Qed.

Lemma generate_grow_exception_kinds_witness :
  generate_grow pset_add (mkBounds 0 1100 1 3) BySize None (constant_rng 2)
    = Some (Raised OverflowError, mkRng (fun _ => 2%N) 1) /\
  (OverflowError = ValueError \/ OverflowError = OverflowError).
Proof.
  split; [vm_compute; reflexivity|].
  apply (generate_grow_exception_kinds pset_add (mkBounds 0 1100 1 3) BySize
           None (constant_rng 2) (mkRng (fun _ => 2%N) 1)).
  vm_compute. reflexivity.
Defined.

(** ** Every bin has its slot *)

Lemma py_max_ge (l : list Z) (M x : Z) :
  py_max l = Ok M -> In x l -> x <= M.
Proof.
  destruct l as [|y l]; [discriminate|]. cbn [py_max].
  intros H. injection H as <-. revert x.
  induction l as [|z l IH]; intros x [<-|Hin]; cbn.
  - lia.
  - contradiction.
  - specialize (IH y (or_introl eq_refl)). lia.
  - destruct Hin as [<-|Hin]; [lia|].
    specialize (IH x (or_intror Hin)). lia.
Qed.

Lemma bins_of_sets_In (sets : list config) (arities ns : list Z)
    (function_set : list (string * positive)) (max_depth bin_size : Z) :
  max_arities sets = Ok arities ->
  bins_of_sets sets arities = Ok ns ->
  In (function_set, max_depth, bin_size) sets ->
  exists max_arity max_possible_size n,
    max_arity_of_set function_set = Ok max_arity /\
    get_max_size max_arity max_depth = Ok max_possible_size /\
    num_size_bins max_possible_size bin_size = Ok n /\
    In n ns.
Proof.
  revert arities ns.
  induction sets as [|[[fs md] bs] sets IH]; intros arities ns Ha Hb Hin;
    [contradiction|].
  cbn [max_arities] in Ha.
  destruct (max_arity_of_set fs) as [m|e] eqn:Hm; [|discriminate].
  cbn [bind] in Ha.
  destruct (max_arities sets) as [ms|e] eqn:Hms; [|discriminate].
  cbn [bind] in Ha. injection Ha as <-.
  cbn [bins_of_sets] in Hb.
  destruct (get_max_size m md) as [mps|e] eqn:Hmps; [|discriminate].
  cbn [bind] in Hb.
  destruct (num_size_bins mps bs) as [n|e] eqn:Hn; [|discriminate].
  cbn [bind] in Hb.
  destruct (bins_of_sets sets ms) as [ns'|e] eqn:Hns; [|discriminate].
  cbn [bind] in Hb. injection Hb as <-.
  destruct Hin as [Heq|Hin].
  - injection Heq as <- <- <-. exists m, mps, n.
    repeat split; try assumption. left. reflexivity.
  - destruct (IH ms ns' eq_refl Hns Hin) as (ma & mp & k & H1 & H2 & H3 & H4).
    exists ma, mp, k. repeat split; try assumption. right. exact H4.
Qed.

(** X22: [program_dict[name]] and [primitive_trees[name]] are created
    with [max_num_size_bins] slots, and no function set of
    [function_sets] has more size bins than that: every index
    [i in range(num_size_bins)] used by the sampling loop is in range. *)
Theorem every_bin_has_a_slot (sets : list config) (M : Z)
    (function_set : list (string * positive)) (max_depth bin_size : Z) :
  max_num_size_bins sets = Ok M ->
  In (function_set, max_depth, bin_size) sets ->
  exists max_arity max_possible_size n bins,
    max_arity_of_set function_set = Ok max_arity /\
    size_bins max_arity max_depth bin_size = Ok (max_possible_size, n, bins) /\
    n <= M.
Proof.
  unfold max_num_size_bins. intros H Hin.
  destruct (max_arities sets) as [arities|e] eqn:Ha; [|discriminate].
  cbn [bind] in H.
  destruct (bins_of_sets sets arities) as [ns|e] eqn:Hb; [|discriminate].
  cbn [bind] in H.
  destruct (bins_of_sets_In _ _ _ _ _ _ Ha Hb Hin)
    as (ma & mps & n & H1 & H2 & H3 & H4).
  exists ma, mps, n. eexists. split; [exact H1|]. split.
  - unfold size_bins. rewrite H2. cbn [bind]. rewrite H3. cbn [bind].
    reflexivity.
  - eapply py_max_ge; eassumption.
Qed.

Lemma every_bin_has_a_slot_witness :
  max_num_size_bins function_sets = Ok 128 /\
  exists max_arity max_possible_size n bins,
    max_arity_of_set nicolau_b = Ok max_arity /\
    size_bins max_arity 5 1 = Ok (max_possible_size, n, bins) /\
    n <= 128.
Proof.
  split; [vm_compute; reflexivity|].
  apply (every_bin_has_a_slot function_sets 128 nicolau_b 5 1).
  - vm_compute. reflexivity.
  - right. left. reflexivity.
Defined.
